(** * Vocal-practice front end: a shallow embedding of the client logic

    The development follows the TypeScript sources of the client:
    the fetch wrapper [apiRequest] and the endpoint table (services/api),
    the session store (contexts/AuthContext), the file intake component
    (components/FileUpload), the waveform/region selector
    (components/WaveformPlayer), the recorder (components/AudioRecorder)
    and the two pages that drive them (pages/Index, pages/Record).

    Conventions.
    - A JavaScript number is an IEEE-754 binary64 value: [float] with the
      kernel's primitive operations, so [-], [Math.abs] and [<=] are the
      operations the browser performs, bit for bit.
    - A parsed JSON document is a [json] tree; [undefined] is the [None] of
      [option json].
    - [localStorage] and plain header objects are finite maps from strings
      to strings ([gmap string string]).
    - An event handler is a function from the state it closes over (and the
      answers of the environment it awaits) to the new state and the list of
      effects it performed, in program order. *)

From Stdlib Require Import ZArith List String Ascii Bool Lia.
From Stdlib Require Import Floats DecimalString.
From stdpp Require Import gmap strings.

Set Warnings "-register-all".

Open Scope string_scope.
Open Scope list_scope.
Open Scope stdpp_scope.

(* ===================================================================== *)
(** ** JavaScript values                                                  *)
(* ===================================================================== *)

Module JS.

(** The result of [JSON.parse]. Object properties are kept in document
    order; a parsed object has pairwise distinct keys. *)
Inductive json : Type :=
| JNull
| JBool (b : bool)
| JNum (x : float)
| JStr (s : string)
| JArr (items : list json)
| JObj (props : list (string * json)).

(** What a [throw] carries: [new Error(message)], or one of the two
    engine errors this code can provoke. *)
Inductive exn : Type :=
| Error (message : string)
| TypeError
| SyntaxError.

(** Completion of an evaluation: a value, or an abrupt [throw]. For an
    [async] function, [Throw] is the rejection of the returned promise. *)
Inductive completion (A : Type) : Type :=
| Normal (a : A)
| Throw (e : exn).
Arguments Normal {A} a.
Arguments Throw {A} e.

Definition bind {A B} (c : completion A) (k : A -> completion B) : completion B :=
  match c with
  | Normal a => k a
  | Throw e => Throw e
  end.

(** How a promise that is awaited turns out: it settles, fulfilled or
    rejected, or it never does ([fetch] has no timeout of its own, and this
    code passes no abort signal). *)
Inductive awaited (A : Type) : Type :=
| Settles (c : completion A)
| Pends.
Arguments Settles {A} c.
Arguments Pends {A}.

(** ToBoolean on numbers: [0], [-0] and [NaN] are falsy. *)
Definition truthy_num (x : float) : bool :=
  negb (PrimFloat.is_nan x || PrimFloat.is_zero x).

(** ToBoolean on strings: only the empty string is falsy. *)
Definition truthy_str (s : string) : bool :=
  match s with
  | EmptyString => false
  | String _ _ => true
  end.

Definition truthy (v : json) : bool :=
  match v with
  | JNull => false
  | JBool b => b
  | JNum x => truthy_num x
  | JStr s => truthy_str s
  | JArr _ => true
  | JObj _ => true
  end.

(** ToBoolean on a possibly undefined value. *)
Definition truthy_opt (v : option json) : bool :=
  match v with
  | None => false
  | Some j => truthy j
  end.

(** First binding of a key in a property list. *)
Fixpoint assoc (k : string) (props : list (string * json)) : option json :=
  match props with
  | [] => None
  | (k', v) :: rest => if String.eqb k k' then Some v else assoc k rest
  end.

(** Property read [v.k] for the property names this program reads
    ([detail], [error], [message], [loc], [msg], [id], [segmentId], ...):
    none of them exists on a prototype, so the read is an own-property
    lookup on objects, [undefined] on the other non-null values and a
    [TypeError] on [null]. *)
Definition prop (v : json) (k : string) : option json :=
  match v with
  | JObj props => assoc k props
  | _ => None
  end.

Definition get (v : json) (k : string) : completion (option json) :=
  match v with
  | JNull => Throw TypeError
  | _ => Normal (prop v k)
  end.

(** Property read on a possibly undefined base. *)
Definition get_opt (v : option json) (k : string) : completion (option json) :=
  match v with
  | None => Throw TypeError
  | Some j => get j k
  end.

(** The last character of a string, as [s.slice(-1)[0]] yields it. *)
Fixpoint last_char (s : string) : option string :=
  match s with
  | EmptyString => None
  | String c EmptyString => Some (String c EmptyString)
  | String _ rest => last_char rest
  end.

(** The last element of an array, as [a.slice(-1)[0]] yields it. *)
Fixpoint last_item (items : list json) : option json :=
  match items with
  | [] => None
  | [x] => Some x
  | _ :: rest => last_item rest
  end.

(** Decimal numeral of a natural number (status codes, counters). *)
Definition N_to_string (n : N) : string :=
  NilZero.string_of_uint (N.to_uint n).

(** A printer that agrees with the engine's [Number::toString] on integral
    values of magnitude below 10^21, which are the only numbers the closed
    examples of this file print (elsewhere it drops the fraction). *)
Definition Number_toString_integral (x : float) : string :=
  match Prim2SF x with
  | S754_zero _ => "0"
  | S754_infinity false => "Infinity"
  | S754_infinity true => "-Infinity"
  | S754_nan => "NaN"
  | S754_finite s m e =>
      let magnitude :=
        (if (0 <=? e)%Z then Z.pos m * 2 ^ e else Z.pos m / 2 ^ (- e))%Z in
      (if s then "-" else "") +:+ N_to_string (Z.to_N magnitude)
  end.

(** A parsed object has a [toString] of its own: the property shadows
    [Object.prototype.toString], and no JSON value can be called. *)
Definition own_toString (props : list (string * json)) : bool :=
  match assoc "toString" props with
  | Some _ => true
  | None => false
  end.

(** A value for which ToString throws: an object with a [toString] of its
    own, or an array that holds such a value. *)
Fixpoint unprintable (v : json) : bool :=
  match v with
  | JObj props => own_toString props
  | JArr items =>
      (fix any (l : list json) : bool :=
         match l with
         | [] => false
         | x :: rest => unprintable x || any rest
         end) items
  | _ => false
  end.

Definition unprintable_opt (v : option json) : bool :=
  match v with
  | Some j => unprintable j
  | None => false
  end.

Section WithNumberToString.

(** [Number::toString] of the language (shortest round-trip decimal). It
    belongs to the engine, not to this repository, and no property below
    depends on which digits it prints. *)
Variable Number_toString : float -> string.

(** The abstract operation ToString on a JSON value: what a template
    literal, [new Error(v)] and [localStorage.setItem(k, v)] apply. An
    object prints as [[object Object]] through the inherited method, and
    throws a [TypeError] when a property [toString] of its own hides it
    (the inherited [valueOf] returns the object itself, which is no
    primitive). An array prints as [join(",")] does: [null] elements as
    the empty string, the others by ToString, from left to right. *)
Fixpoint ToString (v : json) : completion string :=
  match v with
  | JNull => Normal "null"
  | JBool true => Normal "true"
  | JBool false => Normal "false"
  | JNum x => Normal (Number_toString x)
  | JStr s => Normal s
  | JArr items =>
      (fix join (l : list json) : completion string :=
         match l with
         | [] => Normal ""
         | x :: rest =>
             bind (match x with
                   | JNull => Normal ""
                   | _ => ToString x
                   end)
                  (fun first =>
                     match rest with
                     | [] => Normal first
                     | _ :: _ =>
                         bind (join rest)
                              (fun others => Normal (first +:+ "," +:+ others))
                     end)
         end) items
  | JObj props =>
      if own_toString props then Throw TypeError else Normal "[object Object]"
  end.

Definition ToString_opt (v : option json) : completion string :=
  match v with
  | None => Normal "undefined"
  | Some j => ToString j
  end.

(** The method call [v.toString()]: there is no method to call on [null]
    and [undefined], nor on an object whose own [toString] is not a
    function; elsewhere the method found is the one ToString uses. *)
Definition toString_method (v : option json) : completion string :=
  match v with
  | None | Some JNull => Throw TypeError
  | Some j => ToString j
  end.

(** [throw new Error(text)], where evaluating [text] may throw first. *)
Definition Error_of (text : completion string) : exn :=
  match text with
  | Normal message => Error message
  | Throw e => e
  end.

(** ToString gives a text, or throws a [TypeError] and nothing else. *)
Lemma ToString_cases : forall v : json,
  (unprintable v = true /\ ToString v = Throw TypeError)
  \/ (unprintable v = false /\ exists text, ToString v = Normal text).
Proof.
  fix IH 1. intros [ | b | x | s | items | props].
  - right. split; [reflexivity | eexists; reflexivity].
  - right. split; [reflexivity | destruct b; eexists; reflexivity].
  - right. split; [reflexivity | eexists; reflexivity].
  - right. split; [reflexivity | eexists; reflexivity].
  - cbn [ToString unprintable]. revert items. fix IHl 1. intros [ | x rest].
    + right. split; [reflexivity | eexists; reflexivity].
    + destruct (IH x) as [(Hx & Hthrow) | (Hx & text & Htext)].
      * left. rewrite Hx. split; [reflexivity | ].
        destruct x; try discriminate Hx; now rewrite Hthrow.
      * rewrite Hx. cbn [orb].
        assert (Hfirst : exists first,
          match x with JNull => Normal "" | _ => ToString x end = Normal first).
        { destruct x; eauto. }
        destruct Hfirst as (first & ->). cbn [bind].
        pose proof (IHl rest) as Hcases.
        destruct rest as [ | y rest']; [right; split; [reflexivity | eauto] | ].
        destruct Hcases as [(Hrest & Hthrow) | (Hrest & others & Hothers)].
        -- left. split; [exact Hrest | ]. now rewrite Hthrow.
        -- right. split; [exact Hrest | ]. rewrite Hothers. eexists; reflexivity.
  - cbn [ToString unprintable]. destruct (own_toString props).
    + left. now split.
    + right. split; [reflexivity | eexists; reflexivity].
Qed.

Lemma ToString_opt_cases (v : option json) :
  (unprintable_opt v = true /\ ToString_opt v = Throw TypeError)
  \/ (unprintable_opt v = false /\ exists text, ToString_opt v = Normal text).
Proof.
  destruct v as [j | ]; [apply ToString_cases | ].
  right. split; [reflexivity | eexists; reflexivity].
Qed.

End WithNumberToString.

(** [hay.includes(needle)], as a proposition. *)
Definition contains (hay needle : string) : Prop :=
  exists pre post, hay = pre +:+ needle +:+ post.

Lemma append_assoc (a b c : string) : (a +:+ b) +:+ c = a +:+ b +:+ c.
Proof.
  induction a as [ | ch a IH]; [reflexivity | ].
  change (String ch ((a +:+ b) +:+ c) = String ch (a +:+ b +:+ c)).
  now f_equal.
Qed.

Lemma contains_middle (pre needle post : string) :
  contains (pre +:+ needle +:+ post) needle.
Proof. now exists pre, post. Qed.

End JS.

Import JS.


(* ===================================================================== *)
(** ** Numbers: [Math.min] and [toFixed]                                  *)
(* ===================================================================== *)

Module Num.

(** The sign test that tells [-0] from [+0]. *)
Definition is_neg_zero (x : float) : bool :=
  PrimFloat.is_zero x && PrimFloat.get_sign x.

(** [Math.min(a, b)]: [NaN] if either argument is, [-0] below [+0]. *)
Definition Math_min (a b : float) : float :=
  if PrimFloat.is_nan a || PrimFloat.is_nan b then PrimFloat.nan
  else if PrimFloat.ltb a b then a
  else if PrimFloat.ltb b a then b
  else if is_neg_zero a then a else b.

(** Digits of [n] with the decimal point before the last one, padded to
    at least two digits: the layout step of [toFixed(1)]. *)
Definition tenths_to_string (n : N) : string :=
  N_to_string (n / 10) +:+ "." +:+ N_to_string (n mod 10).

(** The integer [n] for which [n / 10] is closest to [m * 2^e], the larger
    one on a tie. *)
Definition nearest_tenths (m : positive) (e : Z) : N :=
  Z.to_N (if (0 <=? e)%Z then 10 * Z.pos m * 2 ^ e
          else (20 * Z.pos m + 2 ^ (- e)) / 2 ^ (1 - e))%Z.

(** The binary64 value nearest to one tenth, the [0.1] of the source. *)
Definition one_tenth : float := 0x1.999999999999ap-4%float.

(** 10^21, the bound above which [toFixed] defers to [Number::toString]. *)
Definition ten_pow_21 : float := 1e21%float.

Section WithNumberToString.

Variable Number_toString : float -> string.

(** [x.toFixed(1)]. *)
Definition toFixed1 (x : float) : string :=
  match Prim2SF x with
  | S754_finite s m e =>
      if PrimFloat.leb ten_pow_21 (PrimFloat.abs x) then Number_toString x
      else (if s then "-" else "") +:+ tenths_to_string (nearest_tenths m e)
  | S754_zero _ => "0.0"
  | _ => Number_toString x
  end.

End WithNumberToString.

Lemma ltb_irrefl (x : float) : PrimFloat.ltb x x = false.
Proof.
  rewrite ltb_spec. unfold SFltb, SFcompare.
  destruct (Prim2SF x) as [s | s | | s m e]; try reflexivity.
  - destruct s; reflexivity.
  - rewrite Z.compare_refl.
    destruct s; rewrite ?Pos.compare_cont_refl; cbn;
      rewrite ?Pos.compare_cont_refl; reflexivity.
Qed.

(** [Math.abs] leaves a positive number (or [+Infinity]) as it is. *)
Lemma abs_of_positive (x : float) : PrimFloat.ltb 0 x = true -> PrimFloat.abs x = x.
Proof.
  intros Hpos.
  assert (Hsf : Prim2SF (PrimFloat.abs x) = Prim2SF x).
  { rewrite abs_spec. rewrite ltb_spec in Hpos.
    change (Prim2SF 0) with (S754_zero false) in Hpos.
    unfold SFltb, SFcompare in Hpos.
    destruct (Prim2SF x) as [s | s | | s m e]; try discriminate.
    - now destruct s.
    - now destruct s. }
  rewrite <- (SF2Prim_Prim2SF (PrimFloat.abs x)), Hsf. apply SF2Prim_Prim2SF.
Qed.

Lemma Math_min_same (x : float) : PrimFloat.is_nan x = false -> Math_min x x = x.
Proof.
  intros Hnan. unfold Math_min. rewrite Hnan, ltb_irrefl. simpl.
  now destruct (is_neg_zero x).
Qed.

Lemma Math_min_nan_r (a d : float) : PrimFloat.is_nan d = true -> Math_min a d = PrimFloat.nan.
Proof. intros Hd. unfold Math_min. now rewrite Hd, orb_true_r. Qed.

(** Clamping twice by the same bound is clamping once. *)
Lemma Math_min_absorb (a d : float) :
  PrimFloat.is_nan a = false -> is_neg_zero a = false ->
  Math_min (Math_min a d) d = Math_min a d.
Proof.
  intros Ha Hzero.
  destruct (PrimFloat.is_nan d) eqn:Hd.
  - now rewrite !Math_min_nan_r.
  - assert (Hsame : Math_min d d = d) by now apply Math_min_same.
    assert (Hcases : Math_min a d = a /\ PrimFloat.ltb a d = true \/ Math_min a d = d).
    { unfold Math_min. rewrite Ha, Hd, Hzero. simpl.
      destruct (PrimFloat.ltb a d); [now left | right].
      now destruct (PrimFloat.ltb d a). }
    destruct Hcases as [[Hmin Hlt] | Hmin]; rewrite Hmin; [ | exact Hsame].
    unfold Math_min. now rewrite Ha, Hd, Hlt.
Qed.

Example toFixed1_examples :
  toFixed1 Number_toString_integral 28 = "28.0"
  /\ toFixed1 Number_toString_integral 15 = "15.0"
  /\ toFixed1 Number_toString_integral 0.25 = "0.3"
  /\ toFixed1 Number_toString_integral 29.5 = "29.5"
  /\ toFixed1 Number_toString_integral 0 = "0.0".
Proof. repeat split. Qed.

End Num.

Import Num.


(* ===================================================================== *)
(** ** Files and binary data                                              *)
(* ===================================================================== *)

(** What the client reads of a [File]: its name, declared MIME type and
    declared size in bytes. The content is never inspected client-side. *)
Record File : Type := mkFile {
  file_name : string;
  file_type : string;
  file_size : N
}.

(** A [Blob]: its bytes and its MIME type. *)
Record Blob : Type := mkBlob {
  blob_data : list N;
  blob_type : string
}.

Definition blob_size (b : Blob) : N := N.of_nat (length (blob_data b)).

(** [new File([blob], name, {type})]. *)
Definition File_of_blob (b : Blob) (name type : string) : File :=
  {| file_name := name; file_type := type; file_size := blob_size b |}.

(** [new File([file], name, {type})]. *)
Definition File_of_file (f : File) (name type : string) : File :=
  {| file_name := name; file_type := type; file_size := file_size f |}.

(** [localStorage]: string keys, string values. *)
Abbreviation Storage := (gmap string string).

(** The result of [localStorage.getItem(k)] used as a condition. *)
Definition truthy_item (v : option string) : bool :=
  match v with
  | None => false
  | Some s => truthy_str s
  end.


(* ===================================================================== *)
(** ** services/api: the fetch wrapper and the endpoint table             *)
(* ===================================================================== *)

Module Api.

Definition API_BASE_URL : string := "https://music-analyser-backend.onrender.com".

Inductive FormValue : Type :=
| FormFile (f : File)
| FormText (s : string).

(** A request body: [JSON.stringify(j)] or a [FormData]. *)
Inductive Body : Type :=
| JsonBody (j : json)
| FormBody (fields : list (string * FormValue)).

(** The [RequestInit] argument, as far as the callers of this module fill
    it: every [headers] they pass is a plain object. *)
Record RequestInit : Type := mkInit {
  init_method : option string;
  init_body : option Body;
  init_headers : option (gmap string string)
}.

Definition no_options : RequestInit :=
  {| init_method := None; init_body := None; init_headers := None |}.

(** What reaches [fetch]. *)
Record Request : Type := mkRequest {
  req_url : string;
  req_method : option string;
  req_body : option Body;
  req_headers : gmap string string
}.

(** What comes back: [response.ok], [response.status],
    [response.statusText], and the outcome of [response.json()]
    ([None] when the body is absent or is not JSON, so that the promise
    rejects). *)
Record Response : Type := mkResponse {
  resp_ok : bool;
  resp_status : N;
  resp_statusText : string;
  resp_json : option json
}.

(** [fetch] rejects (no connection) or resolves with a response. *)
Inductive FetchResult : Type :=
| NetworkFailure
| Responded (r : Response).

(** The template literal [`Bearer ${token}`] on the result of
    [localStorage.getItem('token')]: a missing entry is [null], which the
    template prints as the four letters n-u-l-l. *)
Definition bearer (token : option string) : string :=
  "Bearer " +:+ match token with
                | Some t => t
                | None => "null"
                end.

(** The object literal
    [{ Authorization: `Bearer ${token}`, ...options.headers }]:
    the caller's entries are spread last and win on a common key. *)
Definition merged_headers (token : option string)
    (caller : option (gmap string string)) : gmap string string :=
  default ∅ caller ∪ ({[ "Authorization" := bearer token ]} : gmap string string).

(** The first two statements of [apiRequest]. *)
Definition build_request (ls : Storage) (endpoint : string)
    (options : RequestInit) : Request :=
  let token := ls !! "token" in
  {| req_url := API_BASE_URL +:+ endpoint;
     req_method := init_method options;
     req_body := init_body options;
     req_headers := merged_headers token (init_headers options) |}.

Section WithEngine.

Variable Number_toString : float -> string.

(** [firstError.loc?.slice(-1)[0]]: [undefined] when [loc] is nullish, the
    last element of an array, the last character of a string, and a
    [TypeError] for anything else (no [slice] to call). *)
Definition loc_last (loc : option json) : completion (option json) :=
  match loc with
  | None | Some JNull => Normal None
  | Some (JArr items) => Normal (last_item items)
  | Some (JStr s) => Normal (option_map JStr (last_char s))
  | Some _ => Throw TypeError
  end.

(** [x || fallback] followed by the conversion of a template literal. *)
Definition or_default (x : option json) (fallback : string) : completion string :=
  if truthy_opt x then ToString_opt Number_toString x else Normal fallback.

(** The [if (!response.ok) { ... }] block of [apiRequest]: what it throws.
    [errorData] is the parsed body, or [null] after the [catch]; inside
    [if (errorData)] it is not [null], so its properties can be read. A
    value that cannot be converted to a string makes the conversion throw
    in place of the [throw] statement. *)
Definition error_of_response (r : Response) : exn :=
  let errorData := default JNull (resp_json r) in
  let fallback :=
    Error ("API request failed: " +:+ N_to_string (resp_status r)
           +:+ " " +:+ resp_statusText r) in
  if truthy errorData then
    match prop errorData "detail" with
    | Some (JStr detail) => Error detail
    | Some (JArr (firstError :: _)) =>
        match bind (get firstError "loc") loc_last with
        | Throw e => e
        | Normal last =>
            let field := last in
            let message := prop firstError "msg" in
            Error_of
              (bind (or_default field "field") (fun field_text =>
               bind (or_default message "Validation error") (fun message_text =>
               Normal (field_text +:+ ": " +:+ message_text))))
        end
    | _ =>
        let err := prop errorData "error" in
        if truthy_opt err then Error_of (ToString_opt Number_toString err)
        else
          let msg := prop errorData "message" in
          if truthy_opt msg then Error_of (ToString_opt Number_toString msg)
          else fallback
    end
  else fallback.

(** [apiRequest]: the request it sends and how its promise settles, for a
    given behaviour of the network. *)
Definition apiRequest (ls : Storage) (net : Request -> FetchResult)
    (endpoint : string) (options : RequestInit) : Request * completion json :=
  let request := build_request ls endpoint options in
  (request,
   match net request with
   | NetworkFailure => Throw TypeError
   | Responded r =>
       if resp_ok r then
         match resp_json r with
         | Some j => Normal j
         | None => Throw SyntaxError
         end
       else Throw (error_of_response r)
   end).

(** *** The endpoint table

    Each wrapper of the module is the pair of arguments it passes to
    [apiRequest]. *)

Definition Call : Type := string * RequestInit.

Definition json_headers : gmap string string :=
  {[ "Content-Type" := "application/json" ]}.

Definition get_call (endpoint : string) : Call := (endpoint, no_options).

Definition method_call (method endpoint : string) : Call :=
  (endpoint,
   {| init_method := Some method; init_body := None; init_headers := None |}).

Definition post_json (endpoint : string) (j : json) : Call :=
  (endpoint,
   {| init_method := Some "POST";
      init_body := Some (JsonBody j);
      init_headers := Some json_headers |}).

Definition post_form (endpoint : string) (fields : list (string * FormValue)) : Call :=
  (endpoint,
   {| init_method := Some "POST";
      init_body := Some (FormBody fields);
      init_headers := None |}).

(** [if (x !== undefined) formData.append(name, x.toString())]. *)
Definition form_number (name : string) (x : option float) : list (string * FormValue) :=
  match x with
  | Some v => [(name, FormText (Number_toString v))]
  | None => []
  end.

(** [if (filters?.name) params.append(name, filters.name.toString())]. *)
Definition query_number (name : string) (x : option float) : list (string * string) :=
  match x with
  | Some v => if truthy_num v then [(name, Number_toString v)] else []
  | None => []
  end.

Record AttemptFilters : Type := mkFilters {
  flt_limit : option float;
  flt_offset : option float;
  flt_segment_id : option float;
  flt_min_score : option float;
  flt_max_score : option float
}.

(** [URLSearchParams.prototype.toString] (form-urlencoding), a service of
    the platform. *)
Variable URLSearchParams_toString : list (string * string) -> string.

Definition attempts_query (filters : option AttemptFilters) : string :=
  let of_filter (sel : AttemptFilters -> option float) :=
    match filters with
    | Some f => sel f
    | None => None
    end in
  let params :=
    query_number "limit" (of_filter flt_limit)
    ++ query_number "offset" (of_filter flt_offset)
    ++ query_number "segment_id" (of_filter flt_segment_id)
    ++ query_number "min_score" (of_filter flt_min_score)
    ++ query_number "max_score" (of_filter flt_max_score) in
  let queryString := URLSearchParams_toString params in
  "/api/attempts" +:+ (if truthy_str queryString then "?" +:+ queryString else "").

(** The exported wrappers, one constructor each. *)
Inductive Wrapper : Type :=
| authAPI_login (email password : string)
| authAPI_register (email username password : string)
| authAPI_getCurrentUser
| authAPI_logout
| uploadAPI_uploadAndProcess (file : File) (startTime endTime : option float)
| uploadAPI_getSupportedFormats
| uploadAPI_cleanupExpiredFiles
| segmentsAPI_getSegments
| segmentsAPI_getSegment (segmentId : string)
| segmentsAPI_deleteSegment (segmentId : string)
| analysisAPI_analyzeRecording (segmentId recordingId : string)
| analysisAPI_getAnalysisSummary (attemptId : string)
| attemptsAPI_getUserAttempts (filters : option AttemptFilters)
| attemptsAPI_getAttemptDetails (id : string)
| attemptsAPI_deleteAttempt (id : string)
| attemptsAPI_getUserStats
| resultsAPI_getResults (attemptId : string)
| recordingAPI_uploadRecording (file : File) (segmentId : float)
| recordingAPI_getUserRecordings
| recordingAPI_getRecordingDetails (recordingId : string)
| systemAPI_healthCheck
| systemAPI_getRootInfo.

Definition call_of (w : Wrapper) : Call :=
  match w with
  | authAPI_login email password =>
      post_json "/api/auth/login"
        (JObj [("email", JStr email); ("password", JStr password)])
  | authAPI_register email username password =>
      post_json "/api/auth/register"
        (JObj [("email", JStr email); ("username", JStr username);
               ("password", JStr password)])
  | authAPI_getCurrentUser => get_call "/api/auth/me"
  | authAPI_logout => method_call "POST" "/api/auth/logout"
  | uploadAPI_uploadAndProcess file startTime endTime =>
      post_form "/api/upload-and-process"
        ([("file", FormFile file)]
         ++ form_number "start_time" startTime
         ++ form_number "end_time" endTime)
  | uploadAPI_getSupportedFormats => get_call "/api/formats/supported"
  | uploadAPI_cleanupExpiredFiles => method_call "POST" "/api/cleanup-expired"
  | segmentsAPI_getSegments => get_call "/api/segments"
  | segmentsAPI_getSegment segmentId => get_call ("/api/segments/" +:+ segmentId)
  | segmentsAPI_deleteSegment segmentId =>
      method_call "DELETE" ("/api/segments/" +:+ segmentId)
  | analysisAPI_analyzeRecording segmentId recordingId =>
      post_json "/api/analyze"
        (JObj [("segment_id", JStr segmentId); ("recording_id", JStr recordingId)])
  | analysisAPI_getAnalysisSummary attemptId =>
      get_call ("/api/analysis-summary/" +:+ attemptId)
  | attemptsAPI_getUserAttempts filters => get_call (attempts_query filters)
  | attemptsAPI_getAttemptDetails id => get_call ("/api/attempts/" +:+ id)
  | attemptsAPI_deleteAttempt id => method_call "DELETE" ("/api/attempts/" +:+ id)
  | attemptsAPI_getUserStats => get_call "/api/attempts/stats/overview"
  | resultsAPI_getResults attemptId => get_call ("/api/attempts/" +:+ attemptId)
  | recordingAPI_uploadRecording file segmentId =>
      post_form "/api/recording/upload"
        [("file", FormFile file);
         ("segment_id", FormText (Number_toString segmentId))]
  | recordingAPI_getUserRecordings => get_call "/api/recording/"
  | recordingAPI_getRecordingDetails recordingId =>
      get_call ("/api/recording/" +:+ recordingId)
  | systemAPI_healthCheck => get_call "/health"
  | systemAPI_getRootInfo => get_call "/"
  end.

(** The wrappers of the three endpoints a submission goes through. *)
Definition is_upload_and_process (w : Wrapper) : bool :=
  match w with
  | uploadAPI_uploadAndProcess _ _ _ => true
  | _ => false
  end.

Definition is_recording_upload (w : Wrapper) : bool :=
  match w with
  | recordingAPI_uploadRecording _ _ => true
  | _ => false
  end.

Definition is_analyze (w : Wrapper) : bool :=
  match w with
  | analysisAPI_analyzeRecording _ _ => true
  | _ => false
  end.

(** Running a wrapper: [apiRequest] on its arguments. *)
Definition invoke (ls : Storage) (net : Request -> FetchResult) (w : Wrapper)
    : Request * completion json :=
  apiRequest ls net (fst (call_of w)) (snd (call_of w)).

End WithEngine.

(** *** Facts about the fetch wrapper *)

Section ApiFacts.

Variable Number_toString : float -> string.
Variable URLSearchParams_toString : list (string * string) -> string.

Lemma prop_Some_truthy (v : json) (k : string) (x : json) :
  prop v k = Some x -> truthy v = true.
Proof. destruct v; simpl; intros H; try discriminate; reflexivity. Qed.

Lemma prop_Some_get (v : json) (k : string) (x : json) :
  prop v k = Some x -> get v k = Normal (Some x).
Proof. destruct v; simpl; intros H; try discriminate; now rewrite H. Qed.

Lemma or_default_truthy (x : json) (fallback : string) :
  truthy x = true ->
  or_default Number_toString (Some x) fallback = ToString Number_toString x.
Proof. intros Hx. unfold or_default. simpl. now rewrite Hx. Qed.

Lemma or_default_falsy (x : option json) (fallback : string) :
  truthy_opt x = false ->
  or_default Number_toString x fallback = Normal fallback.
Proof. intros Hx. unfold or_default. now rewrite Hx. Qed.

(** A body whose [detail] is neither a string nor a non-empty array: the
    first two formats do not apply to it. *)
Definition detail_silent (body : json) : Prop :=
  match prop body "detail" with
  | Some (JStr _) => False
  | Some (JArr (_ :: _)) => False
  | _ => True
  end.

(** A failed request rejects with what [error_of_response] builds. *)
Lemma apiRequest_not_ok ls net endpoint options r :
  net (build_request ls endpoint options) = Responded r ->
  resp_ok r = false ->
  snd (apiRequest Number_toString ls net endpoint options)
  = Throw (error_of_response Number_toString r).
Proof.
  intros Hnet Hok. unfold apiRequest. simpl. now rewrite Hnet, Hok.
Qed.

Lemma error_validation_list r body first rest locs :
  resp_json r = Some body ->
  prop body "detail" = Some (JArr (first :: rest)) ->
  prop first "loc" = Some (JArr locs) ->
  error_of_response Number_toString r
  = Error_of
      (bind (or_default Number_toString (last_item locs) "field") (fun field_text =>
       bind (or_default Number_toString (prop first "msg") "Validation error")
            (fun message_text => Normal (field_text +:+ ": " +:+ message_text)))).
Proof.
  intros Hbody Hdetail Hloc.
  unfold error_of_response. rewrite Hbody. simpl default.
  rewrite (prop_Some_truthy _ _ _ Hdetail), Hdetail.
  rewrite (prop_Some_get _ _ _ Hloc). reflexivity.
Qed.

Lemma error_string_detail r body detail :
  resp_json r = Some body ->
  prop body "detail" = Some (JStr detail) ->
  error_of_response Number_toString r = Error detail.
Proof.
  intros Hbody Hdetail. unfold error_of_response. rewrite Hbody. simpl default.
  now rewrite (prop_Some_truthy _ _ _ Hdetail), Hdetail.
Qed.

Lemma error_without_detail r body :
  resp_json r = Some body -> truthy body = true -> detail_silent body ->
  error_of_response Number_toString r =
  let err := prop body "error" in
  let msg := prop body "message" in
  if truthy_opt err then Error_of (ToString_opt Number_toString err)
  else if truthy_opt msg then Error_of (ToString_opt Number_toString msg)
  else Error ("API request failed: " +:+ N_to_string (resp_status r)
              +:+ " " +:+ resp_statusText r).
Proof.
  intros Hbody Htruthy Hsilent. unfold error_of_response.
  rewrite Hbody. simpl default. rewrite Htruthy.
  unfold detail_silent in Hsilent.
  destruct (prop body "detail") as [[ | | | | [ | ] | ] | ];
    try reflexivity; contradiction.
Qed.

Lemma error_error_field r body x :
  resp_json r = Some body -> detail_silent body ->
  prop body "error" = Some x -> truthy x = true ->
  error_of_response Number_toString r = Error_of (ToString Number_toString x).
Proof.
  intros Hbody Hsilent Herr Hx.
  rewrite (error_without_detail r body Hbody (prop_Some_truthy _ _ _ Herr) Hsilent).
  cbv zeta. rewrite Herr. simpl. now rewrite Hx.
Qed.

Lemma error_message_field r body m :
  resp_json r = Some body -> detail_silent body ->
  truthy_opt (prop body "error") = false ->
  prop body "message" = Some m -> truthy m = true ->
  error_of_response Number_toString r = Error_of (ToString Number_toString m).
Proof.
  intros Hbody Hsilent Herr Hmsg Hm.
  rewrite (error_without_detail r body Hbody (prop_Some_truthy _ _ _ Hmsg) Hsilent).
  cbv zeta. rewrite Herr, Hmsg. simpl. now rewrite Hm.
Qed.

Lemma error_no_body r :
  resp_json r = None ->
  error_of_response Number_toString r =
  Error ("API request failed: " +:+ N_to_string (resp_status r)
         +:+ " " +:+ resp_statusText r).
Proof. intros Hbody. unfold error_of_response. now rewrite Hbody. Qed.

(** The headers of the request that is sent. *)
Lemma build_request_authorization ls endpoint options :
  req_headers (build_request ls endpoint options) !! "Authorization"
  = match default ∅ (init_headers options) !! "Authorization" with
    | Some own => Some own
    | None => Some (bearer (ls !! "token"))
    end.
Proof.
  unfold build_request, merged_headers. simpl.
  rewrite lookup_union.
  destruct (default ∅ (init_headers options) !! "Authorization") as [own | ];
    now rewrite lookup_singleton_eq.
Qed.

Lemma upload_and_process_endpoint (w : Wrapper) :
  is_upload_and_process w = true ->
  fst (call_of Number_toString URLSearchParams_toString w) = "/api/upload-and-process".
Proof. destruct w; simpl; intros H; try discriminate; reflexivity. Qed.

Lemma recording_upload_endpoint (w : Wrapper) :
  is_recording_upload w = true ->
  fst (call_of Number_toString URLSearchParams_toString w) = "/api/recording/upload".
Proof. destruct w; simpl; intros H; try discriminate; reflexivity. Qed.

Lemma analyze_endpoint (w : Wrapper) :
  is_analyze w = true ->
  fst (call_of Number_toString URLSearchParams_toString w) = "/api/analyze".
Proof. destruct w; simpl; intros H; try discriminate; reflexivity. Qed.

(** No wrapper of the endpoint table passes an [Authorization] header of
    its own: they pass no headers, or the single [Content-Type] entry. *)
Lemma wrappers_pass_no_authorization (w : Wrapper) :
  default ∅ (init_headers (snd (call_of Number_toString URLSearchParams_toString w)))
    !! "Authorization" = None.
Proof. destruct w; reflexivity. Qed.

(** The normalization as the specification words it: a list of field
    errors yields the last element of the first error's [loc] joined with
    its [msg]; a string [detail] yields that string; an [error] field
    yields it; a [message] field yields it; an absent or unparseable body
    yields the fallback. *)
Definition claimed_error_normalization : Prop :=
  forall r : Response,
    (forall body first rest locs field msg field_text message_text,
        resp_json r = Some body ->
        prop body "detail" = Some (JArr (first :: rest)) ->
        prop first "loc" = Some (JArr locs) ->
        last_item locs = Some field ->
        prop first "msg" = Some msg ->
        ToString Number_toString field = Normal field_text ->
        ToString Number_toString msg = Normal message_text ->
        error_of_response Number_toString r
        = Error (field_text +:+ ": " +:+ message_text))
    /\ (forall body detail,
          resp_json r = Some body -> prop body "detail" = Some (JStr detail) ->
          error_of_response Number_toString r = Error detail)
    /\ (forall body x,
          resp_json r = Some body -> prop body "error" = Some (JStr x) ->
          error_of_response Number_toString r = Error x)
    /\ (forall body m,
          resp_json r = Some body -> prop body "message" = Some (JStr m) ->
          error_of_response Number_toString r = Error m)
    /\ (resp_json r = None ->
        error_of_response Number_toString r
        = Error ("API request failed: " +:+ N_to_string (resp_status r)
                 +:+ " " +:+ resp_statusText r)).

(** C2, as the code has it. A response that is not ok makes [apiRequest]
    reject with what the error block throws, read off the body in this
    order of precedence. For a [detail] that is a non-empty list whose
    first entry has an array [loc]: an [Error] with the message
    "<field>: <message>", where <field> is the last element of that [loc],
    or "field" when it is missing or falsy, and <message> is the entry's
    [msg], or "Validation error" when it is missing or falsy. For a string
    [detail]: that string. Otherwise for a truthy [error] field: that
    field. Otherwise for a truthy [message] field: that field. For an
    absent or unparseable body: "API request failed: <status>
    <statusText>". Each value is printed as a template literal prints it;
    where that conversion throws, its [TypeError] is what is thrown. *)
Theorem apiRequest_error_normalization ls net endpoint options r :
  net (build_request ls endpoint options) = Responded r ->
  resp_ok r = false ->
  snd (apiRequest Number_toString ls net endpoint options)
  = Throw (error_of_response Number_toString r)
  /\ (forall body first rest locs,
        resp_json r = Some body ->
        prop body "detail" = Some (JArr (first :: rest)) ->
        prop first "loc" = Some (JArr locs) ->
        let field :=
          if truthy_opt (last_item locs)
          then ToString_opt Number_toString (last_item locs)
          else Normal "field" in
        let message :=
          if truthy_opt (prop first "msg")
          then ToString_opt Number_toString (prop first "msg")
          else Normal "Validation error" in
        (forall field_text message_text,
            field = Normal field_text -> message = Normal message_text ->
            error_of_response Number_toString r
            = Error (field_text +:+ ": " +:+ message_text))
        /\ (forall e, field = Throw e ->
            error_of_response Number_toString r = e)
        /\ (forall field_text e,
            field = Normal field_text -> message = Throw e ->
            error_of_response Number_toString r = e))
  /\ (forall body detail,
        resp_json r = Some body ->
        prop body "detail" = Some (JStr detail) ->
        error_of_response Number_toString r = Error detail)
  /\ (forall body x,
        resp_json r = Some body -> detail_silent body ->
        prop body "error" = Some x -> truthy x = true ->
        error_of_response Number_toString r = Error_of (ToString Number_toString x))
  /\ (forall body m,
        resp_json r = Some body -> detail_silent body ->
        truthy_opt (prop body "error") = false ->
        prop body "message" = Some m -> truthy m = true ->
        error_of_response Number_toString r = Error_of (ToString Number_toString m))
  /\ (resp_json r = None ->
      error_of_response Number_toString r
      = Error ("API request failed: " +:+ N_to_string (resp_status r)
               +:+ " " +:+ resp_statusText r)).
Proof.
  intros Hnet Hok. split; [now apply apiRequest_not_ok | ].
  split.
  { intros body first rest locs Hbody Hdetail Hloc field message.
    rewrite (error_validation_list r body first rest locs Hbody Hdetail Hloc).
    change (or_default Number_toString (last_item locs) "field") with field.
    change (or_default Number_toString (prop first "msg") "Validation error")
      with message.
    split; [ | split].
    - intros field_text message_text -> ->. reflexivity.
    - intros e ->. reflexivity.
    - intros field_text e -> ->. reflexivity. }
  split; [intros; eapply error_string_detail; eassumption | ].
  split; [intros; eapply error_error_field; eassumption | ].
  split; [intros; eapply error_message_field; eassumption | ].
  apply error_no_body.
Qed.

(** C10, as the code has it. Every request that [apiRequest] sends has an
    [Authorization] header, and every endpoint wrapper of this module
    sends its request through [apiRequest]. Unless the caller passes a
    header of its own (no wrapper does), the value is "Bearer " followed
    by the stored token, and with no token entry in local storage it is
    the literal "Bearer null". The URLs that the pages give to audio
    elements and to the waveform are loaded by the browser, not through
    [apiRequest]. *)
Theorem apiRequest_authorization_header ls net :
  (forall endpoint options,
      is_Some (req_headers (fst (apiRequest Number_toString ls net endpoint options))
               !! "Authorization"))
  /\ (forall endpoint options,
        default ∅ (init_headers options) !! "Authorization" = None ->
        ls !! "token" = None ->
        req_headers (fst (apiRequest Number_toString ls net endpoint options))
          !! "Authorization" = Some "Bearer null")
  /\ (forall w,
        req_headers (fst (invoke Number_toString URLSearchParams_toString ls net w))
          !! "Authorization" = Some (bearer (ls !! "token")))
  /\ (forall w,
        ls !! "token" = None ->
        req_headers (fst (invoke Number_toString URLSearchParams_toString ls net w))
          !! "Authorization" = Some "Bearer null").
Proof.
  assert (Hwrap : forall w,
    req_headers (fst (invoke Number_toString URLSearchParams_toString ls net w))
      !! "Authorization" = Some (bearer (ls !! "token"))).
  { intros w. unfold invoke, apiRequest. cbn [fst].
    rewrite build_request_authorization.
    now rewrite wrappers_pass_no_authorization. }
  split; [ | split; [ | split ] ].
  - intros endpoint options. unfold apiRequest. cbn [fst].
    rewrite build_request_authorization.
    destruct (default ∅ (init_headers options) !! "Authorization"); eauto.
  - intros endpoint options Hown Htoken. unfold apiRequest. cbn [fst].
    rewrite build_request_authorization, Hown, Htoken. reflexivity.
  - exact Hwrap.
  - intros w Htoken. rewrite Hwrap, Htoken. reflexivity.
Qed.

End ApiFacts.

(** *** Closed examples *)

(** The validation failure of the specification's example:
    [{"detail":[{"loc":["body","email"],"msg":"invalid"}]}]. *)
Definition validation_failure : Response :=
  {| resp_ok := false;
     resp_status := 422;
     resp_statusText := "Unprocessable Entity";
     resp_json :=
       Some (JObj [("detail",
                    JArr [JObj [("loc", JArr [JStr "body"; JStr "email"]);
                                ("msg", JStr "invalid")]])]) |}.

(** [{"error":"x"}]. *)
Definition error_x : Response :=
  {| resp_ok := false;
     resp_status := 500;
     resp_statusText := "Internal Server Error";
     resp_json := Some (JObj [("error", JStr "x")]) |}.

(** A gateway error page: the body is not JSON. *)
Definition bad_gateway : Response :=
  {| resp_ok := false;
     resp_status := 502;
     resp_statusText := "Bad Gateway";
     resp_json := None |}.

Definition always (r : Response) : Request -> FetchResult := fun _ => Responded r.

Lemma apiRequest_error_normalization_witness :
  snd (apiRequest Number_toString_integral ∅ (always validation_failure)
         "/api/auth/register" no_options)
  = Throw (Error "email: invalid")
  /\ snd (apiRequest Number_toString_integral ∅ (always error_x)
            "/api/segments" no_options)
     = Throw (Error "x")
  /\ snd (apiRequest Number_toString_integral ∅ (always bad_gateway)
            "/api/segments" no_options)
     = Throw (Error "API request failed: 502 Bad Gateway").
Proof.
  split; [ | split ].
  - destruct (apiRequest_error_normalization Number_toString_integral ∅
                (always validation_failure) "/api/auth/register" no_options
                validation_failure eq_refl eq_refl) as (Hthrow & Hlist & _).
    rewrite Hthrow.
    destruct (Hlist _ _ _ _ eq_refl eq_refl eq_refl) as (Hprinted & _).
    rewrite (Hprinted "email" "invalid" eq_refl eq_refl). reflexivity.
  - destruct (apiRequest_error_normalization Number_toString_integral ∅
                (always error_x) "/api/segments" no_options
                error_x eq_refl eq_refl) as (Hthrow & _ & _ & Herror & _).
    rewrite Hthrow, (Herror _ _ eq_refl I eq_refl eq_refl). reflexivity.
  - destruct (apiRequest_error_normalization Number_toString_integral ∅
                (always bad_gateway) "/api/segments" no_options
                bad_gateway eq_refl eq_refl) as (Hthrow & _ & _ & _ & _ & Hnone).
    rewrite Hthrow, (Hnone eq_refl). reflexivity.
Defined.

(** With both fields present, [error] is the one reported. *)
Example error_before_message :
  error_of_response Number_toString_integral
    {| resp_ok := false; resp_status := 400; resp_statusText := "Bad Request";
       resp_json := Some (JObj [("error", JStr "x"); ("message", JStr "y")]) |}
  = Error "x".
Proof. reflexivity. Qed.

(** The defaults of the validation format: a missing [loc] reads "field",
    a missing [msg] reads "Validation error". *)
Example validation_defaults :
  error_of_response Number_toString_integral
    {| resp_ok := false; resp_status := 422; resp_statusText := "";
       resp_json := Some (JObj [("detail", JArr [JObj []])]) |}
  = Error "field: Validation error".
Proof. reflexivity. Qed.

(** A [null] entry in the list is read like any other: the promise then
    rejects with the engine's [TypeError]. *)
Example validation_null_entry :
  error_of_response Number_toString_integral
    {| resp_ok := false; resp_status := 422; resp_statusText := "";
       resp_json := Some (JObj [("detail", JArr [JNull])]) |}
  = TypeError.
Proof. reflexivity. Qed.

(** An [error] that is an object with a [toString] property of its own
    cannot be printed: [new Error(errorData.error)] throws a [TypeError]. *)
Example error_without_text :
  error_of_response Number_toString_integral
    {| resp_ok := false; resp_status := 500; resp_statusText := "";
       resp_json := Some (JObj [("error", JObj [("toString", JNum 1)])]) |}
  = TypeError.
Proof. reflexivity. Qed.

(** The first element of a list body is turned down: its [loc] ends in the
    index 0, [{"detail":[{"loc":["body",0],"msg":"too short"}]}]. *)
Definition indexed_failure : Response :=
  {| resp_ok := false;
     resp_status := 422;
     resp_statusText := "Unprocessable Entity";
     resp_json :=
       Some (JObj [("detail",
                    JArr [JObj [("loc", JArr [JStr "body"; JNum 0]);
                                ("msg", JStr "too short")]])]) |}.

(** There the last element of [loc] is 0, which [||] replaces by "field":
    the message is not that element joined with [msg]. And [message] does
    not come through beside a string [detail]. *)
Lemma normalization_as_worded_fails :
  error_of_response Number_toString_integral indexed_failure
  = Error "field: too short"
  /\ error_of_response Number_toString_integral
       {| resp_ok := false; resp_status := 400; resp_statusText := "Bad Request";
          resp_json := Some (JObj [("detail", JStr "d"); ("message", JStr "m")]) |}
     = Error "d"
  /\ ~ claimed_error_normalization Number_toString_integral.
Proof.
  split; [reflexivity | split; [reflexivity | ] ].
  intros Hclaim.
  destruct (Hclaim indexed_failure) as (Hlist & _).
  specialize (Hlist _ _ _ _ (JNum 0) (JStr "too short") "0" "too short"
                eq_refl eq_refl eq_refl eq_refl eq_refl eq_refl eq_refl).
  discriminate Hlist.
Qed.

Definition urlencode_any (params : list (string * string)) : string := "".

Lemma apiRequest_authorization_header_witness :
  req_headers
    (fst (invoke Number_toString_integral urlencode_any ∅ (always bad_gateway)
            authAPI_getCurrentUser))
    !! "Authorization" = Some "Bearer null"
  /\ req_headers
       (fst (apiRequest Number_toString_integral ∅ (always bad_gateway)
               "/api/segments" no_options))
       !! "Authorization" = Some "Bearer null".
Proof.
  destruct (apiRequest_authorization_header Number_toString_integral urlencode_any
              ∅ (always bad_gateway)) as (_ & Hraw & _ & Hwrapped).
  split.
  - apply Hwrapped. reflexivity.
  - apply Hraw; reflexivity.
Defined.

(** With a stored token the header carries it. *)
Example authorization_with_token :
  req_headers
    (build_request ({[ "token" := "abc" ]} : Storage) "/api/auth/me" no_options)
    !! "Authorization" = Some "Bearer abc".
Proof. reflexivity. Qed.

End Api.


(* ===================================================================== *)
(** ** contexts/AuthContext: the session store                            *)
(* ===================================================================== *)

Module AuthContext.

(** The provider's state. [user] and [token] hold [null] ([JNull]) until a
    session is set. *)
Record State : Type := mkState {
  user : json;
  token : json;
  isLoading : bool
}.

(** The [useState] initial values. *)
Definition initial : State :=
  {| user := JNull; token := JNull; isLoading := true |}.

(** What the provider does to the outside world. [ToastErrorOf e] is
    [toast.error(e.message)] for a caught [e]. *)
Inductive effect : Type :=
| NetworkCall (w : Api.Wrapper)
| ConsoleError (label : string)
| ToastSuccess (text : string)
| ToastError (text : string)
| ToastErrorOf (e : exn)
| Navigate (path : string).

Definition is_network (e : effect) : bool :=
  match e with
  | NetworkCall _ => true
  | _ => false
  end.

Section WithEngine.

(** [JSON.parse]: [None] when it throws its [SyntaxError]. *)
Variable JSON_parse : string -> option json.
Variable JSON_stringify : json -> string.
Variable Number_toString : float -> string.

Definition parse (text : string) : completion json :=
  match JSON_parse text with
  | Some j => Normal j
  | None => Throw SyntaxError
  end.

(** The mount effect of [AuthProvider] ([useEffect(..., [])]): it runs once,
    on the initial state. The result is the storage and state it leaves,
    the effects it performed, and how it completes. *)
Definition rehydrate (ls : Storage)
    : Storage * State * list effect * completion unit :=
  let storedToken := ls !! "token" in
  let storedUser := ls !! "user" in
  let '(ls1, st1, effects) :=
    match storedToken, storedUser with
    | Some tokenText, Some userText =>
        if truthy_str tokenText && truthy_str userText then
          (* try { ... } catch (error) { ... } *)
          match parse userText with
          | Normal parsedUser =>
              (ls,
               {| user := parsedUser;
                  token := JStr tokenText;
                  isLoading := isLoading initial |},
               [])
          | Throw _ =>
              (delete "token" (delete "user" ls),
               initial,
               [ConsoleError "Failed to parse stored user data:"])
          end
        else (ls, initial, [])
    | _, _ => (ls, initial, [])
    end in
  (ls1,
   {| user := user st1; token := token st1; isLoading := false |},
   effects,
   Normal tt).

(** [!data || !data.access_token || !data.user]. *)
Definition invalid_auth_response (data : json) : bool :=
  negb (truthy data)
  || negb (truthy_opt (prop data "access_token"))
  || negb (truthy_opt (prop data "user")).

(** The body shared by [login] and [register] after the awaited call:
    [reply] is how the call settled. [localStorage.setItem('token', ...)]
    converts the token to a string, which throws for a token that cannot
    be printed; what was set before is set all the same: the token in
    [login], the token and the user in [register] ([user_first]). *)
Definition establish (greeting : string) (user_first : bool) (ls : Storage)
    (st : State) (reply : completion json)
    : Storage * State * list effect * completion unit :=
  let failed (e : exn) := (ls, st, [ToastErrorOf e], Throw e) in
  match reply with
  | Throw e => failed e
  | Normal data =>
      if invalid_auth_response data then
        failed (Error "Invalid response from server")
      else
        let access_token := default JNull (prop data "access_token") in
        let data_user := default JNull (prop data "user") in
        match ToString Number_toString access_token with
        | Throw e =>
            (ls,
             {| user := if user_first then data_user else user st;
                token := access_token;
                isLoading := isLoading st |},
             [ToastErrorOf e],
             Throw e)
        | Normal token_text =>
            (<["user" := JSON_stringify data_user]> (<["token" := token_text]> ls),
             {| user := data_user; token := access_token; isLoading := isLoading st |},
             [ToastSuccess greeting; Navigate "/"],
             Normal tt)
        end
  end.

(** [login]: [setToken], [setItem('token')], [setUser], [setItem('user')]. *)
Definition login (ls : Storage) (st : State) (email password : string)
    (reply : completion json)
    : Storage * State * list effect * completion unit :=
  let '(ls1, st1, effects, result) := establish "Welcome back!" false ls st reply in
  (ls1, st1, NetworkCall (Api.authAPI_login email password) :: effects, result).

(** [register]: [setToken], [setUser], [setItem('token')], [setItem('user')]. *)
Definition register (ls : Storage) (st : State) (email username password : string)
    (reply : completion json)
    : Storage * State * list effect * completion unit :=
  let '(ls1, st1, effects, result) :=
    establish "Account created successfully!" true ls st reply in
  (ls1, st1,
   NetworkCall (Api.authAPI_register email username password) :: effects, result).

(** [logout]: [reply] is how the awaited call turns out. Until it settles
    the [finally] block has not run: the call has been made and nothing
    else has happened. *)
Definition logout (ls : Storage) (st : State) (reply : awaited json)
    : Storage * State * list effect * awaited unit :=
  match reply with
  | Pends => (ls, st, [NetworkCall Api.authAPI_logout], Pends)
  | Settles settled =>
      let caught :=
        match settled with
        | Normal _ => []
        | Throw _ => [ConsoleError "Logout error:"]
        end in
      (delete "user" (delete "token" ls),
       {| user := JNull; token := JNull; isLoading := isLoading st |},
       NetworkCall Api.authAPI_logout :: caught
         ++ [ToastSuccess "Logged out successfully"; Navigate "/login"],
       Settles (Normal tt))
  end.

(** [localStorage.getItem(key)] is truthy: the entry exists and is not the
    empty string. This is how the mount effect tests for a stored session. *)
Definition holds (ls : Storage) (key : string) : Prop :=
  truthy_item (ls !! key) = true.

Lemma holds_entry (ls : Storage) (key : string) :
  holds ls key -> exists text, ls !! key = Some text /\ truthy_str text = true.
Proof.
  unfold holds. destruct (ls !! key) as [text | ]; simpl; [eauto | discriminate].
Qed.

(** The rehydration as the specification words it: whenever local
    storage holds a token entry and a user entry, a user entry that parses
    restores the session, and one that does not parse has both keys
    removed. *)
Definition claimed_rehydration : Prop :=
  forall (ls : Storage) storedToken storedUser,
    ls !! "token" = Some storedToken ->
    ls !! "user" = Some storedUser ->
    let '(ls1, st1, effects, result) := rehydrate ls in
    (forall parsedUser,
        JSON_parse storedUser = Some parsedUser ->
        user st1 = parsedUser /\ token st1 = JStr storedToken)
    /\ (JSON_parse storedUser = None ->
        ls1 !! "token" = None /\ ls1 !! "user" = None
        /\ user st1 = JNull /\ token st1 = JNull).

(** C3, as the code has it. At startup, when local storage holds a
    non-empty token entry and a non-empty user entry: if the user entry
    parses as JSON, the session is restored from the two entries (user set
    to the parsed value, token to the stored one), storage is left as it
    was and nothing else happens, so no network call is made; if it does
    not parse, both keys are removed, user and token stay null, and the
    only effect is the console message. When either entry is missing or
    empty, nothing is parsed, restored or removed, and the session is
    unauthenticated. In every case the effect completes normally: no
    exception escapes. *)
Theorem rehydrate_session (ls : Storage) :
  (holds ls "token" -> holds ls "user" ->
   exists storedToken storedUser,
     ls !! "token" = Some storedToken
     /\ ls !! "user" = Some storedUser
     /\ (forall parsedUser,
           JSON_parse storedUser = Some parsedUser ->
           rehydrate ls
           = (ls,
              {| user := parsedUser; token := JStr storedToken; isLoading := false |},
              [], Normal tt))
     /\ (JSON_parse storedUser = None ->
         exists effects,
           rehydrate ls
           = (delete "token" (delete "user" ls),
              {| user := JNull; token := JNull; isLoading := false |},
              effects, Normal tt)
           /\ forallb (fun e => negb (is_network e)) effects = true
           /\ delete "token" (delete "user" ls) !! "token" = None
           /\ delete "token" (delete "user" ls) !! "user" = None))
  /\ (truthy_item (ls !! "token") && truthy_item (ls !! "user") = false ->
      rehydrate ls
      = (ls, {| user := JNull; token := JNull; isLoading := false |}, [], Normal tt)).
Proof.
  split.
  - intros Htoken Huser.
    destruct (holds_entry ls "token" Htoken) as (t & Ht & Htruthy).
    destruct (holds_entry ls "user" Huser) as (u & Hu & Hutruthy).
    exists t, u. split; [exact Ht | ]. split; [exact Hu | ]. split.
    + intros parsedUser Hparse. unfold rehydrate, parse.
      rewrite Ht, Hu, Htruthy, Hutruthy, Hparse. reflexivity.
    + intros Hparse. eexists. unfold rehydrate, parse.
      rewrite Ht, Hu, Htruthy, Hutruthy, Hparse.
      split; [reflexivity | ]. split; [reflexivity | ]. split.
      * apply lookup_delete_eq.
      * rewrite lookup_delete_ne by discriminate. apply lookup_delete_eq.
  - unfold rehydrate.
    destruct (ls !! "token") as [t | ], (ls !! "user") as [u | ]; simpl;
      try reflexivity.
    intros Hguard. now rewrite Hguard.
Qed.

End WithEngine.

(** *** Closed examples *)

(** A parser that knows one document, the empty object. *)
Definition parse_empty_object (text : string) : option json :=
  if String.eqb text "{}" then Some (JObj []) else None.

Definition stored_session : Storage :=
  <["user" := "{}"]> (<["token" := "abc"]> ∅).

Definition corrupt_session : Storage :=
  <["user" := "{oops"]> (<["token" := "abc"]> ∅).

(** A user entry that is there, but empty. *)
Definition empty_user_session : Storage :=
  <["user" := EmptyString]> (<["token" := "abc"]> ∅).

Lemma rehydrate_session_witness :
  rehydrate parse_empty_object stored_session
  = (stored_session,
     {| user := JObj []; token := JStr "abc"; isLoading := false |},
     [], Normal tt)
  /\ fst (fst (fst (rehydrate parse_empty_object corrupt_session))) !! "token" = None.
Proof.
  split.
  - destruct (proj1 (rehydrate_session parse_empty_object stored_session)
                eq_refl eq_refl)
      as (t & u & Ht & Hu & Hrestore & _).
    injection Ht as <-. injection Hu as <-.
    exact (Hrestore (JObj []) eq_refl).
  - destruct (proj1 (rehydrate_session parse_empty_object corrupt_session)
                eq_refl eq_refl)
      as (t & u & Ht & Hu & _ & Hcorrupt).
    injection Hu as <-.
    destruct (Hcorrupt eq_refl) as (effects & Hrun & _ & Hgone & _).
    rewrite Hrun. exact Hgone.
Defined.

(** An empty user entry is an entry that does not parse, yet it is not
    taken for a stored session: nothing is parsed and nothing is removed,
    the token stays in local storage. *)
Lemma empty_user_entry_is_kept :
  empty_user_session !! "user" = Some EmptyString
  /\ parse_empty_object EmptyString = None
  /\ rehydrate parse_empty_object empty_user_session
     = (empty_user_session,
        {| user := JNull; token := JNull; isLoading := false |}, [], Normal tt)
  /\ empty_user_session !! "token" = Some "abc"
  /\ ~ claimed_rehydration parse_empty_object.
Proof.
  split; [reflexivity | ]. split; [reflexivity | ]. split; [reflexivity | ].
  split; [reflexivity | ].
  intros Hclaim.
  specialize (Hclaim empty_user_session "abc" EmptyString eq_refl eq_refl).
  cbv beta iota zeta delta [rehydrate] in Hclaim.
  change (empty_user_session !! "token") with (Some "abc") in Hclaim.
  change (empty_user_session !! "user") with (Some EmptyString) in Hclaim.
  cbn in Hclaim. destruct Hclaim as (_ & Hremoved).
  destruct (Hremoved eq_refl) as (Habs & _).
  change (empty_user_session !! "token") with (Some "abc") in Habs.
  discriminate Habs.
Qed.

End AuthContext.


(* ===================================================================== *)
(** ** components/FileUpload: file intake                                 *)
(* ===================================================================== *)

Module FileUpload.

(** The props besides the callback [onFileSelect] (an effect below). *)
Record Props : Type := mkProps {
  accept : string;
  maxSize : N
}.

(** The defaults of the destructured parameter:
    [accept = 'audio/*', maxSize = 50 * 1024 * 1024]. *)
Definition default_props : Props :=
  {| accept := "audio/*"; maxSize := 50 * 1024 * 1024 |}.

Record State : Type := mkState { isDragging : bool }.

Inductive effect : Type :=
| PreventDefault
| OnFileSelect (file : File)
| Alert (text : string).

Definition too_large : string := "File is too large. Maximum size is 50MB.".

(** [file.type.startsWith('audio/')]. *)
Definition is_audio (file : File) : bool := String.prefix "audio/" (file_type file).

(** The size test shared by both handlers. *)
Definition select_if_small (props : Props) (file : File) : list effect :=
  if (file_size file <=? maxSize props)%N then [OnFileSelect file]
  else [Alert too_large].

(** [handleDrop]: [files] is [e.dataTransfer.files]. *)
Definition handleDrop (props : Props) (st : State) (files : list File)
    : State * list effect :=
  ({| isDragging := false |},
   PreventDefault ::
   match files with
   | file :: _ => if is_audio file then select_if_small props file else []
   | [] => []
   end).

(** [handleFileInput]: [files] is [e.target.files], possibly [null]. *)
Definition handleFileInput (props : Props) (st : State) (files : option (list File))
    : State * list effect :=
  (st,
   match files with
   | Some (file :: _) => select_if_small props file
   | _ => []
   end).

(** The two ways a file reaches the component. *)
Inductive Offer : Type :=
| Dropped (files : list File)
| Picked (files : option (list File)).

Definition handle (props : Props) (st : State) (o : Offer) : State * list effect :=
  match o with
  | Dropped files => handleDrop props st files
  | Picked files => handleFileInput props st files
  end.

(** The file a handler looks at: the first of the list. *)
Definition offered (o : Offer) : option File :=
  match o with
  | Dropped files | Picked (Some files) => head files
  | Picked None => None
  end.

Definition selected (file : File) (effects : list effect) : Prop :=
  In (OnFileSelect file) effects.

Definition alerted (effects : list effect) : Prop :=
  exists text, In (Alert text) effects.

(** *** The accepted set

    The [accept] prop only reaches the [accept] attribute of the [<input>];
    the attribute is a comma-separated list of MIME types, where [type/*]
    stands for every subtype. *)

Fixpoint accept_tokens (current : string) (rest : string) : list string :=
  match rest with
  | EmptyString => [current]
  | String c rest' =>
      if Ascii.eqb c "," then current :: accept_tokens "" rest'
      else if Ascii.eqb c " " then accept_tokens current rest'
      else accept_tokens (current +:+ String c EmptyString) rest'
  end.

(** [Some "type/"] for the token [type/*]. *)
Fixpoint wildcard_prefix (tok : string) : option string :=
  match tok with
  | EmptyString => None
  | String "/" (String "*" EmptyString) => Some "/"
  | String c rest => option_map (String c) (wildcard_prefix rest)
  end.

Definition token_matches (type tok : string) : bool :=
  match wildcard_prefix tok with
  | Some pre => String.prefix pre type
  | None => String.eqb tok type
  end.

Definition accepts (accepted type : string) : bool :=
  existsb (token_matches type) (accept_tokens "" accepted).

(** The contract as the specification words it: the callback only for a
    file within the ceiling and of an accepted type, and a visible message
    without the callback for any other file. *)
Definition claimed_intake_contract : Prop :=
  forall props st o file,
    offered o = Some file ->
    let effects := snd (handle props st o) in
    (selected file effects ->
       (file_size file <= maxSize props)%N /\ accepts (accept props) (file_type file) = true)
    /\ ((maxSize props < file_size file)%N \/ accepts (accept props) (file_type file) = false ->
        alerted effects /\ ~ selected file effects).

(** *** Facts about the two handlers *)

Lemma select_if_small_selected props file g :
  In (OnFileSelect g) (select_if_small props file) <->
  g = file /\ (file_size file <= maxSize props)%N.
Proof.
  unfold select_if_small.
  destruct (N.leb_spec (file_size file) (maxSize props)) as [Hle | Hlt]; simpl.
  - split.
    + intros [Heq | []]. injection Heq as ->. now split.
    + intros [-> _]. now left.
  - split.
    + intros [Heq | []]. discriminate.
    + intros [_ Hle]. lia.
Qed.

Lemma select_if_small_alerted props file :
  alerted (select_if_small props file) <-> (maxSize props < file_size file)%N.
Proof.
  unfold alerted, select_if_small.
  destruct (N.leb_spec (file_size file) (maxSize props)) as [Hle | Hlt]; simpl.
  - split.
    + intros (text & [Heq | []]). discriminate.
    + lia.
  - split; [trivial | ]. intros _. exists too_large. now left.
Qed.

(** The offer reduced to its first file. *)
Definition first_only (o : Offer) : Offer :=
  match o with
  | Dropped files => Dropped (firstn 1 files)
  | Picked (Some files) => Picked (Some (firstn 1 files))
  | Picked None => Picked None
  end.

(** C5, as the code has it. The component looks at the first file of an
    offer and at no other: what it does is what it would do had that file
    been offered alone, the callback receives no other file, and the only
    message there is concerns the size of that file. For that first file:
    the callback [onFileSelect] is invoked only if the declared size is at
    most the ceiling, and for a dropped file only if in addition the
    declared type starts with "audio/"; a file above the ceiling never
    reaches the callback, and it is answered with an alert when it was
    picked or when it was dropped with such a type; a dropped file of
    another declared type is ignored, with neither callback nor message. *)
Theorem intake_contract props st o file :
  offered o = Some file ->
  let effects := snd (handle props st o) in
  (selected file effects -> (file_size file <= maxSize props)%N)
  /\ (forall files, o = Dropped files -> selected file effects -> is_audio file = true)
  /\ ((maxSize props < file_size file)%N -> ~ selected file effects)
  /\ ((maxSize props < file_size file)%N ->
      (exists files, o = Picked files) \/ is_audio file = true ->
      alerted effects)
  /\ (forall files, o = Dropped files -> is_audio file = false ->
      effects = [PreventDefault])
  /\ effects = snd (handle props st (first_only o))
  /\ (forall other, selected other effects -> other = file)
  /\ (alerted effects -> (maxSize props < file_size file)%N).
Proof.
  intros Hoffered effects. subst effects. unfold selected.
  destruct o as [files | [files | ]]; simpl in Hoffered; try discriminate;
    destruct files as [ | first rest]; simpl in Hoffered; try discriminate;
    injection Hoffered as ->; simpl.
  - (* dropped *)
    destruct (is_audio file) eqn:Haudio.
    + repeat split.
      * intros [Habs | Hin]; [discriminate | ].
        now apply select_if_small_selected in Hin.
      * intros Hlt [Habs | Hin]; [discriminate | ].
        apply select_if_small_selected in Hin. lia.
      * intros Hlt _. apply select_if_small_alerted in Hlt.
        destruct Hlt as (text & Hin). exists text. now right.
      * intros files _ Habs. discriminate.
      * intros other [Habs | Hin]; [discriminate | ].
        now apply select_if_small_selected in Hin.
      * intros (text & [Habs | Hin]); [discriminate | ].
        apply select_if_small_alerted. now exists text.
    + repeat split.
      * intros [Habs | []]. discriminate.
      * intros files _ [Habs | []]. discriminate.
      * intros _ [Habs | []]. discriminate.
      * intros Hlt [(files & Habs) | Habs]; discriminate.
      * intros other [Habs | []]. discriminate.
      * intros (text & [Habs | []]). discriminate.
  - (* picked *)
    repeat split.
    + intros Hin. now apply select_if_small_selected in Hin.
    + intros files Habs. discriminate.
    + intros Hlt Hin. apply select_if_small_selected in Hin. lia.
    + intros Hlt _. now apply select_if_small_alerted.
    + intros files Habs. discriminate.
    + intros other Hin. now apply select_if_small_selected in Hin.
    + apply select_if_small_alerted.
Qed.

(** *** Closed examples *)

Definition song : File :=
  {| file_name := "song.mp3"; file_type := "audio/mpeg"; file_size := 4000000 |}.

Definition long_song : File :=
  {| file_name := "concert.wav"; file_type := "audio/wav"; file_size := 60000000 |}.

Definition leaflet : File :=
  {| file_name := "leaflet.pdf"; file_type := "application/pdf"; file_size := 1000 |}.

Definition idle : State := {| isDragging := false |}.

Lemma intake_contract_witness :
  (selected song (snd (handle default_props idle (Dropped [song]))) ->
   (file_size song <= maxSize default_props)%N)
  /\ alerted (snd (handle default_props idle (Picked (Some [long_song])))).
Proof.
  split.
  - apply (intake_contract default_props idle (Dropped [song]) song). reflexivity.
  - apply (intake_contract default_props idle (Picked (Some [long_song])) long_song).
    + reflexivity.
    + reflexivity.
    + left. now exists (Some [long_song]).
Defined.

Example accepts_audio_wildcard :
  accepts "audio/*" "audio/mpeg" = true
  /\ accepts "audio/*" "application/pdf" = false
  /\ accepts "audio/wav,audio/mpeg" "audio/mpeg" = true
  /\ accepts "audio/wav,audio/mpeg" "audio/aac" = false.
Proof. repeat split. Qed.

(** A dropped file that is not audio is dropped silently: there is no
    message, so the contract as worded does not hold. *)
Lemma intake_contract_as_worded_fails : ~ claimed_intake_contract.
Proof.
  intros Hclaim.
  destruct (Hclaim default_props idle (Dropped [leaflet]) leaflet eq_refl)
    as (_ & Hreject).
  destruct Hreject as ((text & Hin) & _).
  - right. reflexivity.
  - simpl in Hin. destruct Hin as [Habs | []]. discriminate.
Qed.

(** A second file of an offer is not looked at: dropped behind a good
    file, a file above the ceiling gets no message. *)
Example second_file_is_ignored :
  snd (handle default_props idle (Dropped [song; long_song]))
  = [PreventDefault; OnFileSelect song]
  /\ (maxSize default_props < file_size long_song)%N.
Proof. split; reflexivity. Qed.

(** The picker applies no type test of its own: a small file of any
    declared type reaches the callback. *)
Example picked_leaflet_is_selected :
  snd (handle default_props idle (Picked (Some [leaflet]))) = [OnFileSelect leaflet]
  /\ is_audio leaflet = false
  /\ accepts (accept default_props) (file_type leaflet) = false.
Proof. repeat split. Qed.

(** The drop handler tests the prefix "audio/", not the [accept] prop. *)
Example dropped_outside_accept_is_selected :
  let props := {| accept := "audio/wav,audio/mpeg"; maxSize := 50 * 1024 * 1024 |} in
  let aac := {| file_name := "take.aac"; file_type := "audio/aac"; file_size := 1000 |} in
  snd (handle props idle (Dropped [aac])) = [PreventDefault; OnFileSelect aac]
  /\ accepts (accept props) (file_type aac) = false.
Proof. repeat split. Qed.

End FileUpload.


(* ===================================================================== *)
(** ** components/WaveformPlayer: the waveform and its region             *)
(* ===================================================================== *)

Module WaveformPlayer.

(** The props. [onRegionUpdate] is optional: the field says whether the
    parent passed one; calling it is the effect [OnRegionUpdate]. *)
Record Props : Type := mkProps {
  audioUrl : string;
  onRegionUpdate : bool;
  enableRegionSelect : bool;
  fixedDuration : option float
}.

Record State : Type := mkState {
  isPlaying : bool;
  isReady : bool
}.

Definition initial : State := {| isPlaying := false; isReady := false |}.

(** The argument of [regions.addRegion]. *)
Record RegionParams : Type := mkRegion {
  region_start : float;
  region_end : float;
  region_color : string;
  region_drag : bool;
  region_resize : bool
}.

(** What the waveform library tells the component, and what the user
    clicks. A [RegionUpdated] carries [region.start] and [region.end]. *)
Inductive event : Type :=
| Ready (duration : float)
| RegionUpdated (start end_ : float)
| Play
| Pause
| Finish
| ClickPlayPause
| ClickReset.

Inductive effect : Type :=
| AddRegion (params : RegionParams)
| OnRegionUpdate (start end_ : float)
| PlayPause
| SeekTo (progress : float)
| PausePlayback.

(** [onRegionUpdate?.(start, end)]. *)
Definition report (props : Props) (start end_ : float) : list effect :=
  if onRegionUpdate props then [OnRegionUpdate start end_] else [].

(** [fixedDuration ? ... : ...]: [undefined], [0] and [NaN] are falsy. *)
Definition fixed_requested (props : Props) : bool :=
  match fixedDuration props with
  | Some f => truthy_num f
  | None => false
  end.

(** [fixedDuration || Math.min(60, duration)]. *)
Definition regionDuration (props : Props) (duration : float) : float :=
  match fixedDuration props with
  | Some f => if truthy_num f then f else Math_min 60 duration
  | None => Math_min 60 duration
  end.

(** [Math.min(regionDuration, duration)]. *)
Definition defaultEnd (props : Props) (duration : float) : float :=
  Math_min (regionDuration props duration) duration.

(** The region the first ['ready'] listener adds. *)
Definition seeded_region (props : Props) (duration : float) : RegionParams :=
  {| region_start := 0;
     region_end := defaultEnd props duration;
     region_color := "hsla(180, 75%, 55%, 0.2)";
     region_drag := true;
     region_resize := if fixed_requested props then false else true |}.

(** The listeners registered by the mount effect, run on one event. The
    two region listeners exist only with [enableRegionSelect]. *)
Definition handle (props : Props) (st : State) (ev : event) : State * list effect :=
  match ev with
  | Ready duration =>
      ({| isPlaying := isPlaying st; isReady := true |},
       if enableRegionSelect props then
         AddRegion (seeded_region props duration)
           :: report props 0 (defaultEnd props duration)
       else [])
  | RegionUpdated start end_ =>
      (st, if enableRegionSelect props then report props start end_ else [])
  | Play => ({| isPlaying := true; isReady := isReady st |}, [])
  | Pause | Finish => ({| isPlaying := false; isReady := isReady st |}, [])
  | ClickPlayPause => (st, [PlayPause])
  | ClickReset => (st, [SeekTo 0; PausePlayback])
  end.

(** Running a sequence of events from a state, collecting the effects. *)
Fixpoint run (props : Props) (st : State) (events : list event) : State * list effect :=
  match events with
  | [] => (st, [])
  | ev :: rest =>
      let '(st1, out1) := handle props st ev in
      let '(st2, out2) := run props st1 rest in
      (st2, out1 ++ out2)
  end.

(** The end of the seeded interval as the specification words it: the
    fixed duration when one is given, otherwise [min(60, duration)]. *)
Definition claimed_seed_end (props : Props) (duration : float) : float :=
  match fixedDuration props with
  | Some f => f
  | None => Math_min 60 duration
  end.

(** *** Facts *)

Lemma defaultEnd_fixed props duration f :
  fixedDuration props = Some f -> truthy_num f = true ->
  defaultEnd props duration = Math_min f duration.
Proof.
  intros Hfixed Htruthy. unfold defaultEnd, regionDuration.
  now rewrite Hfixed, Htruthy.
Qed.

Lemma defaultEnd_free props duration :
  fixed_requested props = false ->
  defaultEnd props duration = Math_min 60 duration.
Proof.
  intros Hfree. unfold defaultEnd, regionDuration. unfold fixed_requested in Hfree.
  destruct (fixedDuration props) as [f | ]; [rewrite Hfree | ];
    now apply Math_min_absorb.
Qed.

(** With a fixed duration the region is created movable but not
    resizable; without one it is both. *)
Lemma seeded_region_handles props duration :
  region_drag (seeded_region props duration) = true
  /\ region_resize (seeded_region props duration) = negb (fixed_requested props).
Proof. unfold seeded_region. simpl. now destruct (fixed_requested props). Qed.

(** A region update of the library is passed on as it came. *)
Lemma region_update_forwarded props st start end_ :
  enableRegionSelect props = true -> onRegionUpdate props = true ->
  handle props st (RegionUpdated start end_) = (st, [OnRegionUpdate start end_]).
Proof. intros Henabled Hcallback. simpl. unfold report. now rewrite Henabled, Hcallback. Qed.

(** The reports that follow the seeding are the library's updates, one
    for one and unchanged: the component computes nothing of its own. *)
Fixpoint updates_of (events : list event) : list effect :=
  match events with
  | [] => []
  | RegionUpdated start end_ :: rest => OnRegionUpdate start end_ :: updates_of rest
  | _ :: rest => updates_of rest
  end.

Fixpoint reports_of (effects : list effect) : list effect :=
  match effects with
  | [] => []
  | OnRegionUpdate start end_ :: rest => OnRegionUpdate start end_ :: reports_of rest
  | _ :: rest => reports_of rest
  end.

Lemma reports_of_app (l1 l2 : list effect) :
  reports_of (l1 ++ l2) = reports_of l1 ++ reports_of l2.
Proof.
  induction l1 as [ | e l1 IH]; [reflexivity | ].
  destruct e; simpl; now rewrite IH.
Qed.

Lemma reports_are_library_updates props events : forall st,
  enableRegionSelect props = true -> onRegionUpdate props = true ->
  Forall (fun ev => match ev with Ready _ => False | _ => True end) events ->
  reports_of (snd (run props st events)) = updates_of events.
Proof.
  induction events as [ | ev events IH]; intros st Henabled Hcallback Hall;
    [reflexivity | ].
  inversion Hall as [ | ? ? Hev Hrest]; subst.
  specialize (IH (fst (handle props st ev)) Henabled Hcallback Hrest).
  cbn [run]. destruct (handle props st ev) as [st1 out1] eqn:Hstep.
  cbn [fst] in IH.
  destruct (run props st1 events) as [st2 out2]. cbn [snd] in *.
  rewrite reports_of_app, IH.
  destruct ev; simpl in Hstep; try contradiction;
    unfold report in Hstep; rewrite ?Henabled, ?Hcallback in Hstep;
    injection Hstep as <- <-; reflexivity.
Qed.

(** C7, as the code has it. When the player becomes ready with region
    selection enabled, it adds a region that starts at 0 and ends at
    [min(fixed duration, track duration)] when a fixed duration is
    requested, and at [min(60, track duration)] otherwise; and, before
    anything else happens, it reports that pair through [onRegionUpdate]. *)
Theorem ready_seeds_region props st duration :
  enableRegionSelect props = true ->
  onRegionUpdate props = true ->
  handle props st (Ready duration)
  = ({| isPlaying := isPlaying st; isReady := true |},
     [AddRegion (seeded_region props duration);
      OnRegionUpdate 0 (defaultEnd props duration)])
  /\ region_start (seeded_region props duration) = 0%float
  /\ region_end (seeded_region props duration) = defaultEnd props duration
  /\ (forall f, fixedDuration props = Some f -> truthy_num f = true ->
      defaultEnd props duration = Math_min f duration)
  /\ (fixed_requested props = false ->
      defaultEnd props duration = Math_min 60 duration).
Proof.
  intros Henabled Hcallback.
  split; [ | split; [reflexivity | split; [reflexivity | split] ] ].
  - simpl. unfold report. now rewrite Henabled, Hcallback.
  - intros f Hfixed Htruthy. now apply defaultEnd_fixed.
  - apply defaultEnd_free.
Qed.

(** *** Closed examples *)

(** The home page's player, with the 30 second button chosen. *)
Definition thirty_seconds : Props :=
  {| audioUrl := "blob:song";
     onRegionUpdate := true;
     enableRegionSelect := true;
     fixedDuration := Some 30%float |}.

Lemma ready_seeds_region_witness :
  snd (handle thirty_seconds initial (Ready 200))
  = [AddRegion (seeded_region thirty_seconds 200); OnRegionUpdate 0 30]
  /\ defaultEnd thirty_seconds 200 = Math_min 30 200.
Proof.
  destruct (ready_seeds_region thirty_seconds initial 200 eq_refl eq_refl)
    as (Hrun & _ & _ & Hfixed & _).
  split.
  - rewrite Hrun. reflexivity.
  - exact (Hfixed 30%float eq_refl eq_refl).
Defined.

(** Moving both ends of the interval 0..15 by the same 1.1 seconds changes
    the computed length in its last place: in binary64 the length of a
    moved interval is constant only up to rounding. What a drag does to the
    two ends is decided inside the waveform library; the component only
    passes the result on ([reports_are_library_updates]). *)
Example moved_interval_length :
  let shift := 0x1.199999999999ap+0%float in
  PrimFloat.eqb ((15 + shift) - (0 + shift)) 15 = false
  /\ PrimFloat.leb (PrimFloat.abs (((15 + shift) - (0 + shift)) - 15))
                   one_tenth = true.
Proof. split; reflexivity. Qed.

(** The seeding as the specification words it. *)
Definition claimed_seeding : Prop :=
  forall props st duration,
    enableRegionSelect props = true -> onRegionUpdate props = true ->
    In (OnRegionUpdate 0 (claimed_seed_end props duration))
       (snd (handle props st (Ready duration))).

(** A track of 20 seconds with a fixed duration of 30: the seeded interval
    ends at 20, not at the fixed duration. *)
Lemma short_track_is_clamped :
  snd (handle thirty_seconds initial (Ready 20))
  = [AddRegion {| region_start := 0; region_end := 20;
                  region_color := "hsla(180, 75%, 55%, 0.2)";
                  region_drag := true; region_resize := false |};
     OnRegionUpdate 0 20]
  /\ claimed_seed_end thirty_seconds 20 = 30%float
  /\ ~ claimed_seeding.
Proof.
  split; [reflexivity | split; [reflexivity | ] ].
  intros Hclaim.
  specialize (Hclaim thirty_seconds initial 20%float eq_refl eq_refl).
  change (In (OnRegionUpdate 0 (claimed_seed_end thirty_seconds 20))
             [AddRegion (seeded_region thirty_seconds 20);
              OnRegionUpdate 0 (defaultEnd thirty_seconds 20)]) in Hclaim.
  destruct Hclaim as [Habs | [Heq | []]]; [discriminate | ].
  apply (f_equal (fun e => match e with
                           | OnRegionUpdate _ end_ => PrimFloat.eqb end_ 20
                           | _ => false
                           end)) in Heq.
  vm_compute in Heq. discriminate.
Qed.

(** *** Dragging a region of fixed length *)

(** Modelled from the spec: what a drag does to a region is computed by
    the waveform library (its regions plugin), which is not part of the
    sources; the specification describes it as a translation, "only
    translation (drag) is possible". A drag by [shift] moves both ends by
    that amount, in the arithmetic of the language. *)
Definition drag (shift : float) (region : float * float) : float * float :=
  (fst region + shift, snd region + shift)%float.

(** The updates the library delivers for a sequence of drags that starts
    from [region]. *)
Fixpoint drags (region : float * float) (shifts : list float) : list event :=
  match shifts with
  | [] => []
  | shift :: rest =>
      let moved := drag shift region in
      RegionUpdated (fst moved) (snd moved) :: drags moved rest
  end.

(** The invariant as the specification words it: with a fixed duration,
    after any sequence of drags every reported interval has the length of
    the seeded one. *)
Definition claimed_constant_length : Prop :=
  forall props st duration shifts,
    enableRegionSelect props = true -> onRegionUpdate props = true ->
    fixed_requested props = true ->
    forall start end_,
      In (OnRegionUpdate start end_)
         (snd (run props st
                 (Ready duration :: drags (0%float, defaultEnd props duration) shifts))) ->
      (end_ - start)%float = (defaultEnd props duration - 0)%float.

Lemma updates_of_in events start end_ :
  In (OnRegionUpdate start end_) (updates_of events) ->
  In (RegionUpdated start end_) events.
Proof.
  induction events as [ | ev events IH]; [intros [ ] | ].
  destruct ev; cbn [updates_of]; try (intros Hin; right; now apply IH).
  intros [Heq | Hin]; [left | right; now apply IH].
  now injection Heq as -> ->.
Qed.

Lemma reports_of_in effects start end_ :
  In (OnRegionUpdate start end_) effects ->
  In (OnRegionUpdate start end_) (reports_of effects).
Proof.
  induction effects as [ | e effects IH]; [intros [ ] | ].
  intros [-> | Hin]; [now left | ].
  destruct e; cbn [reports_of]; try (now apply IH). right. now apply IH.
Qed.

Lemma run_ready props st duration events :
  run props st (Ready duration :: events)
  = (fst (run props {| isPlaying := isPlaying st; isReady := true |} events),
     snd (handle props st (Ready duration))
       ++ snd (run props {| isPlaying := isPlaying st; isReady := true |} events)).
Proof.
  cbn [run handle fst snd].
  now destruct (run props {| isPlaying := isPlaying st; isReady := true |} events).
Qed.

(** C6, as the code has it. Whenever a fixed duration is requested, the
    region is created with resizing disabled and dragging enabled, and
    from then on the component computes no interval of its own: after the
    seeded interval, what it reports is what the library delivers, update
    for update and unchanged. The reported length [end - start] is
    therefore constant whenever the library's updates keep it constant;
    the component neither restores nor alters it. *)
Theorem fixed_region_is_only_movable props st duration events :
  enableRegionSelect props = true ->
  onRegionUpdate props = true ->
  fixed_requested props = true ->
  Forall (fun ev => match ev with Ready _ => False | _ => True end) events ->
  region_drag (seeded_region props duration) = true
  /\ region_resize (seeded_region props duration) = false
  /\ reports_of (snd (run props st (Ready duration :: events)))
     = OnRegionUpdate 0 (defaultEnd props duration) :: updates_of events
  /\ (forall length,
        (defaultEnd props duration - 0)%float = length ->
        (forall start end_,
            In (RegionUpdated start end_) events -> (end_ - start)%float = length) ->
        forall start end_,
          In (OnRegionUpdate start end_)
             (snd (run props st (Ready duration :: events))) ->
          (end_ - start)%float = length).
Proof.
  intros Henabled Hcallback Hfixed Hevents.
  assert (Hreports :
    reports_of (snd (run props st (Ready duration :: events)))
    = OnRegionUpdate 0 (defaultEnd props duration) :: updates_of events).
  { rewrite run_ready. cbn [snd]. rewrite reports_of_app.
    rewrite (reports_are_library_updates props events _ Henabled Hcallback Hevents).
    cbn [handle snd]. unfold report. now rewrite Henabled, Hcallback. }
  split; [reflexivity | ].
  split; [unfold seeded_region; cbn [region_resize]; now rewrite Hfixed | ].
  split; [exact Hreports | ].
  intros length Hseeded Hkept start end_ Hin.
  apply reports_of_in in Hin. rewrite Hreports in Hin.
  destruct Hin as [Heq | Hin].
  - injection Heq as <- <-. exact Hseeded.
  - apply Hkept. now apply updates_of_in.
Qed.

(** The 15 second button of the home page. *)
Definition fifteen_seconds : Props :=
  {| audioUrl := "blob:song";
     onRegionUpdate := true;
     enableRegionSelect := true;
     fixedDuration := Some 15%float |}.

Lemma fixed_region_is_only_movable_witness :
  region_resize (seeded_region fifteen_seconds 200) = false
  /\ reports_of (snd (run fifteen_seconds initial [Ready 200; RegionUpdated 5 20]))
     = [OnRegionUpdate 0 15; OnRegionUpdate 5 20].
Proof.
  destruct (fixed_region_is_only_movable fifteen_seconds initial 200
              [RegionUpdated 5 20] eq_refl eq_refl eq_refl)
    as (_ & Hresize & Hreports & _).
  - constructor; [exact I | constructor].
  - split; [exact Hresize | exact Hreports].
Defined.

(** One drag by 1.1 seconds of the region seeded for 15 seconds: the
    library's translation, computed in binary64, reports an interval whose
    length is not 15. *)
Lemma dragged_length_drifts :
  snd (run fifteen_seconds initial
         (Ready 200 :: drags (0%float, defaultEnd fifteen_seconds 200)
                         [0x1.199999999999ap+0%float]))
  = [AddRegion (seeded_region fifteen_seconds 200);
     OnRegionUpdate 0 15;
     OnRegionUpdate 0x1.199999999999ap+0 (15 + 0x1.199999999999ap+0)]
  /\ PrimFloat.eqb ((15 + 0x1.199999999999ap+0) - 0x1.199999999999ap+0) 15 = false
  /\ ~ claimed_constant_length.
Proof.
  split; [reflexivity | split; [reflexivity | ] ].
  intros Hclaim.
  specialize (Hclaim fifteen_seconds initial 200%float
                [0x1.199999999999ap+0%float] eq_refl eq_refl eq_refl
                0x1.199999999999ap+0%float (15 + 0x1.199999999999ap+0)%float).
  assert (Hlength : PrimFloat.eqb
                      ((15 + 0x1.199999999999ap+0) - 0x1.199999999999ap+0)
                      (defaultEnd fifteen_seconds 200 - 0) = true).
  { rewrite Hclaim; [reflexivity | ]. right. right. left. reflexivity. }
  vm_compute in Hlength. discriminate Hlength.
Qed.

End WaveformPlayer.


(* ===================================================================== *)
(** ** components/AudioRecorder: the capture device                       *)
(* ===================================================================== *)

Module AudioRecorder.

(** A track of a microphone stream, by its id. *)
Definition Track : Type := nat.

(** The component: its four state variables, its four refs, and the
    [MediaRecorder] objects it has created so far, each with the tracks of
    the stream its [onstop] closure captured. [mediaRecorderRef],
    [timerRef] and [audioRef] hold an index or id; [chunksRef] is the one
    array all [ondataavailable] handlers push to. *)
Record State : Type := mkState {
  isRecording : bool;
  recordedBlob : option Blob;
  isPlaying : bool;
  recordingTime : N;
  mediaRecorderRef : option nat;
  chunksRef : list Blob;
  timerRef : option nat;
  audioRef : option nat;
  recorders : list (list Track);
  timers : nat;
  audios : nat
}.

Definition initial : State :=
  {| isRecording := false; recordedBlob := None; isPlaying := false;
     recordingTime := 0; mediaRecorderRef := None; chunksRef := [];
     timerRef := None; audioRef := None; recorders := []; timers := 0;
     audios := 0 |}.

(** How [getUserMedia] and the [MediaRecorder] constructor answer. *)
Inductive MicAnswer : Type :=
| Denied
| RecorderUnavailable (tracks : list Track)
| Granted (tracks : list Track).

(** Clicks, and the callbacks the platform invokes: the interval tick, the
    two events of recorder [rid], the end of playback. *)
Inductive event : Type :=
| ClickStart (answer : MicAnswer)
| ClickStop
| Tick
| DataAvailable (rid : nat) (data : Blob)
| Stopped (rid : nat)
| ClickPlay
| AudioEnded
| ClickReset.

Inductive effect : Type :=
| GetUserMedia
| NewMediaRecorder (rid : nat)
| RecorderStart (rid : nat)
| RecorderStop (rid : nat)
| SetInterval (tid : nat)
| ClearInterval (tid : nat)
| ToastSuccess (text : string)
| ToastError (text : string)
| ConsoleError
| OnRecordingComplete (blob : Blob)
| TrackStop (track : Track)
| AudioPlay (aid : nat) (source : Blob)
| AudioPause (aid : nat).

(** [new Blob(chunks, { type })]. *)
Definition Blob_of (chunks : list Blob) (type : string) : Blob :=
  {| blob_data := concat (List.map blob_data chunks); blob_type := type |}.

(** [e.data.size > 0]. *)
Definition nonempty (b : Blob) : bool := (0 <? blob_size b)%N.

Definition startRecording (st : State) (answer : MicAnswer) : State * list effect :=
  let failed := (st, [GetUserMedia; ToastError "Failed to access microphone"; ConsoleError]) in
  match answer with
  | Denied => failed
  | RecorderUnavailable _ => failed
  | Granted tracks =>
      let rid := length (recorders st) in
      let tid := S (timers st) in
      ({| isRecording := true;
          recordedBlob := recordedBlob st;
          isPlaying := isPlaying st;
          recordingTime := 0;
          mediaRecorderRef := Some rid;
          chunksRef := [];
          timerRef := Some tid;
          audioRef := audioRef st;
          recorders := recorders st ++ [tracks];
          timers := tid;
          audios := audios st |},
       [GetUserMedia; NewMediaRecorder rid; RecorderStart rid; SetInterval tid;
        ToastSuccess "Recording started"])
  end.

Definition stopRecording (st : State) : State * list effect :=
  match mediaRecorderRef st with
  | Some rid =>
      if isRecording st then
        ({| isRecording := false;
            recordedBlob := recordedBlob st;
            isPlaying := isPlaying st;
            recordingTime := recordingTime st;
            mediaRecorderRef := mediaRecorderRef st;
            chunksRef := chunksRef st;
            timerRef := timerRef st;
            audioRef := audioRef st;
            recorders := recorders st;
            timers := timers st;
            audios := audios st |},
         RecorderStop rid
           :: match timerRef st with
              | Some tid => [ClearInterval tid]
              | None => []
              end
           ++ [ToastSuccess "Recording stopped"])
      else (st, [])
  | None => (st, [])
  end.

(** [setRecordingTime(prev => prev + 1)]. *)
Definition tick (st : State) : State * list effect :=
  ({| isRecording := isRecording st;
      recordedBlob := recordedBlob st;
      isPlaying := isPlaying st;
      recordingTime := recordingTime st + 1;
      mediaRecorderRef := mediaRecorderRef st;
      chunksRef := chunksRef st;
      timerRef := timerRef st;
      audioRef := audioRef st;
      recorders := recorders st;
      timers := timers st;
      audios := audios st |}, []).

(** [mediaRecorder.ondataavailable]. *)
Definition ondataavailable (st : State) (data : Blob) : State * list effect :=
  ({| isRecording := isRecording st;
      recordedBlob := recordedBlob st;
      isPlaying := isPlaying st;
      recordingTime := recordingTime st;
      mediaRecorderRef := mediaRecorderRef st;
      chunksRef := if nonempty data then chunksRef st ++ [data] else chunksRef st;
      timerRef := timerRef st;
      audioRef := audioRef st;
      recorders := recorders st;
      timers := timers st;
      audios := audios st |}, []).

(** [mediaRecorder.onstop] of the recorder built on [tracks]. *)
Definition onstop (st : State) (tracks : list Track) : State * list effect :=
  let blob := Blob_of (chunksRef st) "audio/webm" in
  ({| isRecording := isRecording st;
      recordedBlob := Some blob;
      isPlaying := isPlaying st;
      recordingTime := recordingTime st;
      mediaRecorderRef := mediaRecorderRef st;
      chunksRef := chunksRef st;
      timerRef := timerRef st;
      audioRef := audioRef st;
      recorders := recorders st;
      timers := timers st;
      audios := audios st |},
   OnRecordingComplete blob :: List.map TrackStop tracks).

Definition playRecording (st : State) : State * list effect :=
  match recordedBlob st, isPlaying st with
  | Some blob, false =>
      let aid := S (audios st) in
      ({| isRecording := isRecording st;
          recordedBlob := recordedBlob st;
          isPlaying := true;
          recordingTime := recordingTime st;
          mediaRecorderRef := mediaRecorderRef st;
          chunksRef := chunksRef st;
          timerRef := timerRef st;
          audioRef := Some aid;
          recorders := recorders st;
          timers := timers st;
          audios := aid |},
       [AudioPlay aid blob])
  | _, _ =>
      match audioRef st, isPlaying st with
      | Some aid, true =>
          ({| isRecording := isRecording st;
              recordedBlob := recordedBlob st;
              isPlaying := false;
              recordingTime := recordingTime st;
              mediaRecorderRef := mediaRecorderRef st;
              chunksRef := chunksRef st;
              timerRef := timerRef st;
              audioRef := audioRef st;
              recorders := recorders st;
              timers := timers st;
              audios := audios st |},
           [AudioPause aid])
      | _, _ => (st, [])
      end
  end.

(** [audio.onended]. *)
Definition onended (st : State) : State * list effect :=
  ({| isRecording := isRecording st;
      recordedBlob := recordedBlob st;
      isPlaying := false;
      recordingTime := recordingTime st;
      mediaRecorderRef := mediaRecorderRef st;
      chunksRef := chunksRef st;
      timerRef := timerRef st;
      audioRef := audioRef st;
      recorders := recorders st;
      timers := timers st;
      audios := audios st |}, []).

Definition resetRecording (st : State) : State * list effect :=
  ({| isRecording := isRecording st;
      recordedBlob := None;
      isPlaying := false;
      recordingTime := 0;
      mediaRecorderRef := mediaRecorderRef st;
      chunksRef := chunksRef st;
      timerRef := timerRef st;
      audioRef := None;
      recorders := recorders st;
      timers := timers st;
      audios := audios st |},
   match audioRef st with
   | Some aid => [AudioPause aid]
   | None => []
   end).

Definition handle (st : State) (ev : event) : State * list effect :=
  match ev with
  | ClickStart answer => startRecording st answer
  | ClickStop => stopRecording st
  | Tick => tick st
  | DataAvailable rid data =>
      match nth_error (recorders st) rid with
      | Some _ => ondataavailable st data
      | None => (st, [])
      end
  | Stopped rid =>
      match nth_error (recorders st) rid with
      | Some tracks => onstop st tracks
      | None => (st, [])
      end
  | ClickPlay => playRecording st
  | AudioEnded => onended st
  | ClickReset => resetRecording st
  end.

Fixpoint run (st : State) (events : list event) : State * list effect :=
  match events with
  | [] => (st, [])
  | ev :: rest =>
      let '(st1, out1) := handle st ev in
      let '(st2, out2) := run st1 rest in
      (st2, out1 ++ out2)
  end.

(** *** The platform's side of a take

    While recorder [rid] records, the platform delivers chunks to it and
    fires the interval; once [stop()] has been called on it, it delivers
    the data gathered last and then fires [stop], once (MediaStream
    Recording, the stop algorithm). *)

Inductive activity : Type :=
| Chunk (data : Blob)
| Second.

Definition during (rid : nat) (a : activity) : event :=
  match a with
  | Chunk data => DataAvailable rid data
  | Second => Tick
  end.

Definition after_stop (rid : nat) (final : Blob) : list event :=
  [DataAvailable rid final; Stopped rid].

(** One take: start, the activity of the recorder that the start creates,
    stop. In state [st] that recorder is number [length (recorders st)]. *)
Definition take (st : State) (tracks : list Track) (acts : list activity)
    (final : Blob) : list event :=
  let rid := length (recorders st) in
  ClickStart (Granted tracks)
    :: List.map (during rid) acts ++ ClickStop :: after_stop rid final.

Fixpoint chunks_of (acts : list activity) : list Blob :=
  match acts with
  | [] => []
  | Chunk data :: rest => data :: chunks_of rest
  | Second :: rest => chunks_of rest
  end.

Fixpoint seconds_of (acts : list activity) : N :=
  match acts with
  | [] => 0
  | Chunk _ :: rest => seconds_of rest
  | Second :: rest => 1 + seconds_of rest
  end.

(** The blobs handed to [onRecordingComplete], in order. *)
Fixpoint completions (effects : list effect) : list Blob :=
  match effects with
  | [] => []
  | OnRecordingComplete blob :: rest => blob :: completions rest
  | _ :: rest => completions rest
  end.

(** The tracks stopped, in order. *)
Fixpoint stopped_tracks (effects : list effect) : list Track :=
  match effects with
  | [] => []
  | TrackStop t :: rest => t :: stopped_tracks rest
  | _ :: rest => stopped_tracks rest
  end.

(** *** The platform in the loop

    What a [MediaRecorder] is doing, as the platform sees it: created,
    recording after [start()], stopping after [stop()] until the data
    gathered last has been delivered, flushed until its [stop] event has
    fired, and inactive from then on. *)
Inductive Status : Type := Created | Recording | Stopping | Flushed | Inactive.

(** The recorders by number, and the intervals that are set. *)
Record Platform : Type := mkPlatform {
  statuses : gmap nat Status;
  intervals : list nat
}.

Definition with_status (p : Platform) (rid : nat) (s : Status) : Platform :=
  {| statuses := <[rid := s]> (statuses p); intervals := intervals p |}.

(** What an effect of the component does to the platform. *)
Definition react (p : Platform) (e : effect) : Platform :=
  match e with
  | NewMediaRecorder rid => with_status p rid Created
  | RecorderStart rid => with_status p rid Recording
  | RecorderStop rid => with_status p rid Stopping
  | SetInterval tid => {| statuses := statuses p; intervals := tid :: intervals p |}
  | ClearInterval tid =>
      {| statuses := statuses p;
         intervals := List.filter (fun t => negb (Nat.eqb t tid)) (intervals p) |}
  | _ => p
  end.

(** The callbacks the platform can invoke: data from a recorder that
    records or is stopping, the [stop] event of a recorder whose last data
    is out, a tick while an interval is set. A [stop] event is never
    delivered for a recorder on which [stop()] was not called. Clicks (and
    the end of a playback) are not the recorder's business. *)
Definition delivers (p : Platform) (ev : event) : bool :=
  match ev with
  | DataAvailable rid _ =>
      match statuses p !! rid with
      | Some Recording | Some Stopping => true
      | _ => false
      end
  | Stopped rid =>
      match statuses p !! rid with
      | Some Flushed => true
      | _ => false
      end
  | Tick =>
      match intervals p with
      | [] => false
      | _ :: _ => true
      end
  | _ => true
  end.

(** What delivering a callback does to the platform. *)
Definition delivered (p : Platform) (ev : event) : Platform :=
  match ev with
  | DataAvailable rid _ =>
      match statuses p !! rid with
      | Some Stopping => with_status p rid Flushed
      | _ => p
      end
  | Stopped rid => with_status p rid Inactive
  | _ => p
  end.

(** The component and the platform together: [None] when an event of the
    sequence is one the platform cannot deliver at that point. *)
Fixpoint play (st : State) (p : Platform) (events : list event)
    : option (State * Platform * list effect) :=
  match events with
  | [] => Some (st, p, [])
  | ev :: rest =>
      if delivers p ev then
        let '(st1, out1) := handle st ev in
        match play st1 (fold_left react out1 (delivered p ev)) rest with
        | Some (st2, p2, out2) => Some (st2, p2, out1 ++ out2)
        | None => None
        end
      else None
  end.

(** *** Facts *)

Lemma run_app st l1 l2 :
  run st (l1 ++ l2)
  = (fst (run (fst (run st l1)) l2),
     snd (run st l1) ++ snd (run (fst (run st l1)) l2)).
Proof.
  revert st. induction l1 as [ | ev l1 IH]; intros st; simpl.
  - now destruct (run st l2).
  - destruct (handle st ev) as [st1 out1]. rewrite IH.
    destruct (run st1 l1) as [st2 out2]. simpl.
    destruct (run st2 l2) as [st3 out3]. simpl. now rewrite app_assoc.
Qed.

(** The state with its chunk array and its clock replaced. *)
Definition with_progress (st : State) (chunks : list Blob) (secs : N) : State :=
  {| isRecording := isRecording st;
     recordedBlob := recordedBlob st;
     isPlaying := isPlaying st;
     recordingTime := secs;
     mediaRecorderRef := mediaRecorderRef st;
     chunksRef := chunks;
     timerRef := timerRef st;
     audioRef := audioRef st;
     recorders := recorders st;
     timers := timers st;
     audios := audios st |}.

(** While recorder [rid] is active, chunks pile up in [chunksRef], the
    clock advances, and nothing reaches the outside. *)
Lemma run_during rid acts : forall st tracks,
  nth_error (recorders st) rid = Some tracks ->
  run st (List.map (during rid) acts)
  = (with_progress st (chunksRef st ++ List.filter nonempty (chunks_of acts))
       (recordingTime st + seconds_of acts), []).
Proof.
  induction acts as [ | [data | ] acts IH]; intros st tracks Hrec;
    cbn [run List.map during handle chunks_of seconds_of List.filter].
  - unfold with_progress. rewrite app_nil_r, N.add_0_r. now destruct st.
  - rewrite Hrec. unfold ondataavailable at 1.
    erewrite IH by (cbn [recorders]; eassumption). unfold with_progress.
    cbn [isRecording recordedBlob isPlaying recordingTime mediaRecorderRef
         chunksRef timerRef audioRef recorders timers audios app].
    destruct (nonempty data); now rewrite <- ?app_assoc.
  - unfold tick at 1.
    erewrite IH by (cbn [recorders]; eassumption). unfold with_progress.
    cbn [isRecording recordedBlob isPlaying recordingTime mediaRecorderRef
         chunksRef timerRef audioRef recorders timers audios app].
    now rewrite N.add_assoc.
Qed.

Lemma nth_error_snoc {A} (l : list A) (x : A) : nth_error (l ++ [x]) (length l) = Some x.
Proof. induction l as [ | y l IH]; simpl; auto. Qed.

Lemma completions_track_stops tracks : completions (List.map TrackStop tracks) = [].
Proof. induction tracks; simpl; auto. Qed.

Lemma stopped_tracks_track_stops tracks :
  stopped_tracks (List.map TrackStop tracks) = tracks.
Proof. induction tracks; simpl; congruence. Qed.

Lemma filter_snoc (chunks : list Blob) (final : Blob) :
  List.filter nonempty (chunks ++ [final])
  = if nonempty final then List.filter nonempty chunks ++ [final]
    else List.filter nonempty chunks.
Proof.
  rewrite List.filter_app. simpl.
  destruct (nonempty final); [reflexivity | apply app_nil_r].
Qed.

(** While recorder [rid] records and an interval is set, the platform can
    deliver any chunks and ticks; they change nothing on its side. *)
Lemma play_during rid acts : forall st p tracks,
  nth_error (recorders st) rid = Some tracks ->
  statuses p !! rid = Some Recording ->
  intervals p <> [] ->
  play st p (List.map (during rid) acts)
  = Some (with_progress st (chunksRef st ++ List.filter nonempty (chunks_of acts))
            (recordingTime st + seconds_of acts), p, []).
Proof.
  induction acts as [ | [data | ] acts IH]; intros st p tracks Hrec Hstatus Hticking;
    cbn [play List.map during handle chunks_of seconds_of List.filter delivers
         delivered].
  - unfold with_progress. rewrite app_nil_r, N.add_0_r. now destruct st.
  - rewrite Hstatus, Hrec. unfold ondataavailable at 1. cbn [fold_left].
    erewrite IH by (cbn [recorders]; eassumption). unfold with_progress.
    cbn [isRecording recordedBlob isPlaying recordingTime mediaRecorderRef
         chunksRef timerRef audioRef recorders timers audios app].
    destruct (nonempty data); now rewrite <- ?app_assoc.
  - destruct (intervals p) as [ | tid others] eqn:Hintervals; [congruence | ].
    unfold tick at 1. cbn [fold_left].
    erewrite IH by (cbn [recorders]; try eassumption; congruence).
    unfold with_progress.
    cbn [isRecording recordedBlob isPlaying recordingTime mediaRecorderRef
         chunksRef timerRef audioRef recorders timers audios app].
    now rewrite N.add_assoc.
Qed.

Lemma play_app l1 : forall st p l2,
  play st p (l1 ++ l2)
  = match play st p l1 with
    | Some (st1, p1, out1) =>
        match play st1 p1 l2 with
        | Some (st2, p2, out2) => Some (st2, p2, out1 ++ out2)
        | None => None
        end
    | None => None
    end.
Proof.
  induction l1 as [ | ev l1 IH]; intros st p l2; cbn [play app].
  - now destruct (play st p l2) as [[[st2 p2] out2] | ].
  - destruct (delivers p ev); [ | reflexivity].
    destruct (handle st ev) as [st1 out1]. rewrite IH.
    destruct (play st1 (fold_left react out1 (delivered p ev)) l1)
      as [[[st2 p2] out2] | ]; [ | reflexivity].
    destruct (play st2 p2 l2) as [[[st3 p3] out3] | ]; [ | reflexivity].
    now rewrite app_assoc.
Qed.

(** What the platform lets happen is a run of the component. *)
Lemma play_run events : forall st p st' p' out,
  play st p events = Some (st', p', out) -> run st events = (st', out).
Proof.
  induction events as [ | ev events IH]; intros st p st' p' out; cbn [play run].
  - intros Heq. now injection Heq as <- _ <-.
  - destruct (delivers p ev); [ | discriminate].
    destruct (handle st ev) as [st1 out1].
    destruct (play st1 (fold_left react out1 (delivered p ev)) events)
      as [[[st2 p2] out2] | ] eqn:Hplay; [ | discriminate].
    intros Heq. injection Heq as <- _ <-.
    now rewrite (IH _ _ _ _ _ Hplay).
Qed.

(** C8. Starting always asks for the microphone first. When access is
    denied, the failure is shown and the component is left exactly as it
    was (so a fresh recorder stays idle: not recording, no blob). A start
    followed by a stop, in any state of the component and of the platform
    and whatever chunks and interval ticks arrive in between, goes like
    this: the component creates a recorder and calls [start()] on it, and
    on the click on Stop it calls [stop()] on that recorder, upon which
    the platform delivers the last data and the [stop] event; the
    non-empty chunks are then joined into one "audio/webm" blob, that blob
    is stored and handed to [onRecordingComplete] exactly once, and every
    track of the stream is stopped. These are all the effects there are,
    in this order, and the recorder ends inactive. *)
Theorem recorder_take st p tracks acts final :
  (forall answer, head (snd (handle st (ClickStart answer))) = Some GetUserMedia)
  /\ handle st (ClickStart Denied)
     = (st, [GetUserMedia; ToastError "Failed to access microphone"; ConsoleError])
  /\ isRecording (fst (handle initial (ClickStart Denied))) = false
  /\ recordedBlob (fst (handle initial (ClickStart Denied))) = None
  /\ (let result := run st (take st tracks acts final) in
      let blob :=
        Blob_of (List.filter nonempty (chunks_of acts ++ [final])) "audio/webm" in
      completions (snd result) = [blob]
      /\ recordedBlob (fst result) = Some blob
      /\ isRecording (fst result) = false
      /\ stopped_tracks (snd result) = tracks
      /\ recordingTime (fst result) = seconds_of acts
      /\ (let rid := length (recorders st) in
          let tid := S (timers st) in
          snd result
          = [GetUserMedia; NewMediaRecorder rid; RecorderStart rid; SetInterval tid;
             ToastSuccess "Recording started";
             RecorderStop rid; ClearInterval tid; ToastSuccess "Recording stopped";
             OnRecordingComplete blob] ++ List.map TrackStop tracks
          /\ exists p',
               play st p (take st tracks acts final)
               = Some (fst result, p', snd result)
               /\ statuses p' !! rid = Some Inactive)).
Proof.
  split; [intros [ | ? | ?]; reflexivity | ].
  split; [reflexivity | ].
  split; [reflexivity | ].
  split; [reflexivity | ].
  assert (Hplay : exists p',
    play st p (take st tracks acts final)
    = Some (fst (run st (take st tracks acts final)), p',
            snd (run st (take st tracks acts final)))
    /\ statuses p' !! length (recorders st) = Some Inactive
    /\ snd (run st (take st tracks acts final))
       = [GetUserMedia; NewMediaRecorder (length (recorders st));
          RecorderStart (length (recorders st)); SetInterval (S (timers st));
          ToastSuccess "Recording started";
          RecorderStop (length (recorders st)); ClearInterval (S (timers st));
          ToastSuccess "Recording stopped";
          OnRecordingComplete
            (Blob_of (List.filter nonempty (chunks_of acts ++ [final])) "audio/webm")]
         ++ List.map TrackStop tracks).
  { unfold take.
    assert (Hgoes : exists st' p' out,
      play st p (ClickStart (Granted tracks)
                   :: List.map (during (length (recorders st))) acts
                   ++ ClickStop :: after_stop (length (recorders st)) final)
      = Some (st', p', out)
      /\ statuses p' !! length (recorders st) = Some Inactive
      /\ out = [GetUserMedia; NewMediaRecorder (length (recorders st));
                RecorderStart (length (recorders st)); SetInterval (S (timers st));
                ToastSuccess "Recording started";
                RecorderStop (length (recorders st)); ClearInterval (S (timers st));
                ToastSuccess "Recording stopped";
                OnRecordingComplete
                  (Blob_of (List.filter nonempty (chunks_of acts ++ [final]))
                     "audio/webm")]
               ++ List.map TrackStop tracks).
    { cbn [play delivers delivered handle startRecording fold_left react with_status
           statuses intervals].
      rewrite play_app.
      erewrite (play_during _ acts _ _ tracks);
        [ | apply nth_error_snoc | cbn [statuses]; apply lookup_insert_eq
          | cbn [intervals]; discriminate].
      cbn [play delivers delivered handle stopRecording with_progress after_stop
           fold_left react with_status statuses intervals app
           isRecording recordedBlob isPlaying recordingTime mediaRecorderRef
           chunksRef timerRef audioRef recorders timers audios].
      rewrite !lookup_insert_eq. rewrite nth_error_snoc.
      cbn [ondataavailable fold_left with_status statuses intervals
           isRecording recordedBlob isPlaying recordingTime mediaRecorderRef
           chunksRef timerRef audioRef recorders timers audios].
      rewrite !lookup_insert_eq. rewrite nth_error_snoc.
      cbn [onstop app].
      eexists _, _, _. split; [reflexivity | ]. split.
      - clear. induction tracks as [ | t tracks IH];
          cbn [List.map fold_left react]; [ | exact IH].
        cbn [with_status statuses]. apply lookup_insert_eq.
      - cbn [chunksRef]. rewrite app_nil_r, filter_snoc. reflexivity. }
    destruct Hgoes as (st' & p' & out & Hgoes & Hstatus & Hout).
    exists p'. rewrite (play_run _ _ _ _ _ _ Hgoes). cbn [fst snd].
    now repeat split. }
  destruct Hplay as (p' & Hplay & Hstatus & Heffects).
  intros result blob. subst result blob.
  split; [rewrite Heffects; cbn [completions app];
          now rewrite completions_track_stops | ].
  assert (Hstate :
    recordedBlob (fst (run st (take st tracks acts final)))
    = Some (Blob_of (List.filter nonempty (chunks_of acts ++ [final])) "audio/webm")
    /\ isRecording (fst (run st (take st tracks acts final))) = false
    /\ recordingTime (fst (run st (take st tracks acts final))) = seconds_of acts).
  { unfold take.
    cbn [run handle startRecording].
    rewrite run_app.
    rewrite (run_during _ acts _ tracks) by apply nth_error_snoc.
    cbn [fst snd run handle stopRecording with_progress after_stop
         isRecording recordedBlob isPlaying recordingTime mediaRecorderRef
         chunksRef timerRef audioRef recorders timers audios app].
    rewrite nth_error_snoc.
    cbn [fst snd ondataavailable onstop app
         isRecording recordedBlob isPlaying recordingTime mediaRecorderRef
         chunksRef timerRef audioRef recorders timers audios].
    rewrite nth_error_snoc.
    cbn [fst snd onstop app
         isRecording recordedBlob isPlaying recordingTime mediaRecorderRef
         chunksRef timerRef audioRef recorders timers audios].
    rewrite filter_snoc, N.add_0_l. repeat split. }
  destruct Hstate as (Hblob & Hidle & Hclock).
  split; [exact Hblob | ]. split; [exact Hidle | ].
  split; [rewrite Heffects; cbn [stopped_tracks app];
          apply stopped_tracks_track_stops | ].
  split; [exact Hclock | ].
  cbn zeta. split; [exact Heffects | ].
  exists p'. now split.
Qed.

(** *** Closed examples *)

Definition voice (bytes : list N) : Blob :=
  {| blob_data := bytes; blob_type := "audio/webm;codecs=opus" |}.

(** Scenario C: start, three one-second ticks, stop. *)
Example three_second_take :
  let result :=
    run initial (take initial [7; 8] [Second; Second; Second] (voice [1; 2; 3]%N)) in
  snd result
  = [GetUserMedia; NewMediaRecorder 0; RecorderStart 0; SetInterval 1;
     ToastSuccess "Recording started";
     RecorderStop 0; ClearInterval 1; ToastSuccess "Recording stopped";
     OnRecordingComplete {| blob_data := [1; 2; 3]%N; blob_type := "audio/webm" |};
     TrackStop 7; TrackStop 8]
  /\ recordingTime (fst result) = 3%N
  /\ recordedBlob (fst result)
     = Some {| blob_data := [1; 2; 3]%N; blob_type := "audio/webm" |}.
Proof. repeat split. Qed.

End AudioRecorder.


(* ===================================================================== *)
(** ** pages/Index: choosing the segment of a song                        *)
(* ===================================================================== *)

Module IndexPage.

Record State : Type := mkState {
  selectedFile : option File;
  audioUrl : string;
  selectedDuration : option float;
  startTime : float;
  endTime : float;
  isUploading : bool;
  hasSegments : bool;
  isLoadingSegments : bool
}.

(** The [useState] initial values. *)
Definition initial : State :=
  {| selectedFile := None; audioUrl := ""; selectedDuration := None;
     startTime := 0; endTime := 0; isUploading := false;
     hasSegments := false; isLoadingSegments := true |}.

(** The object handed to the Record page and mirrored in local storage.
    [segmentId] is [result.id], possibly [undefined]. *)
Record SegmentInfo : Type := mkSegmentInfo {
  segmentId : option json;
  fileName : string;
  seg_startTime : float;
  seg_endTime : float
}.

(** The object as [JSON.stringify] sees it: an [undefined] property is
    left out. *)
Definition SegmentInfo_json (info : SegmentInfo) : json :=
  JObj (match segmentId info with
        | Some id => [("segmentId", id)]
        | None => []
        end
        ++ [("fileName", JStr (fileName info));
            ("startTime", JNum (seg_startTime info));
            ("endTime", JNum (seg_endTime info))]).

Inductive effect : Type :=
| NetworkCall (w : Api.Wrapper)
| ToastSuccess (text : string)
| ToastError (text : string)
| ConsoleError (label : string)
| RevokeObjectURL (url : string)
| Navigate (path : string) (state : SegmentInfo).

(** [const tolerance = 0.1]. *)
Definition tolerance : float := one_tenth.

(** [Math.abs(endTime - startTime)]. *)
Definition actualDuration (st : State) : float :=
  PrimFloat.abs (endTime st - startTime st).

(** [Math.abs(actualDuration - selectedDuration) <= tolerance]. *)
Definition isDurationValid (st : State) (target : float) : bool :=
  PrimFloat.leb (PrimFloat.abs (actualDuration st - target)) tolerance.

(** The test as the specification words it: the span [end - start]
    against the target. *)
Definition claimed_valid (st : State) (target : float) : bool :=
  PrimFloat.leb (PrimFloat.abs ((endTime st - startTime st) - target)) tolerance.

(** [handleFileSelect(file)]; [url] is what [URL.createObjectURL] returned. *)
Definition handleFileSelect (st : State) (file : File) (url : string)
    : State * list effect :=
  ({| selectedFile := Some file; audioUrl := url; selectedDuration := None;
      startTime := 0; endTime := 0; isUploading := isUploading st;
      hasSegments := hasSegments st; isLoadingSegments := isLoadingSegments st |},
   [ToastSuccess "File selected! Now choose a segment duration."]).

(** [handleDurationSelect(duration)]: the start is left where it was. *)
Definition handleDurationSelect (st : State) (duration : float) : State :=
  {| selectedFile := selectedFile st; audioUrl := audioUrl st;
     selectedDuration := Some duration;
     startTime := startTime st; endTime := duration;
     isUploading := isUploading st;
     hasSegments := hasSegments st; isLoadingSegments := isLoadingSegments st |}.

(** [handleRegionUpdate(start, end)]. *)
Definition handleRegionUpdate (st : State) (start end_ : float) : State :=
  {| selectedFile := selectedFile st; audioUrl := audioUrl st;
     selectedDuration := selectedDuration st;
     startTime := start; endTime := end_;
     isUploading := isUploading st;
     hasSegments := hasSegments st; isLoadingSegments := isLoadingSegments st |}.

Definition with_isUploading (st : State) (b : bool) : State :=
  {| selectedFile := selectedFile st; audioUrl := audioUrl st;
     selectedDuration := selectedDuration st;
     startTime := startTime st; endTime := endTime st;
     isUploading := b;
     hasSegments := hasSegments st; isLoadingSegments := isLoadingSegments st |}.

Section WithEngine.

Variable Number_toString : float -> string.
Variable JSON_stringify : json -> string.

(** The text of the blocking toast. *)
Definition mismatch_message (st : State) (target : float) : string :=
  "Please ensure the segment is exactly " +:+ Number_toString target
  +:+ " seconds (current: " +:+ toFixed1 Number_toString (actualDuration st) +:+ "s)".

(** The [try] block of [handleUpload] after the awaited call settled. *)
Definition after_upload (st : State) (ls : Storage) (file : File)
    (reply : completion json) : Storage * list effect :=
  let failed :=
    (ls, [ToastError "Upload failed. Please try again."; ConsoleError "Upload error:"]) in
  match reply with
  | Throw _ => failed
  | Normal result =>
      let shown := [ToastSuccess "Song uploaded and processed!";
                    RevokeObjectURL (audioUrl st)] in
      match get result "id" with
      | Throw _ => (fst failed, shown ++ snd failed)
      | Normal id =>
          let segmentInfo :=
            {| segmentId := id; fileName := file_name file;
               seg_startTime := startTime st; seg_endTime := endTime st |} in
          (<["currentSegment" := JSON_stringify (SegmentInfo_json segmentInfo)]> ls,
           shown ++ [Navigate "/record" segmentInfo])
      end
  end.

(** [handleUpload]: [reply] is how the awaited
    [uploadAPI.uploadAndProcess(selectedFile, startTime, endTime)] settles
    if it is reached. *)
Definition handleUpload (st : State) (ls : Storage) (reply : completion json)
    : State * Storage * list effect :=
  match selectedFile st, selectedDuration st with
  | Some file, Some target =>
      if truthy_num target then
        if isDurationValid st target then
          let '(ls1, effects) := after_upload st ls file reply in
          (with_isUploading st false, ls1,
           NetworkCall (Api.uploadAPI_uploadAndProcess file
                          (Some (startTime st)) (Some (endTime st)))
             :: effects)
        else (st, ls, [ToastError (mismatch_message st target)])
      else (st, ls, [])
  | _, _ => (st, ls, [])
  end.

End WithEngine.

(** What the user and the waveform do to the page before the upload. *)
Inductive event : Type :=
| FileSelected (file : File) (url : string)
| DurationSelected (duration : float)
| RegionUpdated (start end_ : float).

Definition step (st : State) (ev : event) : State :=
  match ev with
  | FileSelected file url => fst (handleFileSelect st file url)
  | DurationSelected duration => handleDurationSelect st duration
  | RegionUpdated start end_ => handleRegionUpdate st start end_
  end.

Definition after (events : list event) : State := fold_left step events initial.

(** The effects contain a call of the upload-and-process endpoint. *)
Definition uploads (effects : list effect) : Prop :=
  exists w, In (NetworkCall w) effects /\ Api.is_upload_and_process w = true.

(** The effects contain no network call at all. *)
Definition offline (effects : list effect) : Prop :=
  forall w, ~ In (NetworkCall w) effects.

(** *** Facts *)

Section IndexFacts.

Variable Number_toString : float -> string.
Variable JSON_stringify : json -> string.

Lemma after_upload_offline st ls file reply w :
  ~ In (NetworkCall w) (snd (after_upload JSON_stringify st ls file reply)).
Proof.
  unfold after_upload.
  destruct reply as [result | e]; simpl.
  - destruct (get result "id") as [id | e]; simpl; intuition discriminate.
  - intuition discriminate.
Qed.

Lemma mismatch_message_cites_duration st target :
  contains (mismatch_message Number_toString st target)
           (toFixed1 Number_toString (actualDuration st)).
Proof.
  unfold mismatch_message.
  rewrite <- (append_assoc (Number_toString target)).
  rewrite <- (append_assoc "Please ensure the segment is exactly ").
  apply contains_middle.
Qed.

Lemma handleUpload_uploads_iff_valid st ls reply file target :
  selectedFile st = Some file ->
  selectedDuration st = Some target ->
  truthy_num target = true ->
  (uploads (snd (handleUpload Number_toString JSON_stringify st ls reply))
   <-> isDurationValid st target = true).
Proof.
  intros Hfile Htarget Htruthy.
  unfold handleUpload. rewrite Hfile, Htarget, Htruthy.
  destruct (isDurationValid st target) eqn:Hvalid.
  - destruct (after_upload JSON_stringify st ls file reply) as [ls1 effects].
    cbn [snd]. split; [reflexivity | ]. intros _.
    eexists. split; [left; reflexivity | reflexivity].
  - cbn [snd]. split; [ | discriminate].
    intros (w & [Habs | []] & _). discriminate.
Qed.

(** C1, as the code has it. With a file selected and a target duration
    chosen, pressing the button calls the upload-and-process endpoint if
    and only if the length of the selection, [|end - start|], is within
    0.1 of the target; when it is not, the page and local storage are left
    as they were, no network call is made, and the one effect is an error
    toast whose text contains that length printed to one decimal place. *)
Theorem upload_gate st ls reply file target :
  selectedFile st = Some file ->
  selectedDuration st = Some target ->
  truthy_num target = true ->
  let result := handleUpload Number_toString JSON_stringify st ls reply in
  (uploads (snd result) <->
   PrimFloat.leb (PrimFloat.abs (PrimFloat.abs (endTime st - startTime st) - target))
     tolerance = true)
  /\ (isDurationValid st target = true ->
      In (NetworkCall (Api.uploadAPI_uploadAndProcess file
                         (Some (startTime st)) (Some (endTime st))))
         (snd result))
  /\ (isDurationValid st target = false ->
      result = (st, ls, [ToastError (mismatch_message Number_toString st target)])
      /\ offline (snd result)
      /\ contains (mismatch_message Number_toString st target)
                  (toFixed1 Number_toString (actualDuration st))).
Proof.
  intros Hfile Htarget Htruthy result. subst result.
  split;
    [exact (handleUpload_uploads_iff_valid st ls reply file target Hfile Htarget Htruthy) | ].
  unfold handleUpload. rewrite Hfile, Htarget, Htruthy.
  destruct (isDurationValid st target) eqn:Hvalid.
  - destruct (after_upload JSON_stringify st ls file reply) as [ls1 effects].
    cbn [snd]. split; [intros _; now left | discriminate].
  - cbn [snd]. split; [discriminate | ].
    intros _. split; [reflexivity | split ].
    + intros w [Habs | []]. discriminate.
    + apply mismatch_message_cites_duration.
Qed.

(** The upload is the only network call of the handler. *)
Lemma handleUpload_single_call st ls reply w :
  In (NetworkCall w) (snd (handleUpload Number_toString JSON_stringify st ls reply)) ->
  Api.is_upload_and_process w = true.
Proof.
  unfold handleUpload.
  destruct (selectedFile st) as [file | ]; [ | intros []].
  destruct (selectedDuration st) as [target | ]; [ | intros []].
  destruct (truthy_num target); [ | intros []].
  destruct (isDurationValid st target).
  - pose proof (after_upload_offline st ls file reply w) as Hoff.
    destruct (after_upload JSON_stringify st ls file reply) as [ls1 effects].
    cbn [snd] in *. intros [Heq | Hin]; [ | contradiction].
    injection Heq as <-. reflexivity.
  - cbn [snd]. intros [Habs | []]. discriminate.
Qed.

(** On a region that runs forward the two tests agree, and the gate is
    the one on the span [end - start]. *)
Lemma forward_span_valid st target :
  PrimFloat.ltb 0 (endTime st - startTime st) = true ->
  claimed_valid st target = isDurationValid st target.
Proof.
  intros Hforward. unfold claimed_valid, isDurationValid, actualDuration.
  now rewrite (abs_of_positive _ Hforward).
Qed.

Lemma upload_gate_forward_span st ls reply file target :
  selectedFile st = Some file ->
  selectedDuration st = Some target ->
  truthy_num target = true ->
  PrimFloat.ltb 0 (endTime st - startTime st) = true ->
  (uploads (snd (handleUpload Number_toString JSON_stringify st ls reply))
   <-> claimed_valid st target = true).
Proof.
  intros Hfile Htarget Htruthy Hforward.
  rewrite (forward_span_valid st target Hforward).
  exact (handleUpload_uploads_iff_valid st ls reply file target Hfile Htarget Htruthy).
Qed.

(** The gate as the specification words it, on the span [end - start]. *)
Definition claimed_upload_gate : Prop :=
  forall st ls reply file target,
    selectedFile st = Some file ->
    selectedDuration st = Some target ->
    truthy_num target = true ->
    (uploads (snd (handleUpload Number_toString JSON_stringify st ls reply))
     <-> claimed_valid st target = true).

End IndexFacts.

(** *** Closed examples *)

Definition song : File :=
  {| file_name := "song.mp3"; file_type := "audio/mpeg"; file_size := 4000000 |}.

(** Any serializer will do for the closed examples: nothing reads the text
    back. *)
Definition stringify_any (j : json) : string := "{}".

Definition uploaded : completion json := Normal (JObj [("id", JNum 7)]).

(** Scenarios A and B: a target of 30 seconds with the region at 10..40,
    and at 10..38. *)
Definition region_10_40 : State :=
  after [FileSelected song "blob:song"; DurationSelected 30; RegionUpdated 10 40].

Definition region_10_38 : State :=
  after [FileSelected song "blob:song"; DurationSelected 30; RegionUpdated 10 38].

Lemma upload_gate_witness :
  uploads (snd (handleUpload Number_toString_integral stringify_any
                  region_10_40 ∅ uploaded))
  /\ handleUpload Number_toString_integral stringify_any region_10_38 ∅ uploaded
     = (region_10_38, ∅,
        [ToastError "Please ensure the segment is exactly 30 seconds (current: 28.0s)"]).
Proof.
  split.
  - apply (upload_gate Number_toString_integral stringify_any
             region_10_40 ∅ uploaded song 30%float eq_refl eq_refl eq_refl).
    reflexivity.
  - destruct (upload_gate Number_toString_integral stringify_any
                region_10_38 ∅ uploaded song 30%float eq_refl eq_refl eq_refl)
      as (_ & _ & Hblocked).
    destruct (Hblocked eq_refl) as (Hrun & _).
    rewrite Hrun. reflexivity.
Defined.

Example scenario_A_effects :
  snd (handleUpload Number_toString_integral stringify_any region_10_40 ∅ uploaded)
  = [NetworkCall (Api.uploadAPI_uploadAndProcess song (Some 10%float) (Some 40%float));
     ToastSuccess "Song uploaded and processed!";
     RevokeObjectURL "blob:song";
     Navigate "/record"
       {| segmentId := Some (JNum 7); fileName := "song.mp3";
          seg_startTime := 10; seg_endTime := 40 |}].
Proof. reflexivity. Qed.

(** The region is dragged to 30..60 under a target of 30 seconds, then the
    15 second button is pressed: the end becomes 15 while the start stays
    at 30, until the new waveform reports its seeded region. *)
Definition reversed_span : State :=
  after [FileSelected song "blob:song"; DurationSelected 30;
         RegionUpdated 0 30; RegionUpdated 30 60; DurationSelected 15].

(** In that state the span [end - start] is -15, thirty seconds away from
    the target, and the upload goes ahead: the gate tests [|end - start|]. *)
Lemma reversed_span_uploads :
  startTime reversed_span = 30%float
  /\ endTime reversed_span = 15%float
  /\ selectedDuration reversed_span = Some 15%float
  /\ claimed_valid reversed_span 15 = false
  /\ uploads (snd (handleUpload Number_toString_integral stringify_any
                     reversed_span ∅ uploaded))
  /\ ~ claimed_upload_gate Number_toString_integral stringify_any.
Proof.
  assert (Hup : uploads (snd (handleUpload Number_toString_integral stringify_any
                                reversed_span ∅ uploaded))).
  { eexists. split; [left; reflexivity | reflexivity]. }
  repeat split; try exact Hup.
  intros Hclaim.
  apply (Hclaim reversed_span ∅ uploaded song 15%float eq_refl eq_refl eq_refl) in Hup.
  vm_compute in Hup. discriminate.
Qed.

End IndexPage.


(* ===================================================================== *)
(** ** pages/Record: submitting an attempt                                *)
(* ===================================================================== *)

(** What both revisions of the page share: the segment context, the
    effects of a submission, and the [try] block that uploads a recording
    and has it analysed. *)
Module Submission.

(** [location.state] ([JNull] when there is none) and local storage. *)
Record Context : Type := mkContext {
  location_state : json;
  storage : Storage
}.

Inductive effect : Type :=
| SetIsAnalyzing (busy : bool)
| UploadRecording (file : File) (segmentId : float) (surplus : list json)
| AnalyzeRecording (segmentId recordingId : string)
| RemoveItem (key : string)
| ToastSuccess (text : string)
| ToastError (text : string)
| ConsoleError
| Navigate (path : string).

(** The wrapper of services/api behind a call. The arguments a page passes
    beyond [(file, segmentId)] are surplus to [uploadRecording] as that
    module declares it, and are dropped by the call. *)
Definition wrapper_of (e : effect) : option Api.Wrapper :=
  match e with
  | UploadRecording file segmentId _ => Some (Api.recordingAPI_uploadRecording file segmentId)
  | AnalyzeRecording segmentId recordingId =>
      Some (Api.analysisAPI_analyzeRecording segmentId recordingId)
  | _ => None
  end.

Definition is_network (e : effect) : bool :=
  match wrapper_of e with
  | Some _ => true
  | None => false
  end.

(** Effects performed so far, and how the computation went on: it
    completed, it threw, or it is suspended at an [await] whose promise
    never settles. *)
Definition M (A : Type) : Type := list effect * awaited A.

Definition ret {A} (a : A) : M A := ([], Settles (Normal a)).

Definition emit (e : effect) : M unit := ([e], Settles (Normal tt)).

Definition emits (effects : list effect) : M unit := (effects, Settles (Normal tt)).

Definition lift {A} (c : completion A) : M A := ([], Settles c).

(** [await promise]. *)
Definition await {A} (promise : awaited A) : M A := ([], promise).

Definition mbind {A B} (m : M A) (k : A -> M B) : M B :=
  match m with
  | (out, Settles (Normal a)) => let '(out', r) := k a in (out ++ out', r)
  | (out, Settles (Throw e)) => (out, Settles (Throw e))
  | (out, Pends) => (out, Pends)
  end.

Notation "x <- m ;; k" := (mbind m (fun x => k))
  (at level 100, m at next level, right associativity).
Notation "m ;;; k" := (mbind m (fun _ => k))
  (at level 100, right associativity).

(** [try { body } catch (error) { handler } finally { last }], for a handler
    and a [finally] block that only perform effects. Neither block runs
    while the body is suspended. *)
Definition try_catch_finally (body : M unit) (handler last : list effect) : list effect :=
  match body with
  | (out, Settles (Normal _)) => out ++ last
  | (out, Settles (Throw _)) => out ++ handler ++ last
  | (out, Pends) => out
  end.

(** The body got to its end, one way or the other. *)
Definition finished {A} (body : M A) : bool :=
  match body with
  | (_, Settles _) => true
  | (_, Pends) => false
  end.

(** The cleanup function that the page's effect keyed on [isAnalyzing]
    returns, [() => { if (!isAnalyzing) localStorage.removeItem(...) }]:
    it closes over the value of the render that ran the effect. *)
Definition cleanup (isAnalyzing : bool) : list effect :=
  if isAnalyzing then [] else [RemoveItem "currentSegment"].

(** A render that commits [isAnalyzing] changed from [before] to [after]
    runs the effect again, and first the cleanup of the previous render. *)
Definition commit (before after : bool) : list effect :=
  if Bool.eqb before after then [] else cleanup before.

(** Local storage after the [removeItem] calls among the effects, those of
    the handler and those of the effect cleanup alike. *)
Fixpoint storage_after (effects : list effect) (ls : Storage) : Storage :=
  match effects with
  | [] => ls
  | RemoveItem key :: rest => storage_after rest (delete key ls)
  | _ :: rest => storage_after rest ls
  end.

Section WithEngine.

Variable JSON_parse : string -> option json.
Variable Number_toString : float -> string.
(** [parseInt] of the language; [NaN] when no integer prefix is found. *)
Variable parseInt : string -> float.

(** [getSegmentInfo()]. *)
Definition getSegmentInfo (ctx : Context) : json :=
  let from_state :=
    match location_state ctx with
    | JNull => None
    | state => prop state "segmentId"
    end in
  if truthy_opt from_state then location_state ctx
  else
    match storage ctx !! "currentSegment" with
    | Some stored =>
        if truthy_str stored then
          match JSON_parse stored with
          | Some parsed => parsed
          | None => JObj []
          end
        else JObj []
    | None => JObj []
    end.

(** The four properties the page destructures from the segment info. *)
Record Segment : Type := mkSegment {
  segmentId : option json;
  fileName : option json;
  startTime : option json;
  endTime : option json
}.

(** [const { segmentId, fileName, startTime, endTime } = segmentInfo]. *)
Definition destructure (segmentInfo : json) : completion Segment :=
  match segmentInfo with
  | JNull => Throw TypeError
  | info =>
      Normal {| segmentId := prop info "segmentId";
                fileName := prop info "fileName";
                startTime := prop info "startTime";
                endTime := prop info "endTime" |}
  end.

(** The segment a render of the page works with. *)
Definition segment_of (ctx : Context) : completion Segment :=
  destructure (getSegmentInfo ctx).

(** [parseInt(segmentId.toString())] with the [isNaN] guard. *)
Definition segmentIdNum_of (seg_id : option json) : M float :=
  text <- lift (toString_method Number_toString seg_id) ;;
  let n := parseInt text in
  if PrimFloat.is_nan n then lift (Throw (Error "Invalid segment ID"))
  else ret n.

(** From the upload to the navigation: [audioFile] and [surplus] are what
    the page passes to [recordingAPI.uploadRecording] after the segment
    id; the two replies are how the awaited calls turn out. The request is
    sent before the handler yields for the first time; at that point the
    render with [isAnalyzing] set commits ([wasAnalyzing] is the value
    before the click), which runs the cleanup of the page's effect. *)
Definition upload_and_analyze (wasAnalyzing : bool) (segmentIdNum : float)
    (audioFile : File) (surplus : list json)
    (upload_reply analyze_reply : awaited json) : M unit :=
  emit (UploadRecording audioFile segmentIdNum surplus) ;;;
  emits (commit wasAnalyzing true) ;;;
  recordingData <- await upload_reply ;;
  recording_id <- lift (get recordingData "id") ;;
  recordingId <- lift (toString_method Number_toString recording_id) ;;
  emit (AnalyzeRecording (Number_toString segmentIdNum) recordingId) ;;;
  analysisData <- await analyze_reply ;;
  emit (RemoveItem "currentSegment") ;;;
  emit (ToastSuccess "Analysis complete!") ;;;
  analysis_id <- lift (get analysisData "id") ;;
  analysis_text <- lift (ToString_opt Number_toString analysis_id) ;;
  emit (Navigate ("/results/" +:+ analysis_text)).

(** The [catch] and [finally] blocks of [handleSubmitAnalysis]. The
    commit that follows [setIsAnalyzing(false)] runs the cleanup of a
    render in which [isAnalyzing] was set, which removes nothing. *)
Definition on_failure : list effect :=
  [ToastError "Failed to analyze recording"; ConsoleError].

Definition at_last : list effect := [SetIsAnalyzing false].

End WithEngine.

End Submission.


(** *** The page that only records (pages/Record.tsx) *)

Module RecordPage.

Import Submission.

Record State : Type := mkState {
  recordedBlob : option Blob;
  isAnalyzing : bool;
  showLoginDialog : bool
}.

Definition initial : State :=
  {| recordedBlob := None; isAnalyzing := false; showLoginDialog := false |}.

(** [handleRecordingComplete(blob)]. *)
Definition handleRecordingComplete (st : State) (blob : Blob) : State :=
  {| recordedBlob := Some blob;
     isAnalyzing := isAnalyzing st;
     showLoginDialog := showLoginDialog st |}.

Definition open_login_dialog (st : State) : State :=
  {| recordedBlob := recordedBlob st;
     isAnalyzing := isAnalyzing st;
     showLoginDialog := true |}.

Definition with_isAnalyzing (st : State) (busy : bool) : State :=
  {| recordedBlob := recordedBlob st;
     isAnalyzing := busy;
     showLoginDialog := showLoginDialog st |}.

Section WithEngine.

Variable Number_toString : float -> string.
Variable parseInt : string -> float.

(** [handleSubmitAnalysis]: [user] is the session's user, [seg] the segment
    of the current render, the replies are how the two awaited calls turn
    out if they are reached. The result is the page state and the effects
    (those of the handler, and of the effect cleanup that the commit of
    [isAnalyzing] runs). While an awaited call is pending the handler is
    suspended: [isAnalyzing] stays set. *)
Definition handleSubmitAnalysis (user : json) (seg : Segment) (st : State)
    (upload_reply analyze_reply : awaited json) : State * list effect :=
  if negb (truthy user) then (open_login_dialog st, [])
  else
    match recordedBlob st with
    | None => (st, [ToastError "Please record your singing first"])
    | Some blob =>
        let body :=
          (segmentIdNum <- segmentIdNum_of Number_toString parseInt (segmentId seg) ;;
           let audioFile := File_of_blob blob "recording.webm" "audio/webm" in
           upload_and_analyze Number_toString (isAnalyzing st) segmentIdNum
             audioFile [] upload_reply analyze_reply) in
        (with_isAnalyzing st (negb (finished body)),
         SetIsAnalyzing true :: try_catch_finally body on_failure at_last)
    end.

End WithEngine.

End RecordPage.


(** *** The page with a record mode and an upload mode

    The later revision of the page, where a take is either recorded or
    picked from disk and cut to a region. *)

Module RecordPageModes.

Import Submission.

Inductive Mode : Type := record | upload.

Record State : Type := mkState {
  mode : Mode;
  recordedBlob : option Blob;
  uploadedFile : option File;
  audioUrl : option string;
  selectedDuration : float;
  segmentStart : float;
  segmentEnd : float;
  isAnalyzing : bool;
  showLoginDialog : bool
}.

(** The [useState] initial values. *)
Definition initial : State :=
  {| mode := record; recordedBlob := None; uploadedFile := None;
     audioUrl := None; selectedDuration := 30; segmentStart := 0;
     segmentEnd := 30; isAnalyzing := false; showLoginDialog := false |}.


(** [handleRecordingComplete(blob)]. *)
Definition handleRecordingComplete (st : State) (blob : Blob) : State :=
  {| mode := mode st; recordedBlob := Some blob; uploadedFile := uploadedFile st;
     audioUrl := audioUrl st; selectedDuration := selectedDuration st;
     segmentStart := segmentStart st; segmentEnd := segmentEnd st;
     isAnalyzing := isAnalyzing st; showLoginDialog := showLoginDialog st |}.

(** [handleFileSelect(file)]; [url] is what [URL.createObjectURL] returned. *)
Definition handleFileSelect (st : State) (file : File) (url : string) : State :=
  {| mode := mode st; recordedBlob := recordedBlob st; uploadedFile := Some file;
     audioUrl := Some url; selectedDuration := selectedDuration st;
     segmentStart := 0; segmentEnd := selectedDuration st;
     isAnalyzing := isAnalyzing st; showLoginDialog := showLoginDialog st |}.

(** [handleDurationSelect(duration)]. *)
Definition handleDurationSelect (st : State) (duration : float) : State :=
  {| mode := mode st; recordedBlob := recordedBlob st; uploadedFile := uploadedFile st;
     audioUrl := audioUrl st; selectedDuration := duration;
     segmentStart := 0; segmentEnd := duration;
     isAnalyzing := isAnalyzing st; showLoginDialog := showLoginDialog st |}.

(** [handleRegionUpdate(start, end)]. *)
Definition handleRegionUpdate (st : State) (start end_ : float) : State :=
  {| mode := mode st; recordedBlob := recordedBlob st; uploadedFile := uploadedFile st;
     audioUrl := audioUrl st; selectedDuration := selectedDuration st;
     segmentStart := start; segmentEnd := end_;
     isAnalyzing := isAnalyzing st; showLoginDialog := showLoginDialog st |}.

Definition open_login_dialog (st : State) : State :=
  {| mode := mode st; recordedBlob := recordedBlob st; uploadedFile := uploadedFile st;
     audioUrl := audioUrl st; selectedDuration := selectedDuration st;
     segmentStart := segmentStart st; segmentEnd := segmentEnd st;
     isAnalyzing := isAnalyzing st; showLoginDialog := true |}.

Definition with_isAnalyzing (st : State) (busy : bool) : State :=
  {| mode := mode st; recordedBlob := recordedBlob st; uploadedFile := uploadedFile st;
     audioUrl := audioUrl st; selectedDuration := selectedDuration st;
     segmentStart := segmentStart st; segmentEnd := segmentEnd st;
     isAnalyzing := busy; showLoginDialog := showLoginDialog st |}.



Section WithEngine.

Variable JSON_parse : string -> option json.
Variable Number_toString : float -> string.
Variable parseInt : string -> float.


(** [handleSubmitAnalysis]. *)
Definition handleSubmitAnalysis (user : json) (seg : Segment) (st : State)
    (upload_reply analyze_reply : awaited json) : State * list effect :=
  if negb (truthy user) then (open_login_dialog st, [])
  else
    let submit (audioFile : File) (surplus : list json) :=
      let body :=
        (segmentIdNum <- segmentIdNum_of Number_toString parseInt (segmentId seg) ;;
         upload_and_analyze Number_toString (isAnalyzing st) segmentIdNum
           audioFile surplus upload_reply analyze_reply) in
      (with_isAnalyzing st (negb (finished body)),
       SetIsAnalyzing true :: try_catch_finally body on_failure at_last) in
    match mode st with
    | record =>
        match recordedBlob st with
        | None => (st, [ToastError "Please record your singing first"])
        | Some blob =>
            submit (File_of_blob blob "recording.webm" "audio/webm")
                   [JStr "recording"]
        end
    | upload =>
        match uploadedFile st with
        | None => (st, [ToastError "Please upload an audio file first"])
        | Some file =>
            submit (File_of_file file (file_name file) (file_type file))
                   [JStr "recording"; JNum (segmentStart st); JNum (segmentEnd st)]
        end
    end.

End WithEngine.

(** The waveform the upload mode renders once a file is picked:
    [<WaveformPlayer audioUrl={audioUrl} enableRegionSelect={true}
    onRegionUpdate={handleRegionUpdate} fixedDuration={selectedDuration} />]. *)
Definition waveform_props (st : State) (url : string) : WaveformPlayer.Props :=
  {| WaveformPlayer.audioUrl := url;
     WaveformPlayer.onRegionUpdate := true;
     WaveformPlayer.enableRegionSelect := true;
     WaveformPlayer.fixedDuration := Some (selectedDuration st) |}.

(** The page's side of the waveform's effects: each report runs
    [handleRegionUpdate]. *)
Definition deliver (st : State) (effects : list WaveformPlayer.effect) : State :=
  fold_left
    (fun s e =>
       match e with
       | WaveformPlayer.OnRegionUpdate start end_ => handleRegionUpdate s start end_
       | _ => s
       end)
    effects st.


End RecordPageModes.


(** *** Facts about the two revisions of the page *)

Module RecordFacts.

Import Submission.

Section Facts.

Variable JSON_parse : string -> option json.
Variable Number_toString : float -> string.
Variable parseInt : string -> float.

(** C4. With no user in the session, the submission handler of either
    revision of the page performs no effect at all (so neither the
    recording upload nor the analysis endpoint is called, and local
    storage is not touched): it sets [showLoginDialog] and returns, every
    other state variable keeping its value. *)
Theorem unauthenticated_submission_only_prompts
    (user : json) (seg : Segment) (ls : Storage)
    (upload_reply analyze_reply : awaited json) :
  truthy user = false ->
  (forall st : RecordPage.State,
      let result :=
        RecordPage.handleSubmitAnalysis Number_toString parseInt user seg st
          upload_reply analyze_reply in
      snd result = []
      /\ forallb (fun e => negb (is_network e)) (snd result) = true
      /\ storage_after (snd result) ls = ls
      /\ fst result = RecordPage.open_login_dialog st
      /\ RecordPage.showLoginDialog (fst result) = true
      /\ RecordPage.recordedBlob (fst result) = RecordPage.recordedBlob st
      /\ RecordPage.isAnalyzing (fst result) = RecordPage.isAnalyzing st)
  /\ (forall st : RecordPageModes.State,
      let result :=
        RecordPageModes.handleSubmitAnalysis Number_toString parseInt user seg st
          upload_reply analyze_reply in
      snd result = []
      /\ forallb (fun e => negb (is_network e)) (snd result) = true
      /\ storage_after (snd result) ls = ls
      /\ fst result = RecordPageModes.open_login_dialog st
      /\ RecordPageModes.showLoginDialog (fst result) = true
      /\ RecordPageModes.mode (fst result) = RecordPageModes.mode st
      /\ RecordPageModes.recordedBlob (fst result) = RecordPageModes.recordedBlob st
      /\ RecordPageModes.uploadedFile (fst result) = RecordPageModes.uploadedFile st
      /\ RecordPageModes.audioUrl (fst result) = RecordPageModes.audioUrl st
      /\ RecordPageModes.selectedDuration (fst result) = RecordPageModes.selectedDuration st
      /\ RecordPageModes.segmentStart (fst result) = RecordPageModes.segmentStart st
      /\ RecordPageModes.segmentEnd (fst result) = RecordPageModes.segmentEnd st
      /\ RecordPageModes.isAnalyzing (fst result) = RecordPageModes.isAnalyzing st).
Proof.
  intros Huser. split; intros st result; subst result.
  - unfold RecordPage.handleSubmitAnalysis. rewrite Huser. simpl.
    repeat split.
  - unfold RecordPageModes.handleSubmitAnalysis. rewrite Huser. simpl.
    repeat split.
Qed.


(** The region is re-seeded later, and not by the switch: the waveform
    that upload mode mounts afresh reports its seeded region when it
    becomes ready. The take and the picked file stay. *)
Lemma mounted_waveform_reseeds_region (st : RecordPageModes.State) (url : string)
    (duration : float) :
  truthy_num (RecordPageModes.selectedDuration st) = true ->
  let st' :=
    RecordPageModes.deliver st
      (snd (WaveformPlayer.handle (RecordPageModes.waveform_props st url)
              WaveformPlayer.initial (WaveformPlayer.Ready duration))) in
  RecordPageModes.segmentStart st' = 0%float
  /\ RecordPageModes.segmentEnd st'
     = Math_min (RecordPageModes.selectedDuration st) duration
  /\ RecordPageModes.recordedBlob st' = RecordPageModes.recordedBlob st
  /\ RecordPageModes.uploadedFile st' = RecordPageModes.uploadedFile st.
Proof.
  intros Htruthy. simpl.
  unfold WaveformPlayer.defaultEnd, WaveformPlayer.regionDuration. simpl.
  rewrite Htruthy. repeat split.
Qed.

End Facts.

(** *** Closed examples *)

(** [parseInt] on plain decimal numerals, which is all the closed examples
    pass to it. *)
Fixpoint leading_digits (s : string) (acc : option N) : option N :=
  match s with
  | String c rest =>
      let code := N_of_ascii c in
      if ((48 <=? code) && (code <=? 57))%N then
        leading_digits rest (Some (10 * default 0%N acc + (code - 48))%N)
      else acc
  | EmptyString => acc
  end.

Definition parseInt_decimal (s : string) : float :=
  match leading_digits s None with
  | Some n => PrimFloat.of_uint63 (Uint63.of_Z (Z.of_N n))
  | None => PrimFloat.nan
  end.

Definition parse_nothing (text : string) : option json := None.

Definition take : Blob := {| blob_data := [1; 2; 3]%N; blob_type := "audio/webm" |}.

Definition segment_12 : Segment :=
  {| segmentId := Some (JNum 12); fileName := Some (JStr "song.mp3");
     startTime := Some (JNum 10); endTime := Some (JNum 40) |}.

Definition member : json := JObj [("id", JStr "u1"); ("email", JStr "a@b.c")].

Lemma unauthenticated_submission_only_prompts_witness :
  RecordPage.handleSubmitAnalysis Number_toString_integral parseInt_decimal
    JNull segment_12 (RecordPage.handleRecordingComplete RecordPage.initial take)
    (Settles (Normal (JObj [("id", JNum 5)]))) (Settles (Normal (JObj [("id", JNum 9)])))
  = ({| RecordPage.recordedBlob := Some take;
        RecordPage.isAnalyzing := false;
        RecordPage.showLoginDialog := true |}, []).
Proof.
  destruct (unauthenticated_submission_only_prompts Number_toString_integral
              parseInt_decimal JNull segment_12 ∅
              (Settles (Normal (JObj [("id", JNum 5)]))) (Settles (Normal (JObj [("id", JNum 9)])))
              eq_refl) as (Hfirst & _).
  destruct (Hfirst (RecordPage.handleRecordingComplete RecordPage.initial take))
    as (Heffects & _ & _ & Hstate & _).
  apply injective_projections; [exact Hstate | exact Heffects].
Defined.

(** The same take submitted by a signed-in user goes through both
    endpoints. The first [removeItem] is the effect cleanup's, run when
    the page commits [isAnalyzing]; the second is the handler's. *)
Example authenticated_submission :
  snd (RecordPage.handleSubmitAnalysis Number_toString_integral parseInt_decimal
         member segment_12
         (RecordPage.handleRecordingComplete RecordPage.initial take)
         (Settles (Normal (JObj [("id", JNum 5)]))) (Settles (Normal (JObj [("id", JNum 9)]))))
  = [SetIsAnalyzing true;
     UploadRecording
       {| file_name := "recording.webm"; file_type := "audio/webm"; file_size := 3 |}
       12 [];
     RemoveItem "currentSegment";
     AnalyzeRecording "12" "5";
     RemoveItem "currentSegment";
     ToastSuccess "Analysis complete!";
     Navigate "/results/9";
     SetIsAnalyzing false].
Proof. reflexivity. Qed.



End RecordFacts.


(* ===================================================================== *)
(** ** More of services/api                                               *)
(* ===================================================================== *)

Module ApiMore.

Import Api.

(** A [loc] that is neither nullish, nor an array, nor a string: it has no
    [slice] to call. *)
Definition unsliceable (loc : option json) : bool :=
  match loc with
  | Some (JBool _) | Some (JNum _) | Some (JObj _) => true
  | _ => false
  end.

(** The parsed body of a validation failure that cannot be read: [detail]
    is a non-empty array, and its first entry is [null] or has an
    unsliceable [loc]. *)
Definition malformed_validation_entry (parsed : option json) : bool :=
  match parsed with
  | Some body =>
      match prop body "detail" with
      | Some (JArr (JNull :: _)) => true
      | Some (JArr (first :: _)) => unsliceable (prop first "loc")
      | _ => false
      end
  | None => false
  end.

(** [detail] is neither a string nor a non-empty array, as a test. *)
Definition detail_absent (body : json) : bool :=
  match prop body "detail" with
  | Some (JStr _) => false
  | Some (JArr (_ :: _)) => false
  | _ => true
  end.

(** A parsed body none of the formats applies to: there is none, or it is
    falsy, or it has no usable [detail] and no truthy [error] or
    [message]. *)
Definition carries_no_message (parsed : option json) : bool :=
  match parsed with
  | None => true
  | Some body =>
      negb (truthy body)
      || (detail_absent body
          && negb (truthy_opt (prop body "error"))
          && negb (truthy_opt (prop body "message")))
  end.

(** Among the values the error block prints there is one that cannot be
    printed: in a validation entry that can be read, a truthy last element
    of [loc] or a truthy [msg]; else the truthy [error]; else the truthy
    [message]. *)
Definition unprintable_message (parsed : option json) : bool :=
  match parsed with
  | Some body =>
      truthy body
      && match prop body "detail" with
         | Some (JStr _) => false
         | Some (JArr (first :: _)) =>
             match bind (get first "loc") loc_last with
             | Normal last =>
                 (truthy_opt last && unprintable_opt last)
                 || (truthy_opt (prop first "msg")
                     && unprintable_opt (prop first "msg"))
             | Throw _ => false
             end
         | _ =>
             if truthy_opt (prop body "error")
             then unprintable_opt (prop body "error")
             else truthy_opt (prop body "message")
                  && unprintable_opt (prop body "message")
         end
  | None => false
  end.

(** The filters of [getUserAttempts] by the name they are sent under. *)
Definition filter_names : list string :=
  ["limit"; "offset"; "segment_id"; "min_score"; "max_score"].

Definition filter_value (f : AttemptFilters) (name : string) : option float :=
  if String.eqb name "limit" then flt_limit f
  else if String.eqb name "offset" then flt_offset f
  else if String.eqb name "segment_id" then flt_segment_id f
  else if String.eqb name "min_score" then flt_min_score f
  else if String.eqb name "max_score" then flt_max_score f
  else None.

(** [filters?.name] is truthy. *)
Definition sent (f : AttemptFilters) (name : string) : bool :=
  match filter_value f name with
  | Some x => truthy_num x
  | None => false
  end.

Section Facts.

Variable Number_toString : float -> string.
Variable URLSearchParams_toString : list (string * string) -> string.

(** The parameters [getUserAttempts] appends, in order. *)
Definition attempts_params (filters : option AttemptFilters) : list (string * string) :=
  match filters with
  | Some f =>
      query_number Number_toString "limit" (flt_limit f)
      ++ query_number Number_toString "offset" (flt_offset f)
      ++ query_number Number_toString "segment_id" (flt_segment_id f)
      ++ query_number Number_toString "min_score" (flt_min_score f)
      ++ query_number Number_toString "max_score" (flt_max_score f)
  | None => []
  end.

Lemma attempts_query_params (filters : option AttemptFilters) :
  attempts_query Number_toString URLSearchParams_toString filters
  = "/api/attempts"
    +:+ (if truthy_str (URLSearchParams_toString (attempts_params filters))
         then "?" +:+ URLSearchParams_toString (attempts_params filters)
         else "").
Proof. destruct filters; reflexivity. Qed.

Lemma query_number_names (name : string) (x : option float) :
  List.map fst (query_number Number_toString name x)
  = if match x with Some v => truthy_num v | None => false end then [name] else [].
Proof.
  destruct x as [v | ]; simpl; [ | reflexivity].
  now destruct (truthy_num v).
Qed.

Lemma query_number_values (name : string) (x : option float) (key text : string) :
  In (key, text) (query_number Number_toString name x) ->
  key = name /\ exists v, x = Some v /\ truthy_num v = true /\ text = Number_toString v.
Proof.
  destruct x as [v | ]; simpl; [ | intros []].
  destruct (truthy_num v) eqn:Hv; [ | intros []].
  intros [Heq | []]. injection Heq as <- <-. eauto.
Qed.

(** The request reaches [fetch] as the caller made it: the URL is the base
    followed by the endpoint, method and body are the caller's, every
    header the caller passes arrives with the caller's value (an
    [Authorization] of its own included), and nothing but [Authorization]
    is added. *)
Theorem caller_request_reaches_fetch ls net endpoint options :
  let request := fst (apiRequest Number_toString ls net endpoint options) in
  let caller := default ∅ (init_headers options) in
  req_url request = API_BASE_URL +:+ endpoint
  /\ req_method request = init_method options
  /\ req_body request = init_body options
  /\ (forall name value, caller !! name = Some value ->
      req_headers request !! name = Some value)
  /\ (forall name, name <> "Authorization" ->
      req_headers request !! name = caller !! name).
Proof.
  cbn zeta. unfold apiRequest, build_request, merged_headers. cbn [fst req_url
    req_method req_body req_headers].
  split; [reflexivity | split; [reflexivity | split; [reflexivity | split] ] ].
  - intros name value Hcaller. rewrite lookup_union, Hcaller.
    now destruct (({[ "Authorization" := bearer (ls !! "token") ]} : gmap string string)
                    !! name).
  - intros name Hname. rewrite lookup_union.
    rewrite lookup_singleton_ne by congruence.
    now destruct (default ∅ (init_headers options) !! name).
Qed.

Lemma or_default_cases (x : option json) (fallback : string) :
  (truthy_opt x && unprintable_opt x = true
   /\ or_default Number_toString x fallback = Throw TypeError)
  \/ (truthy_opt x && unprintable_opt x = false
      /\ exists text, or_default Number_toString x fallback = Normal text).
Proof.
  unfold or_default. destruct (truthy_opt x); cbn [andb].
  - apply ToString_opt_cases.
  - right. split; [reflexivity | eexists; reflexivity].
Qed.

Lemma Error_of_cases (v : option json) :
  (unprintable_opt v = true
   /\ Error_of (ToString_opt Number_toString v) = TypeError)
  \/ (unprintable_opt v = false
      /\ exists message, Error_of (ToString_opt Number_toString v) = Error message).
Proof.
  destruct (ToString_opt_cases Number_toString v) as [(Hv & ->) | (Hv & text & ->)];
    [left | right]; (split; [exact Hv | ]); [reflexivity | eexists; reflexivity].
Qed.

(** The message of a validation entry whose [loc] could be read. *)
Lemma validation_text_cases (last msg : option json) :
  let thrown :=
    Error_of
      (bind (or_default Number_toString last "field") (fun field_text =>
       bind (or_default Number_toString msg "Validation error") (fun message_text =>
       Normal (field_text +:+ ": " +:+ message_text)))) in
  let hard :=
    (truthy_opt last && unprintable_opt last)
    || (truthy_opt msg && unprintable_opt msg) in
  (thrown = TypeError <-> false = true \/ hard = true)
  /\ (false = false -> hard = false -> exists message, thrown = Error message).
Proof.
  cbn zeta.
  destruct (or_default_cases last "field") as [(Hl & ->) | (Hl & ftext & ->)];
    rewrite Hl; cbn [bind orb Error_of].
  - split; [split; [now right | reflexivity] | discriminate].
  - destruct (or_default_cases msg "Validation error")
      as [(Hm & ->) | (Hm & mtext & ->)]; rewrite Hm; cbn [bind Error_of].
    + split; [split; [now right | reflexivity] | discriminate].
    + split; [split; [discriminate | intros [H | H]; discriminate] | eauto].
Qed.

(** The block that builds the error throws an [Error] carrying a message,
    except in two situations, where the engine's [TypeError] escapes
    instead: [detail] is a non-empty array whose first entry is [null] or
    has a [loc] that is a number, a boolean or an object; or a value that
    the block prints cannot be printed (an object with a [toString]
    property of its own, or an array holding one). It never throws
    anything else. *)
Theorem error_is_type_error_iff (r : Response) :
  (error_of_response Number_toString r = TypeError
   <-> malformed_validation_entry (resp_json r) = true
       \/ unprintable_message (resp_json r) = true)
  /\ (malformed_validation_entry (resp_json r) = false ->
      unprintable_message (resp_json r) = false ->
      exists message, error_of_response Number_toString r = Error message).
Proof.
  unfold error_of_response, malformed_validation_entry, unprintable_message.
  assert (Hfine : forall message : string,
    (Error message = TypeError <-> false = true \/ false = true)
    /\ (false = false -> false = false ->
        exists message', Error message = Error message')).
  { intros message. split; [split; [discriminate | intros [H | H]; discriminate] | eauto]. }
  assert (Hbad : forall b : bool,
    (TypeError = TypeError <-> true = true \/ b = true)
    /\ (true = false -> b = false -> exists message', TypeError = Error message')).
  { intros b'. split; [split; [now left | reflexivity] | discriminate]. }
  assert (Hprint : forall (v : option json) (m : bool), m = false ->
    (Error_of (ToString_opt Number_toString v) = TypeError
     <-> m = true \/ unprintable_opt v = true)
    /\ (m = false -> unprintable_opt v = false ->
        exists message, Error_of (ToString_opt Number_toString v) = Error message)).
  { intros v m ->.
    destruct (Error_of_cases v) as [(Hv & ->) | (Hv & message & ->)]; rewrite Hv.
    - split; [split; [now right | reflexivity] | discriminate].
    - split; [split; [discriminate | intros [H | H]; discriminate] | eauto]. }
  destruct (resp_json r) as [body | ]; simpl default; [ | apply Hfine].
  destruct body as [ | b | x | s | items | props];
    cbn [truthy prop truthy_opt unprintable_opt andb];
    try apply Hfine;
    try (match goal with |- context [if ?c then _ else _] => destruct c end;
         apply Hfine).
  destruct (assoc "detail" props) as [[ | b | x | s | [ | first rest] | props'] | ];
    try (destruct (truthy_opt (assoc "error" props));
         [apply Hprint; reflexivity | ];
         destruct (truthy_opt (assoc "message" props)); cbn [andb];
         [apply Hprint; reflexivity | apply Hfine]);
    try apply Hfine.
  destruct first as [ | b | x | s | items | fields];
    cbn [get prop bind loc_last unprintable];
    try apply Hbad.
  - (* a boolean entry *) apply validation_text_cases.
  - (* a number entry *) apply validation_text_cases.
  - (* a string entry *) apply validation_text_cases.
  - (* an array entry *) apply validation_text_cases.
  - (* an object entry *)
    destruct (assoc "loc" fields) as [[ | b | x | s | items | fields'] | ];
      cbn [loc_last bind unsliceable]; try apply Hbad; apply validation_text_cases.
Qed.

(** Whatever the body is, if no format applies to it (an empty object, an
    array, a bare string or number, [{"detail": []}], [{"error": ""}],
    ...), the error is the fallback built from the status line. *)
Theorem shapeless_body_falls_back (r : Response) :
  carries_no_message (resp_json r) = true ->
  error_of_response Number_toString r
  = Error ("API request failed: " +:+ N_to_string (resp_status r)
           +:+ " " +:+ resp_statusText r).
Proof.
  unfold carries_no_message, error_of_response.
  destruct (resp_json r) as [body | ]; simpl default; [ | reflexivity].
  destruct (truthy body); [ | reflexivity]. simpl negb. simpl orb.
  unfold detail_absent.
  destruct (prop body "detail") as [[ | b | x | s | [ | first rest] | props] | ];
    try discriminate;
    destruct (truthy_opt (prop body "error")); try discriminate;
    destruct (truthy_opt (prop body "message")); try discriminate; reflexivity.
Qed.

(** In a validation list whose first entry can be read, a [loc] that is
    missing, [null], empty or ends in a falsy element is reported as
    "field", and a [msg] that is missing or falsy as "Validation error",
    each independently of the other; the one that is there is printed as
    a template literal prints it, and the [TypeError] of that conversion
    escapes when it cannot be printed. *)
Theorem validation_defaults_apply (r : Response) body first rest last :
  resp_json r = Some body ->
  prop body "detail" = Some (JArr (first :: rest)) ->
  bind (get first "loc") (loc_last) = Normal last ->
  let msg := prop first "msg" in
  (truthy_opt last = false -> truthy_opt msg = false ->
   error_of_response Number_toString r = Error "field: Validation error")
  /\ (truthy_opt last = false -> truthy_opt msg = true ->
      error_of_response Number_toString r
      = Error_of (bind (ToString_opt Number_toString msg)
                       (fun text => Normal ("field: " +:+ text))))
  /\ (truthy_opt last = true -> truthy_opt msg = false ->
      error_of_response Number_toString r
      = Error_of (bind (ToString_opt Number_toString last)
                       (fun text => Normal (text +:+ ": Validation error")))).
Proof.
  intros Hbody Hdetail Hlast msg. subst msg.
  unfold error_of_response. rewrite Hbody. simpl default.
  rewrite (prop_Some_truthy _ _ _ Hdetail), Hdetail, Hlast.
  unfold or_default.
  repeat split; intros H1 H2; rewrite H1, H2; reflexivity.
Qed.

(** [getUserAttempts] sends a parameter for exactly the filters that are
    present and truthy, under their own names and in the order limit,
    offset, segment_id, min_score, max_score, each with its value printed
    as a number: a filter that is 0 (or NaN) is not sent. With no
    parameter to send the endpoint is the bare path. *)
Theorem attempts_filters_sent (f : AttemptFilters) :
  List.map fst (attempts_params (Some f)) = List.filter (sent f) filter_names
  /\ (forall name text,
        In (name, text) (attempts_params (Some f)) ->
        exists x, filter_value f name = Some x /\ truthy_num x = true
                  /\ text = Number_toString x)
  /\ attempts_params None = []
  /\ (URLSearchParams_toString [] = "" ->
      List.filter (sent f) filter_names = [] ->
      attempts_query Number_toString URLSearchParams_toString (Some f) = "/api/attempts"
      /\ attempts_query Number_toString URLSearchParams_toString None = "/api/attempts").
Proof.
  split; [ | split; [ | split; [reflexivity | ] ] ].
  - unfold attempts_params. rewrite !List.map_app, !query_number_names.
    unfold filter_names, sent, filter_value; simpl.
    destruct (flt_limit f) as [a | ]; [destruct (truthy_num a) | ];
    destruct (flt_offset f) as [b | ]; try destruct (truthy_num b);
    destruct (flt_segment_id f) as [c | ]; try destruct (truthy_num c);
    destruct (flt_min_score f) as [d | ]; try destruct (truthy_num d);
    destruct (flt_max_score f) as [e | ]; try destruct (truthy_num e);
    reflexivity.
  - intros name text Hin. unfold attempts_params in Hin.
    repeat (apply in_app_or in Hin; destruct Hin as [Hin | Hin]);
      apply query_number_values in Hin;
      destruct Hin as (-> & x & Hx & Htruthy & ->);
      exists x; unfold filter_value; simpl; auto.
  - intros Hempty Hnone.
    rewrite !attempts_query_params.
    assert (Hparams : attempts_params (Some f) = []).
    { assert (Hnames : List.map fst (attempts_params (Some f)) = []).
      { rewrite <- Hnone. unfold attempts_params.
        rewrite !List.map_app, !query_number_names.
        unfold filter_names, sent, filter_value; simpl.
        destruct (flt_limit f) as [a | ]; [destruct (truthy_num a) | ];
        destruct (flt_offset f) as [b | ]; try destruct (truthy_num b);
        destruct (flt_segment_id f) as [c | ]; try destruct (truthy_num c);
        destruct (flt_min_score f) as [d | ]; try destruct (truthy_num d);
        destruct (flt_max_score f) as [e | ]; try destruct (truthy_num e);
        reflexivity. }
      now destruct (attempts_params (Some f)). }
    rewrite Hparams. simpl attempts_params. rewrite Hempty. split; reflexivity.
Qed.

(** How the wrappers fill a request: a JSON body always goes out as a POST
    with the header Content-Type: application/json, a form upload as a POST
    that sets no Content-Type of its own, and a request without a body
    carries no Content-Type either. *)
Theorem wrapper_content_type ls net (w : Wrapper) :
  let request := fst (invoke Number_toString URLSearchParams_toString ls net w) in
  match req_body request with
  | Some (JsonBody _) =>
      req_method request = Some "POST"
      /\ req_headers request !! "Content-Type" = Some "application/json"
  | Some (FormBody _) =>
      req_method request = Some "POST"
      /\ req_headers request !! "Content-Type" = None
  | None => req_headers request !! "Content-Type" = None
  end.
Proof.
  cbn zeta.
  destruct w; cbn [invoke apiRequest fst call_of snd build_request req_body
                   req_method req_headers post_json post_form get_call method_call
                   init_body init_method init_headers no_options];
    try split; reflexivity.
Qed.

End Facts.

(** *** Closed examples *)

Lemma shapeless_body_falls_back_witness :
  error_of_response Number_toString_integral
    {| resp_ok := false; resp_status := 404; resp_statusText := "Not Found";
       resp_json := Some (JObj [("detail", JArr []); ("error", JStr "")]) |}
  = Error "API request failed: 404 Not Found".
Proof.
  apply (shapeless_body_falls_back Number_toString_integral). reflexivity.
Defined.

(** The first item of a list body is rejected: [loc] ends in the index 0. *)
Definition first_item_rejected : Response :=
  {| resp_ok := false; resp_status := 422; resp_statusText := "";
     resp_json :=
       Some (JObj [("detail",
                    JArr [JObj [("loc", JArr [JStr "body"; JNum 0]);
                                ("msg", JStr "too short")]])]) |}.

Lemma validation_defaults_apply_witness :
  error_of_response Number_toString_integral first_item_rejected
  = Error "field: too short".
Proof.
  refine (proj1 (proj2 (validation_defaults_apply Number_toString_integral
                          first_item_rejected _ _ _ (Some (JNum 0))
                          eq_refl eq_refl eq_refl))
                eq_refl eq_refl).
Defined.

End ApiMore.


(* ===================================================================== *)
(** ** More of contexts/AuthContext: login, register, logout              *)
(* ===================================================================== *)

Module AuthMore.

Import AuthContext.

(** The four components of what an operation of the provider returns. *)
Definition storage_of {R} (x : Storage * State * list effect * R) : Storage :=
  fst (fst (fst x)).

Definition state_of {R} (x : Storage * State * list effect * R) : State :=
  snd (fst (fst x)).

Definition effects_of {R} (x : Storage * State * list effect * R) : list effect :=
  snd (fst x).

Definition result_of {R} (x : Storage * State * list effect * R) : R :=
  snd x.

(** Why a reply of the server does not establish a session: the call
    rejected with [e], or it resolved with something that lacks a truthy
    [access_token] or [user]. *)
Definition refusal (reply : completion json) : option exn :=
  match reply with
  | Throw e => Some e
  | Normal data =>
      if invalid_auth_response data then Some (Error "Invalid response from server")
      else None
  end.

(** The session nobody is signed in to, once loading is over. *)
Definition signed_out : State :=
  {| user := JNull; token := JNull; isLoading := false |}.

Section Facts.

Variable JSON_parse : string -> option json.
Variable JSON_stringify : json -> string.
Variable Number_toString : float -> string.

Lemma establish_refused greeting user_first ls st reply e :
  refusal reply = Some e ->
  establish JSON_stringify Number_toString greeting user_first ls st reply
  = (ls, st, [ToastErrorOf e], Throw e).
Proof.
  unfold refusal, establish. destruct reply as [data | e'].
  - destruct (invalid_auth_response data); [ | discriminate].
    intros Heq. now injection Heq as <-.
  - intros Heq. now injection Heq as <-.
Qed.

Lemma establish_accepted greeting user_first ls st data token_text :
  invalid_auth_response data = false ->
  ToString Number_toString (default JNull (prop data "access_token"))
  = Normal token_text ->
  establish JSON_stringify Number_toString greeting user_first ls st (Normal data)
  = (<["user" := JSON_stringify (default JNull (prop data "user"))]>
       (<["token" := token_text]> ls),
     {| user := default JNull (prop data "user");
        token := default JNull (prop data "access_token");
        isLoading := isLoading st |},
     [ToastSuccess greeting; Navigate "/"],
     Normal tt).
Proof. intros Hvalid Htext. unfold establish. now rewrite Hvalid, Htext. Qed.

(** A login or a registration that does not go through changes nothing:
    local storage and the session are as before, the one network call was
    made, the error is shown in a toast and the same error is thrown on to
    the caller. This covers a rejected call as much as a reply without a
    truthy [access_token] or [user]. *)
Theorem refused_sign_in_changes_nothing ls st reply e :
  refusal reply = Some e ->
  (forall email password,
      login JSON_stringify Number_toString ls st email password reply
      = (ls, st, [NetworkCall (Api.authAPI_login email password); ToastErrorOf e],
         Throw e))
  /\ (forall email username password,
        register JSON_stringify Number_toString ls st email username password reply
        = (ls, st,
           [NetworkCall (Api.authAPI_register email username password); ToastErrorOf e],
           Throw e)).
Proof.
  intros Hrefused. split; intros; unfold login, register;
    now rewrite (establish_refused _ _ ls st reply e Hrefused).
Qed.

(** Signing in and then reloading the page gives the session back: after a
    login (or registration) that the server answered with a token string
    and a user, the mount effect run on the storage it left restores that
    user and that token, provided the user survives
    [JSON.parse(JSON.stringify(user))]. *)
Theorem sign_in_survives_reload ls st data t u :
  prop data "access_token" = Some (JStr t) ->
  prop data "user" = Some u ->
  invalid_auth_response data = false ->
  JSON_parse (JSON_stringify u) = Some u ->
  JSON_stringify u <> "" ->
  (forall email password,
      let signed := login JSON_stringify Number_toString ls st email password
                      (Normal data) in
      user (state_of signed) = u
      /\ token (state_of signed) = JStr t
      /\ rehydrate JSON_parse (storage_of signed)
         = (storage_of signed,
            {| user := u; token := JStr t; isLoading := false |}, [], Normal tt))
  /\ (forall email username password,
        let signed := register JSON_stringify Number_toString ls st
                        email username password (Normal data) in
        user (state_of signed) = u
        /\ token (state_of signed) = JStr t
        /\ rehydrate JSON_parse (storage_of signed)
           = (storage_of signed,
              {| user := u; token := JStr t; isLoading := false |}, [], Normal tt)).
Proof.
  intros Htoken Huser Hvalid Hround Hnonempty.
  assert (Ht : truthy_str t = true).
  { unfold invalid_auth_response in Hvalid. rewrite Htoken in Hvalid.
    simpl in Hvalid. destruct (truthy_str t); [reflexivity | ].
    now rewrite orb_true_r in Hvalid. }
  assert (Hu : truthy_str (JSON_stringify u) = true).
  { destruct (JSON_stringify u); [congruence | reflexivity]. }
  assert (Hreload : forall ls0 : Storage,
    rehydrate JSON_parse
      (<["user" := JSON_stringify u]> (<["token" := t]> ls0))
    = (<["user" := JSON_stringify u]> (<["token" := t]> ls0),
       {| user := u; token := JStr t; isLoading := false |}, [], Normal tt)).
  { intros ls0. unfold rehydrate, parse.
    rewrite lookup_insert_ne by discriminate.
    rewrite !lookup_insert_eq. now rewrite Ht, Hu, Hround. }
  assert (Htext : ToString Number_toString (default JNull (prop data "access_token"))
                  = Normal t).
  { now rewrite Htoken. }
  split; intros; subst signed; unfold login, register;
    rewrite (establish_accepted _ _ ls st data t Hvalid Htext);
    unfold state_of, storage_of; cbn [fst snd user token];
    rewrite Htoken, Huser; cbn [default];
    (split; [reflexivity | split; [reflexivity | apply Hreload] ]).
Qed.

(** Logging out ends the session as soon as the server call settles,
    whichever way it settles: both keys are removed, user and token are
    null, the user is sent to the login page, nothing is thrown, and a
    reload afterwards finds nobody signed in. Until the call settles
    nothing of this has happened: the call has been made, and local
    storage and the session are as they were. *)
Theorem logout_ends_session_once_settled ls st :
  (forall settled,
      let out := logout ls st (Settles settled) in
      storage_of out !! "token" = None
      /\ storage_of out !! "user" = None
      /\ user (state_of out) = JNull
      /\ token (state_of out) = JNull
      /\ result_of out = Settles (Normal tt)
      /\ In (NetworkCall Api.authAPI_logout) (effects_of out)
      /\ last (effects_of out) = Some (Navigate "/login")
      /\ rehydrate JSON_parse (storage_of out)
         = (storage_of out, signed_out, [], Normal tt))
  /\ logout ls st Pends = (ls, st, [NetworkCall Api.authAPI_logout], Pends).
Proof.
  split; [ | reflexivity].
  intros settled. cbn zeta.
  unfold logout, storage_of, state_of, effects_of, result_of.
  cbn [fst snd user token].
  assert (Htoken : delete "user" (delete "token" ls) !! "token" = None).
  { rewrite lookup_delete_ne by discriminate. apply lookup_delete_eq. }
  assert (Huser : delete "user" (delete "token" ls) !! "user" = None).
  { apply lookup_delete_eq. }
  repeat split; try assumption.
  - now left.
  - destruct settled; reflexivity.
  - unfold rehydrate. now rewrite Htoken.
Qed.

(** The provider only ever touches its own two keys: whatever else is in
    local storage (the segment mirror [currentSegment], for one) is left
    alone by the mount effect, by login, by registration and by logout. *)
Theorem other_keys_untouched ls st key :
  key <> "token" -> key <> "user" ->
  storage_of (rehydrate JSON_parse ls) !! key = ls !! key
  /\ (forall email password reply,
        storage_of (login JSON_stringify Number_toString ls st email password reply)
          !! key = ls !! key)
  /\ (forall email username password reply,
        storage_of (register JSON_stringify Number_toString ls st
                      email username password reply) !! key = ls !! key)
  /\ (forall reply, storage_of (logout ls st reply) !! key = ls !! key).
Proof.
  intros Htoken Huser.
  assert (Hestablish : forall greeting user_first reply,
    storage_of (establish JSON_stringify Number_toString greeting user_first
                  ls st reply) !! key
    = ls !! key).
  { intros greeting user_first reply. unfold establish, storage_of.
    destruct reply as [data | e]; [ | reflexivity].
    destruct (invalid_auth_response data); [reflexivity | ].
    destruct (ToString Number_toString (default JNull (prop data "access_token")));
      [ | reflexivity].
    cbn [fst]. now rewrite !lookup_insert_ne by congruence. }
  split; [ | split; [ | split] ].
  - unfold rehydrate, storage_of.
    destruct (ls !! "token") as [t | ]; [ | reflexivity].
    destruct (ls !! "user") as [u | ]; [ | reflexivity].
    destruct (truthy_str t && truthy_str u); [ | reflexivity].
    destruct (parse JSON_parse u); [reflexivity | ].
    cbn [fst]. now rewrite !lookup_delete_ne by congruence.
  - intros email password reply. unfold login.
    specialize (Hestablish "Welcome back!" false reply).
    now destruct (establish _ _ _ _ _ _) as [[[ls1 st1] effects] result].
  - intros email username password reply. unfold register.
    specialize (Hestablish "Account created successfully!" true reply).
    now destruct (establish _ _ _ _ _ _) as [[[ls1 st1] effects] result].
  - intros reply. unfold logout, storage_of. destruct reply as [settled | ];
      cbn [fst]; [ | reflexivity].
    now rewrite !lookup_delete_ne by congruence.
Qed.

End Facts.

(** *** Closed examples *)

(** A serializer and a parser that agree on the one user of the examples. *)
Definition ada : json := JObj [("id", JStr "u1"); ("username", JStr "ada")].

Definition stringify_ada (j : json) : string := "ada".

Definition parse_ada (text : string) : option json :=
  if String.eqb text "ada" then Some ada else None.

Definition welcome : json := JObj [("access_token", JStr "abc"); ("user", ada)].

Lemma refused_sign_in_changes_nothing_witness :
  login stringify_ada Number_toString_integral ∅ initial "a@b.c" "secret"
    (Normal (JObj [("access_token", JStr "abc")]))
  = (∅, initial,
     [NetworkCall (Api.authAPI_login "a@b.c" "secret");
      ToastErrorOf (Error "Invalid response from server")],
     Throw (Error "Invalid response from server")).
Proof.
  apply (refused_sign_in_changes_nothing stringify_ada Number_toString_integral
           ∅ initial (Normal (JObj [("access_token", JStr "abc")]))
           (Error "Invalid response from server") eq_refl).
Defined.

Lemma sign_in_survives_reload_witness :
  rehydrate parse_ada
    (storage_of (login stringify_ada Number_toString_integral ∅ initial
                   "a@b.c" "secret" (Normal welcome)))
  = (storage_of (login stringify_ada Number_toString_integral ∅ initial
                   "a@b.c" "secret" (Normal welcome)),
     {| user := ada; token := JStr "abc"; isLoading := false |}, [], Normal tt).
Proof.
  destruct (sign_in_survives_reload parse_ada stringify_ada Number_toString_integral
              ∅ initial welcome "abc" ada eq_refl eq_refl eq_refl eq_refl)
    as (Hlogin & _); [discriminate | ].
  apply (Hlogin "a@b.c" "secret").
Defined.

Lemma other_keys_untouched_witness :
  storage_of (logout (<["currentSegment" := "{}"]> (<["token" := "abc"]> ∅))
                initial (Settles (Throw TypeError)))
    !! "currentSegment" = Some "{}".
Proof.
  destruct (other_keys_untouched parse_ada stringify_ada Number_toString_integral
              (<["currentSegment" := "{}"]> (<["token" := "abc"]> ∅)) initial
              "currentSegment") as (_ & _ & _ & Hlogout);
    [discriminate | discriminate | ].
  rewrite Hlogout. reflexivity.
Defined.

End AuthMore.


(* ===================================================================== *)
(** ** More of components/AudioRecorder: what the controls allow          *)
(* ===================================================================== *)

Module RecorderMore.

Import AudioRecorder.

Definition has_take (st : State) : bool :=
  match recordedBlob st with
  | Some _ => true
  | None => false
  end.

(** The buttons the component renders: Start under
    [!isRecording && !recordedBlob], Stop under [isRecording], Play/Pause
    and Re-record under [recordedBlob && !isRecording]. A click is offered
    when its button is rendered; what the platform calls back is always
    possible. *)
Definition offered (st : State) (ev : event) : bool :=
  match ev with
  | ClickStart _ => negb (isRecording st) && negb (has_take st)
  | ClickStop => isRecording st
  | ClickPlay => has_take st && negb (isRecording st)
  | ClickReset => has_take st && negb (isRecording st)
  | Tick => true
  | DataAvailable _ _ => true
  | Stopped _ => true
  | AudioEnded => true
  end.

(** Every event of the sequence is offered in the state it arrives in. *)
Fixpoint offered_all (st : State) (events : list event) : bool :=
  match events with
  | [] => true
  | ev :: rest => offered st ev && offered_all (fst (handle st ev)) rest
  end.

(** A start that was granted the microphone. *)
Definition is_granted_start (ev : event) : bool :=
  match ev with
  | ClickStart (Granted _) => true
  | _ => false
  end.

(** Playback needs a take and an audio element, and never runs while the
    microphone records. *)
Definition consistent (st : State) : Prop :=
  (isPlaying st = true -> has_take st = true /\ audioRef st <> None)
  /\ isRecording st && isPlaying st = false.

(** Nothing has been recorded, nothing is being recorded or played. *)
Definition idle (st : State) : Prop :=
  recorders st = [] /\ isRecording st = false /\ recordedBlob st = None
  /\ isPlaying st = false.

(** What happens to the component, with the platform's part in it: a
    click or a callback, where [starts] tells whether a [play()] made on
    the way gets the element to sound (the browser may refuse it), or the
    end of the playback of element [aid], which runs its [onended]. *)
Inductive moment : Type :=
| Does (ev : event) (starts : bool)
| Ends (aid : nat).

Definition is_ended (ev : event) : bool :=
  match ev with
  | AudioEnded => true
  | _ => false
  end.

Definition hush (aid : nat) (sounding : list nat) : list nat :=
  List.filter (fun other => negb (Nat.eqb other aid)) sounding.

(** The elements that sound once an effect is performed. *)
Definition hear (starts : bool) (sounding : list nat) (e : effect) : list nat :=
  match e with
  | AudioPlay aid _ => if starts then aid :: sounding else sounding
  | AudioPause aid => hush aid sounding
  | _ => sounding
  end.

(** One moment in the life of the component and of the elements that
    sound: a click needs its button, and only an element that sounds
    reaches its end. *)
Definition live (st : State) (sounding : list nat) (m : moment)
    : option (State * list nat) :=
  match m with
  | Does ev starts =>
      if offered st ev && negb (is_ended ev) then
        Some (fst (handle st ev), fold_left (hear starts) (snd (handle st ev)) sounding)
      else None
  | Ends aid =>
      if existsb (Nat.eqb aid) sounding then
        Some (fst (handle st AudioEnded), hush aid sounding)
      else None
  end.

Fixpoint lives (st : State) (sounding : list nat) (moments : list moment)
    : option (State * list nat) :=
  match moments with
  | [] => Some (st, sounding)
  | m :: rest =>
      match live st sounding m with
      | Some (st1, sounding1) => lives st1 sounding1 rest
      | None => None
      end
  end.

(** What sounds is the one element the component holds and shows as
    playing. *)
Definition shown (st : State) (sounding : list nat) : Prop :=
  sounding = []
  \/ exists aid, sounding = [aid] /\ audioRef st = Some aid /\ isPlaying st = true.

Lemma run_cons st ev rest :
  run st (ev :: rest)
  = (fst (run (fst (handle st ev)) rest),
     snd (handle st ev) ++ snd (run (fst (handle st ev)) rest)).
Proof.
  cbn [run]. destruct (handle st ev) as [st1 out1]. cbn [fst snd].
  now destruct (run st1 rest) as [st2 out2].
Qed.

Lemma consistent_step st ev :
  consistent st -> offered st ev = true -> consistent (fst (handle st ev)).
Proof.
  unfold consistent, offered, has_take. intros (Hplay & Hexclusive) Hoffered.
  destruct ev as [answer | | | rid data | rid | | | ]; cbn [handle].
  - (* start *)
    destruct answer as [ | tracks | tracks]; cbn [startRecording fst];
      [auto | auto | ].
    cbn [isPlaying isRecording recordedBlob audioRef].
    destruct (isPlaying st) eqn:Hp.
    + destruct (Hplay eq_refl) as (Htake & _). rewrite Htake in Hoffered.
      now rewrite andb_false_r in Hoffered.
    + split; [discriminate | reflexivity].
  - (* stop *)
    unfold stopRecording.
    destruct (mediaRecorderRef st); [ | auto].
    destruct (isRecording st) eqn:Hr;
      cbn [fst isPlaying isRecording recordedBlob audioRef]; rewrite ?Hr; auto.
  - (* tick *)
    cbn [tick fst isPlaying isRecording recordedBlob audioRef]. auto.
  - (* data *)
    destruct (nth_error (recorders st) rid); [ | auto].
    cbn [ondataavailable fst isPlaying isRecording recordedBlob audioRef]. auto.
  - (* recorder stopped *)
    destruct (nth_error (recorders st) rid); [ | auto].
    cbn [onstop fst isPlaying isRecording recordedBlob audioRef].
    split; [ | assumption].
    intros Hp. split; [reflexivity | now apply Hplay].
  - (* play or pause *)
    unfold playRecording.
    destruct (recordedBlob st) as [blob | ] eqn:Hb; [ | discriminate].
    destruct (isRecording st) eqn:Hr; [discriminate | ].
    destruct (isPlaying st) eqn:Hp.
    + destruct (audioRef st) as [aid | ] eqn:Ha.
      * cbn [fst isPlaying isRecording recordedBlob audioRef].
        rewrite ?Hr. split; [discriminate | reflexivity].
      * now destruct (Hplay eq_refl) as (_ & Hnone).
    + cbn [fst isPlaying isRecording recordedBlob audioRef].
      rewrite ?Hb, ?Hr. split; [ | reflexivity].
      intros _. split; [reflexivity | discriminate].
  - (* playback ended *)
    cbn [onended fst isPlaying isRecording recordedBlob audioRef].
    split; [discriminate | apply andb_false_r].
  - (* re-record *)
    cbn [resetRecording fst isPlaying isRecording recordedBlob audioRef].
    split; [discriminate | apply andb_false_r].
Qed.

Lemma hear_track_stops starts tracks : forall sounding,
  fold_left (hear starts) (List.map TrackStop tracks) sounding = sounding.
Proof.
  induction tracks as [ | track tracks IH]; intros sounding; [reflexivity | apply IH].
Qed.

Lemma hush_one aid : hush aid [aid] = [].
Proof. unfold hush. cbn [List.filter]. now rewrite Nat.eqb_refl. Qed.

Lemma shown_step st sounding ev starts :
  consistent st -> shown st sounding ->
  offered st ev = true -> is_ended ev = false ->
  shown (fst (handle st ev)) (fold_left (hear starts) (snd (handle st ev)) sounding).
Proof.
  unfold consistent, shown, offered, has_take.
  intros (Hplay & Hexclusive) Hshown Hoffered Hev.
  destruct ev as [answer | | | rid data | rid | | | ]; cbn [handle];
    [ | | | | | | discriminate | ].
  - (* start *)
    destruct answer as [ | tracks | tracks]; cbn [startRecording fst snd fold_left hear];
      [exact Hshown | exact Hshown | ].
    cbn [isPlaying audioRef]. exact Hshown.
  - (* stop *)
    unfold stopRecording.
    destruct (mediaRecorderRef st); [ | exact Hshown].
    destruct (isRecording st); [ | exact Hshown].
    destruct (timerRef st); cbn [fst snd app fold_left hear isPlaying audioRef];
      exact Hshown.
  - (* tick *)
    cbn [tick fst snd fold_left isPlaying audioRef]. exact Hshown.
  - (* data *)
    destruct (nth_error (recorders st) rid); [ | exact Hshown].
    cbn [ondataavailable fst snd fold_left isPlaying audioRef]. exact Hshown.
  - (* recorder stopped *)
    destruct (nth_error (recorders st) rid) as [tracks | ]; [ | exact Hshown].
    cbn [onstop fst snd fold_left hear isPlaying audioRef].
    rewrite hear_track_stops. exact Hshown.
  - (* play or pause *)
    unfold playRecording.
    destruct (recordedBlob st) as [blob | ] eqn:Hb; [ | discriminate].
    destruct (isPlaying st) eqn:Hp.
    + destruct (audioRef st) as [held | ] eqn:Ha;
        [ | now destruct (Hplay eq_refl) as (_ & Hnone)].
      cbn [fst snd fold_left hear]. left.
      destruct Hshown as [-> | (aid & -> & Href & _)]; [reflexivity | ].
      injection Href as ->. apply hush_one.
    + cbn [fst snd fold_left hear isPlaying audioRef].
      destruct Hshown as [-> | (aid & _ & _ & Hflag)]; [ | discriminate].
      destruct starts; [right; now eexists | now left].
  - (* re-record *)
    cbn [resetRecording fst snd]. left.
    destruct Hshown as [-> | (aid & -> & -> & _)].
    + now destruct (audioRef st).
    + cbn [fold_left hear]. apply hush_one.
Qed.

Lemma shown_ended st sounding aid :
  shown st sounding -> existsb (Nat.eqb aid) sounding = true ->
  shown (fst (handle st AudioEnded)) (hush aid sounding).
Proof.
  intros [-> | (held & -> & _ & _)] Hsounds; [discriminate | ].
  cbn [existsb] in Hsounds. rewrite orb_false_r in Hsounds.
  apply Nat.eqb_eq in Hsounds as ->. left. apply hush_one.
Qed.

Lemma lives_in_tune moments : forall st sounding st' sounding',
  consistent st -> shown st sounding ->
  lives st sounding moments = Some (st', sounding') ->
  consistent st' /\ shown st' sounding'.
Proof.
  induction moments as [ | m rest IH]; intros st sounding st' sounding' Hst Hshown Hlives.
  - injection Hlives as <- <-. now split.
  - cbn [lives] in Hlives.
    destruct (live st sounding m) as [ [st1 sounding1] | ] eqn:Hlive; [ | discriminate].
    apply (IH st1 sounding1); [ | | exact Hlives].
    + destruct m as [ev starts | aid]; cbn [live] in Hlive.
      * destruct (offered st ev) eqn:Hoffered; [ | discriminate].
        destruct (is_ended ev); [discriminate | ].
        injection Hlive as <- _. now apply consistent_step.
      * destruct (existsb (Nat.eqb aid) sounding); [ | discriminate].
        injection Hlive as <- _. now apply (consistent_step st AudioEnded).
    + destruct m as [ev starts | aid]; cbn [live] in Hlive.
      * destruct (offered st ev) eqn:Hoffered; [ | discriminate].
        destruct (is_ended ev) eqn:Hev; [discriminate | ].
        injection Hlive as <- <-. now apply shown_step.
      * destruct (existsb (Nat.eqb aid) sounding) eqn:Hsounds; [ | discriminate].
        injection Hlive as <- <-. now apply shown_ended.
Qed.

Lemma idle_step st ev :
  idle st -> is_granted_start ev = false ->
  idle (fst (handle st ev)) /\ completions (snd (handle st ev)) = []
  /\ (forall aid source, ~ In (AudioPlay aid source) (snd (handle st ev))).
Proof.
  unfold idle. intros (Hrecorders & Hrecording & Hblob & Hplaying) Hstart.
  destruct ev as [answer | | | rid data | rid | | | ]; cbn [handle].
  - destruct answer as [ | tracks | tracks]; [ | | discriminate];
      cbn [startRecording fst snd completions]; repeat split; auto;
      intros aid source [H | [H | [H | [ ] ] ] ]; discriminate.
  - unfold stopRecording. rewrite Hrecording.
    destruct (mediaRecorderRef st); cbn [fst snd completions]; repeat split; auto.
  - cbn [tick fst snd completions recorders isRecording recordedBlob isPlaying].
    repeat split; auto.
  - rewrite Hrecorders. destruct rid; cbn [nth_error fst snd completions];
      repeat split; auto.
  - rewrite Hrecorders. destruct rid; cbn [nth_error fst snd completions];
      repeat split; auto.
  - unfold playRecording. rewrite Hblob, Hplaying.
    destruct (audioRef st); cbn [fst snd completions]; repeat split; auto.
  - cbn [onended fst snd completions recorders isRecording recordedBlob isPlaying].
    repeat split; auto.
  - cbn [resetRecording fst snd recorders isRecording recordedBlob isPlaying].
    repeat split; auto.
    + now destruct (audioRef st).
    + intros aid source. destruct (audioRef st); [ | auto].
      intros [H | [ ] ]; discriminate.
Qed.

Lemma completions_app l1 l2 : completions (l1 ++ l2) = completions l1 ++ completions l2.
Proof.
  induction l1 as [ | e l1 IH]; [reflexivity | ].
  destruct e; simpl; now rewrite ?IH.
Qed.

(** Driven through the buttons it renders, the recorder lets no take be
    heard while it records. Whatever the platform calls back in between,
    whether or not the browser lets a [play()] through, and with playback
    ending only for an element that sounds: while the component records no
    audio element sounds and it does not show as playing; at most one
    element sounds at any time, and that is the element the component
    holds, shown as playing, of a take that is there; and whenever it
    shows as playing there is a take and an element to pause. A start
    counts as one event, the click together with the browser's answer:
    nothing else happens while the microphone is being asked for. *)
Theorem never_sounds_while_recording moments st sounding :
  lives initial [] moments = Some (st, sounding) ->
  (isRecording st = true -> sounding = [] /\ isPlaying st = false)
  /\ length sounding <= 1
  /\ (forall aid, In aid sounding ->
        audioRef st = Some aid /\ isPlaying st = true /\ recordedBlob st <> None)
  /\ (isPlaying st = true -> recordedBlob st <> None /\ audioRef st <> None).
Proof.
  intros Hlives.
  assert (Hinitial : consistent initial).
  { split; [discriminate | reflexivity]. }
  destruct (lives_in_tune moments initial [] st sounding Hinitial (or_introl eq_refl) Hlives)
    as ((Hplay & Hexclusive) & Hshown).
  assert (Htake : isPlaying st = true -> recordedBlob st <> None /\ audioRef st <> None).
  { intros Hp. destruct (Hplay Hp) as (Hhas & Haudio). split; [ | exact Haudio].
    unfold has_take in Hhas. now destruct (recordedBlob st). }
  split; [ | split; [ | split; [ | exact Htake] ] ].
  - intros Hrecording. rewrite Hrecording in Hexclusive. cbn [andb] in Hexclusive.
    split; [ | exact Hexclusive].
    destruct Hshown as [-> | (aid & _ & _ & Hflag)]; [reflexivity | congruence].
  - destruct Hshown as [-> | (aid & -> & _)]; simpl; lia.
  - intros aid Hin.
    destruct Hshown as [-> | (held & -> & Href & Hflag)]; [destruct Hin | ].
    destruct Hin as [<- | [ ] ]. now destruct (Htake Hflag).
Qed.

(** Without a start that was granted the microphone, clicks and callbacks
    in any number and order never hand a recording to the parent, never
    play anything, and leave the component neither recording nor holding
    a take. *)
Theorem no_microphone_no_recording events :
  forallb (fun ev => negb (is_granted_start ev)) events = true ->
  let result := run initial events in
  completions (snd result) = []
  /\ (forall aid source, ~ In (AudioPlay aid source) (snd result))
  /\ isRecording (fst result) = false
  /\ recordedBlob (fst result) = None
  /\ isPlaying (fst result) = false.
Proof.
  intros Hall result. subst result.
  assert (Hgeneral : forall st, idle st ->
    idle (fst (run st events)) /\ completions (snd (run st events)) = []
    /\ (forall aid source, ~ In (AudioPlay aid source) (snd (run st events)))).
  { induction events as [ | ev rest IH]; intros st Hst;
      [split; [exact Hst | split; [reflexivity | intros aid source [ ] ] ] | ].
    cbn [forallb] in Hall. apply andb_true_iff in Hall as (Hev & Hrest).
    apply negb_true_iff in Hev.
    destruct (idle_step st ev Hst Hev) as (Hnext & Hnone & Hsilent).
    destruct (IH Hrest _ Hnext) as (Hidle & Hcompletions & Hquiet).
    rewrite run_cons. cbn [fst snd]. split; [exact Hidle | ].
    split.
    - now rewrite completions_app, Hnone, Hcompletions.
    - intros aid source Hin. apply in_app_or in Hin as [Hin | Hin].
      + exact (Hsilent aid source Hin).
      + exact (Hquiet aid source Hin). }
  destruct (Hgeneral initial) as ((_ & Hr & Hb & Hp) & Hc & Hq).
  { now repeat split. }
  auto.
Qed.

(** *** Closed examples *)

(** A take played, paused, played again to its end, played once more and
    dropped; then a second take is begun. *)
Definition heard : list moment :=
  List.map (fun ev => Does ev true)
    (take initial [7] [Chunk (voice [1; 2]%N); Second] (voice [3]%N))
    ++ [Does ClickPlay true; Does ClickPlay true; Does ClickPlay true; Ends 2;
        Does ClickPlay true; Does ClickReset true; Does (ClickStart (Granted [8])) true].

Example a_take_is_heard :
  lives initial []
    (List.map (fun ev => Does ev true)
       (take initial [7] [Chunk (voice [1; 2]%N); Second] (voice [3]%N))
     ++ [Does ClickPlay true; Does ClickPlay true; Does ClickPlay true])
  = Some ({| isRecording := false;
             recordedBlob := Some {| blob_data := [1; 2; 3]%N; blob_type := "audio/webm" |};
             isPlaying := true; recordingTime := 1; mediaRecorderRef := Some 0;
             chunksRef := [voice [1; 2]%N; voice [3]%N]; timerRef := Some 1;
             audioRef := Some 2; recorders := [[7]]; timers := 1; audios := 2 |},
          [2]).
Proof. vm_compute. reflexivity. Qed.

(** The component while it records its second take. *)
Definition second_take : State :=
  {| isRecording := true; recordedBlob := None; isPlaying := false;
     recordingTime := 0; mediaRecorderRef := Some 1; chunksRef := [];
     timerRef := Some 2; audioRef := None; recorders := [[7]; [8]]; timers := 2;
     audios := 3 |}.

Lemma never_sounds_while_recording_witness :
  lives initial [] heard = Some (second_take, [])
  /\ isPlaying second_take = false.
Proof.
  assert (Hlives : lives initial [] heard = Some (second_take, []))
    by (vm_compute; reflexivity).
  split; [exact Hlives | ].
  exact (proj2 (proj1 (never_sounds_while_recording heard second_take [] Hlives) eq_refl)).
Defined.

Lemma no_microphone_no_recording_witness :
  completions
    (snd (run initial [ClickStart Denied; ClickStop; Stopped 0; ClickPlay; ClickReset]))
  = [].
Proof.
  exact (proj1 (no_microphone_no_recording
                  [ClickStart Denied; ClickStop; Stopped 0; ClickPlay; ClickReset]
                  eq_refl)).
Defined.

End RecorderMore.


(* ===================================================================== *)
(** ** Order facts about binary64 numbers                                 *)
(* ===================================================================== *)

Module NumMore.

Import Num.

Lemma SFcompare_antisym (x y : spec_float) :
  SFcompare y x = option_map CompOpp (SFcompare x y).
Proof.
  destruct x as [s1 | s1 | | s1 m1 e1], y as [s2 | s2 | | s2 m2 e2];
    try reflexivity; try (destruct s1; reflexivity); try (destruct s2; reflexivity);
    try (destruct s1, s2; reflexivity).
  cbn [SFcompare option_map]. f_equal.
  rewrite (Z.compare_antisym e1 e2).
  destruct s1, s2; try reflexivity;
    destruct (e1 ?= e2)%Z eqn:He; cbn [CompOpp]; try reflexivity.
  all: rewrite (Pos.compare_cont_antisym m1 m2 Eq); cbn [CompOpp];
    destruct (Pos.compare_cont Eq m1 m2); reflexivity.
Qed.

(** Two numbers compare unless one of them is [NaN]. *)
Lemma is_nan_compare (x y : float) :
  PrimFloat.is_nan x = false -> PrimFloat.is_nan y = false ->
  exists c, SFcompare (Prim2SF x) (Prim2SF y) = Some c.
Proof.
  unfold PrimFloat.is_nan. rewrite (FloatAxioms.eqb_spec x x), (FloatAxioms.eqb_spec y y). unfold SFeqb.
  intros Hx Hy.
  destruct (Prim2SF x) as [s1 | s1 | | s1 m1 e1], (Prim2SF y) as [s2 | s2 | | s2 m2 e2];
    cbn in Hx, Hy; try discriminate; cbn [SFcompare]; eauto.
Qed.

Lemma leb_refl (x : float) : PrimFloat.is_nan x = false -> PrimFloat.leb x x = true.
Proof.
  unfold PrimFloat.is_nan. rewrite FloatAxioms.eqb_spec, leb_spec. unfold SFeqb, SFleb.
  destruct (SFcompare (Prim2SF x) (Prim2SF x)) as [[ | | ] | ];
    try discriminate; reflexivity.
Qed.

(** What compares is not [NaN]. *)
Lemma leb_not_nan (x y : float) :
  PrimFloat.leb x y = true -> PrimFloat.is_nan x = false /\ PrimFloat.is_nan y = false.
Proof.
  unfold PrimFloat.is_nan. rewrite (FloatAxioms.eqb_spec x x), (FloatAxioms.eqb_spec y y), leb_spec.
  unfold SFeqb, SFleb.
  destruct (Prim2SF x) as [s1 | s1 | | s1 m1 e1], (Prim2SF y) as [s2 | s2 | | s2 m2 e2];
    cbn; try discriminate; intros _;
    rewrite ?Z.compare_refl, ?Pos.compare_cont_refl;
    split; try reflexivity; try (destruct s1; reflexivity); try (destruct s2; reflexivity);
    try (destruct s1; cbn; rewrite ?Pos.compare_cont_refl; reflexivity);
    try (destruct s2; cbn; rewrite ?Pos.compare_cont_refl; reflexivity).
Qed.

Lemma ltb_leb (x y : float) : PrimFloat.ltb x y = true -> PrimFloat.leb x y = true.
Proof.
  rewrite ltb_spec, leb_spec. unfold SFltb, SFleb.
  destruct (SFcompare (Prim2SF x) (Prim2SF y)) as [[ | | ] | ];
    try discriminate; reflexivity.
Qed.

Lemma not_ltb_leb (x y : float) :
  PrimFloat.is_nan x = false -> PrimFloat.is_nan y = false ->
  PrimFloat.ltb y x = false -> PrimFloat.leb x y = true.
Proof.
  intros Hx Hy. destruct (is_nan_compare x y Hx Hy) as (c & Hc).
  rewrite ltb_spec, leb_spec. unfold SFltb, SFleb.
  rewrite (SFcompare_antisym (Prim2SF x) (Prim2SF y)), Hc.
  destruct c; cbn; congruence.
Qed.

(** [x <= y] excludes [y < x]. *)
Lemma leb_not_ltb (x y : float) : PrimFloat.leb x y = true -> PrimFloat.ltb y x = false.
Proof.
  rewrite ltb_spec, leb_spec. unfold SFltb, SFleb.
  rewrite (SFcompare_antisym (Prim2SF x) (Prim2SF y)).
  destruct (SFcompare (Prim2SF x) (Prim2SF y)) as [[ | | ] | ];
    try discriminate; reflexivity.
Qed.

(** [Math.min] of two numbers is one of them and is below both. *)
Lemma Math_min_bounds (a d : float) :
  PrimFloat.is_nan a = false -> PrimFloat.is_nan d = false ->
  (Math_min a d = a \/ Math_min a d = d)
  /\ PrimFloat.leb (Math_min a d) a = true
  /\ PrimFloat.leb (Math_min a d) d = true.
Proof.
  intros Ha Hd. unfold Math_min. rewrite Ha, Hd. cbn [orb].
  destruct (PrimFloat.ltb a d) eqn:Had.
  - auto using leb_refl, ltb_leb.
  - destruct (PrimFloat.ltb d a) eqn:Hda.
    + auto using leb_refl, ltb_leb.
    + destruct (is_neg_zero a); auto using leb_refl, not_ltb_leb.
Qed.

(** Subtracting [+0] changes nothing. *)
Lemma sub_zero (x : float) : (x - 0)%float = x.
Proof.
  rewrite <- (SF2Prim_Prim2SF (x - 0)), sub_spec.
  change (Prim2SF 0) with (S754_zero false).
  rewrite <- (SF2Prim_Prim2SF x) at 2. f_equal.
  destruct (Prim2SF x) as [ [ | ] | s | | s m e]; reflexivity.
Qed.

End NumMore.


(* ===================================================================== *)
(** ** More of components/WaveformPlayer: where the seeded region lies    *)
(* ===================================================================== *)

Module WaveformMore.

Import Num NumMore WaveformPlayer.

(** The length the player aims at: the fixed duration when one is
    requested, 60 seconds otherwise. *)
Definition aimed_length (props : Props) : float :=
  match fixedDuration props with
  | Some f => if truthy_num f then f else 60
  | None => 60
  end.

Lemma defaultEnd_aimed props duration :
  defaultEnd props duration = Math_min (aimed_length props) duration.
Proof.
  unfold aimed_length. destruct (fixedDuration props) as [f | ] eqn:Hfixed.
  - destruct (truthy_num f) eqn:Htruthy.
    + now apply defaultEnd_fixed.
    + apply defaultEnd_free. unfold fixed_requested. now rewrite Hfixed.
  - apply defaultEnd_free. unfold fixed_requested. now rewrite Hfixed.
Qed.

(** On a track of a known length (zero or more seconds, not [NaN]) and
    with a positive fixed duration when one is requested, the region the
    player seeds lies within the track and is not longer than asked for:
    its end is at least 0, at most the length of the track and at most the
    fixed duration (60 seconds without one), and it is one of the two. *)
Theorem seeded_interval_within_track props duration :
  PrimFloat.leb 0 duration = true ->
  (forall f, fixedDuration props = Some f -> truthy_num f = true ->
             PrimFloat.ltb 0 f = true) ->
  let region := seeded_region props duration in
  region_start region = 0%float
  /\ PrimFloat.leb 0 (region_end region) = true
  /\ PrimFloat.leb (region_end region) duration = true
  /\ PrimFloat.leb (region_end region) (aimed_length props) = true
  /\ (region_end region = duration \/ region_end region = aimed_length props).
Proof.
  intros Hduration Hpositive region. subst region. cbn [seeded_region region_start region_end].
  rewrite defaultEnd_aimed.
  assert (Haimed : PrimFloat.leb 0 (aimed_length props) = true).
  { unfold aimed_length. destruct (fixedDuration props) as [f | ]; [ | reflexivity].
    destruct (truthy_num f) eqn:Htruthy; [ | reflexivity].
    apply ltb_leb. now apply Hpositive. }
  destruct (leb_not_nan _ _ Hduration) as (_ & Hd).
  destruct (leb_not_nan _ _ Haimed) as (_ & Ha).
  destruct (Math_min_bounds (aimed_length props) duration Ha Hd)
    as (Hcases & Hbelow_aimed & Hbelow_duration).
  split; [reflexivity | ].
  split; [destruct Hcases as [-> | ->]; assumption | ].
  split; [exact Hbelow_duration | ].
  split; [exact Hbelow_aimed | ].
  destruct Hcases as [-> | ->]; auto.
Qed.

(** *** Closed examples *)

Lemma seeded_interval_within_track_witness :
  PrimFloat.leb (region_end (seeded_region thirty_seconds 20)) 20 = true
  /\ PrimFloat.leb (region_end (seeded_region thirty_seconds 20)) 30 = true.
Proof.
  destruct (seeded_interval_within_track thirty_seconds 20 eq_refl)
    as (_ & _ & Htrack & Haimed & _).
  - intros f Hfixed _. injection Hfixed as <-. reflexivity.
  - split; [exact Htrack | exact Haimed].
Defined.

End WaveformMore.


(* ===================================================================== *)
(** ** More of pages/Index and pages/Record: the handover of a segment    *)
(* ===================================================================== *)

Module Handover.

Import IndexPage.

(** The page navigates somewhere. *)
Definition navigates (effects : list effect) : Prop :=
  exists path info, In (Navigate path info) effects.

(** What the Record page destructures from the handed-over object. *)
Definition Segment_of_info (info : SegmentInfo) : Submission.Segment :=
  {| Submission.segmentId := segmentId info;
     Submission.fileName := Some (JStr (fileName info));
     Submission.startTime := Some (JNum (seg_startTime info));
     Submission.endTime := Some (JNum (seg_endTime info)) |}.

Section Facts.

Variable JSON_parse : string -> option json.
Variable JSON_stringify : json -> string.
Variable Number_toString : float -> string.

Lemma after_upload_handover st ls file reply path info :
  In (Navigate path info) (snd (after_upload JSON_stringify st ls file reply)) ->
  path = "/record"
  /\ fst (after_upload JSON_stringify st ls file reply)
     = <["currentSegment" := JSON_stringify (SegmentInfo_json info)]> ls
  /\ info = {| segmentId := match reply with
                            | Normal result => prop result "id"
                            | Throw _ => None
                            end;
               fileName := file_name file;
               seg_startTime := startTime st;
               seg_endTime := endTime st |}
  /\ exists result, reply = Normal result /\ result <> JNull.
Proof.
  unfold after_upload. destruct reply as [result | e].
  - destruct result; cbn [get prop fst snd app];
      try (intros [H | [H | [H | [ ] ] ] ]; try discriminate;
           injection H as <- <-;
           (split; [reflexivity | split; [reflexivity | split; [reflexivity | ] ] ]);
           eexists; split; [reflexivity | discriminate]).
    intros [H | [H | [H | [H | [ ] ] ] ] ]; discriminate.
  - cbn [snd]. intros [H | [H | [ ] ] ]; discriminate.
Qed.

Lemma after_upload_stays st ls file reply :
  ~ navigates (snd (after_upload JSON_stringify st ls file reply)) ->
  fst (after_upload JSON_stringify st ls file reply) = ls.
Proof.
  unfold after_upload, navigates. destruct reply as [result | e]; [ | reflexivity].
  destruct (get result "id") as [id | e]; [ | reflexivity].
  cbn [fst snd]. intros Hnone. exfalso. apply Hnone.
  eexists _, _. apply in_or_app. right. left. reflexivity.
Qed.

(** What the home page hands to the Record page is what it leaves in
    local storage. Whenever pressing the button navigates, it is to
    [/record], with the id the server returned, the name of the selected
    file and the selection as it stands, and the [currentSegment] entry
    holds the serialization of that very object; whenever it does not
    navigate (nothing selected, wrong length, failed or unusable reply),
    local storage is exactly as before. *)
Theorem handover_matches_storage st ls reply :
  let result := handleUpload Number_toString JSON_stringify st ls reply in
  (forall path info, In (Navigate path info) (snd result) ->
      path = "/record"
      /\ snd (fst result)
         = <["currentSegment" := JSON_stringify (SegmentInfo_json info)]> ls
      /\ seg_startTime info = startTime st
      /\ seg_endTime info = endTime st
      /\ (exists file, selectedFile st = Some file /\ fileName info = file_name file)
      /\ (exists answer, reply = Normal answer /\ segmentId info = prop answer "id"))
  /\ (~ navigates (snd result) -> snd (fst result) = ls).
Proof.
  intros result. subst result. unfold handleUpload.
  destruct (selectedFile st) as [file | ];
    [ | split; [intros ? ? [ ] | reflexivity] ].
  destruct (selectedDuration st) as [target | ];
    [ | split; [intros ? ? [ ] | reflexivity] ].
  destruct (truthy_num target); [ | split; [intros ? ? [ ] | reflexivity] ].
  destruct (isDurationValid st target);
    [ | split; [intros ? ? [H | [ ] ]; discriminate | reflexivity] ].
  pose proof (after_upload_handover st ls file reply) as Hhandover.
  pose proof (after_upload_stays st ls file reply) as Hstays.
  destruct (after_upload JSON_stringify st ls file reply) as [ls1 effects].
  cbn [fst snd] in *. split.
  - intros path info [H | Hin]; [discriminate | ].
    destruct (Hhandover path info Hin) as (Hpath & Hls & Hinfo & answer & Hreply & _).
    subst info. cbn [seg_startTime seg_endTime fileName segmentId].
    repeat split; try assumption.
    + now exists file.
    + exists answer. now rewrite Hreply.
  - intros Hnone. apply Hstays. intros (path & info & Hin). apply Hnone.
    exists path, info. now right.
Qed.

(** A segment survives the way from the home page to the Record page.
    After an upload that the server answered with a truthy id, the Record
    page reads the same id, file name, start and end, both from the
    navigation state the home page passed and, when that state is gone or
    carries no truthy [segmentId] (a reload in a fresh tab), from the
    [currentSegment] entry, provided the object survives
    [JSON.parse(JSON.stringify(...))]. *)
Theorem segment_reaches_record_page st ls file target answer id :
  selectedFile st = Some file ->
  selectedDuration st = Some target ->
  truthy_num target = true ->
  isDurationValid st target = true ->
  prop answer "id" = Some id ->
  truthy id = true ->
  let info :=
    {| segmentId := Some id; fileName := file_name file;
       seg_startTime := startTime st; seg_endTime := endTime st |} in
  JSON_parse (JSON_stringify (SegmentInfo_json info)) = Some (SegmentInfo_json info) ->
  JSON_stringify (SegmentInfo_json info) <> "" ->
  let result := handleUpload Number_toString JSON_stringify st ls (Normal answer) in
  In (Navigate "/record" info) (snd result)
  /\ Submission.segment_of JSON_parse
       {| Submission.location_state := SegmentInfo_json info;
          Submission.storage := snd (fst result) |}
     = Normal (Segment_of_info info)
  /\ (forall other, truthy_opt (prop other "segmentId") = false ->
      Submission.segment_of JSON_parse
        {| Submission.location_state := other;
           Submission.storage := snd (fst result) |}
      = Normal (Segment_of_info info)).
Proof.
  intros Hfile Htarget Htruthy Hvalid Hid Hreal info Hround Hnonempty result.
  subst result. unfold handleUpload, after_upload.
  rewrite Hfile, Htarget, Htruthy, Hvalid.
  assert (Hget : get answer "id" = Normal (Some id)).
  { destruct answer; try discriminate. cbn [get]. now rewrite Hid. }
  rewrite Hget. cbn [fst snd]. fold info.
  assert (Hdestructure :
    Submission.destructure (SegmentInfo_json info) = Normal (Segment_of_info info)).
  { reflexivity. }
  split; [right; apply in_or_app; right; now left | ].
  split.
  - unfold Submission.segment_of, Submission.getSegmentInfo.
    cbn [Submission.location_state Submission.storage].
    match goal with
    | |- Submission.destructure (if ?test then _ else _) = _ =>
        change test with (truthy id)
    end.
    rewrite Hreal. exact Hdestructure.
  - intros other Hother.
    unfold Submission.segment_of, Submission.getSegmentInfo.
    cbn [Submission.location_state Submission.storage].
    match goal with
    | |- Submission.destructure (if ?test then _ else _) = _ =>
        assert (Hfrom : test = false)
          by (destruct other; try exact Hother; reflexivity);
        rewrite Hfrom
    end.
    rewrite lookup_insert_eq.
    assert (Hstored : truthy_str (JSON_stringify (SegmentInfo_json info)) = true).
    { destruct (JSON_stringify (SegmentInfo_json info)); [congruence | reflexivity]. }
    rewrite Hstored, Hround. exact Hdestructure.
Qed.

End Facts.

(** *** Closed examples *)

(** A serializer and a parser that agree on the handed-over object of the
    example. *)
Definition handed_over : SegmentInfo :=
  {| segmentId := Some (JNum 7); fileName := "song.mp3";
     seg_startTime := 10; seg_endTime := 40 |}.

Definition stringify_handed_over (j : json) : string := "segment".

Definition parse_handed_over (text : string) : option json :=
  if String.eqb text "segment" then Some (SegmentInfo_json handed_over) else None.

Lemma segment_reaches_record_page_witness :
  Submission.segment_of parse_handed_over
    {| Submission.location_state := JNull;
       Submission.storage :=
         snd (fst (handleUpload Number_toString_integral stringify_handed_over
                     region_10_40 ∅ uploaded)) |}
  = Normal {| Submission.segmentId := Some (JNum 7);
              Submission.fileName := Some (JStr "song.mp3");
              Submission.startTime := Some (JNum 10);
              Submission.endTime := Some (JNum 40) |}.
Proof.
  destruct (segment_reaches_record_page parse_handed_over stringify_handed_over
              Number_toString_integral region_10_40 ∅ song 30%float
              (JObj [("id", JNum 7)]) (JNum 7)
              eq_refl eq_refl eq_refl eq_refl eq_refl eq_refl eq_refl)
    as (_ & _ & Hstorage); [discriminate | ].
  exact (Hstorage JNull eq_refl).
Defined.

End Handover.


(* ===================================================================== *)
(** ** More of pages/Record: how a submission ends                        *)
(* ===================================================================== *)

Module SubmissionMore.

Import Submission.

Definition is_navigation (e : effect) : bool :=
  match e with
  | Navigate _ => true
  | _ => false
  end.

Definition is_removal (e : effect) : bool :=
  match e with
  | RemoveItem _ => true
  | _ => false
  end.

Definition is_success_toast (e : effect) : bool :=
  match e with
  | ToastSuccess _ => true
  | _ => false
  end.

Definition is_failure_toast (e : effect) : bool :=
  match e with
  | ToastError text => String.eqb text "Failed to analyze recording"
  | _ => false
  end.

(** [setIsAnalyzing(false)]. *)
Definition is_release (e : effect) : bool :=
  match e with
  | SetIsAnalyzing false => true
  | _ => false
  end.

(** A request was issued. *)
Definition called (effects : list effect) : bool :=
  match List.filter is_network effects with
  | [] => false
  | _ :: _ => true
  end.

Section Facts.

Variable Number_toString : float -> string.
Variable parseInt : string -> float.

(** What a submission that got past the two guards performs;
    [wasAnalyzing] is [isAnalyzing] as the click finds it. *)
Definition attempt (wasAnalyzing : bool) (seg : Segment) (audioFile : File)
    (surplus : list json) (upload_reply analyze_reply : awaited json) : list effect :=
  SetIsAnalyzing true
    :: try_catch_finally
         (segmentIdNum <- segmentIdNum_of Number_toString parseInt (segmentId seg) ;;
          upload_and_analyze Number_toString wasAnalyzing segmentIdNum audioFile surplus
            upload_reply analyze_reply)
         on_failure at_last.

(** The effects of a press on the submit button, on either revision of
    the page and in any state of it. *)
Inductive submitted (user : json) (seg : Segment)
    (upload_reply analyze_reply : awaited json) : list effect -> Prop :=
| on_record_page (st : RecordPage.State) :
    submitted user seg upload_reply analyze_reply
      (snd (RecordPage.handleSubmitAnalysis Number_toString parseInt user seg st
              upload_reply analyze_reply))
| on_modes_page (st : RecordPageModes.State) :
    submitted user seg upload_reply analyze_reply
      (snd (RecordPageModes.handleSubmitAnalysis Number_toString parseInt user seg st
              upload_reply analyze_reply)).

(** The segment id the upload goes against, when the page has one. *)
Definition usable_segment (seg : Segment) : option float :=
  match toString_method Number_toString (segmentId seg) with
  | Normal text =>
      if PrimFloat.is_nan (parseInt text) then None else Some (parseInt text)
  | Throw _ => None
  end.

(** The recording id the analysis goes against, when the upload gave one. *)
Definition recording_of (upload_reply : awaited json) : option string :=
  match upload_reply with
  | Settles (Normal data) =>
      match get data "id" with
      | Normal id =>
          match toString_method Number_toString id with
          | Normal text => Some text
          | Throw _ => None
          end
      | Throw _ => None
      end
  | _ => None
  end.

(** The page to go to, when the analysis gave a result whose id can be
    printed. *)
Definition destination (analyze_reply : awaited json) : option string :=
  match analyze_reply with
  | Settles (Normal data) =>
      match get data "id" with
      | Normal id =>
          match ToString_opt Number_toString id with
          | Normal text => Some ("/results/" +:+ text)
          | Throw _ => None
          end
      | Throw _ => None
      end
  | _ => None
  end.

(** The submission waits for a call that does not settle: the upload, or
    the analysis once the upload has given a recording id. *)
Definition stuck (seg : Segment) (upload_reply analyze_reply : awaited json) : bool :=
  match usable_segment seg with
  | None => false
  | Some _ =>
      match upload_reply with
      | Pends => true
      | Settles _ =>
          match recording_of upload_reply, analyze_reply with
          | Some _, Pends => true
          | _, _ => false
          end
      end
  end.

Definition failed : list effect := on_failure ++ at_last.

(** The effects of an attempt, stage by stage. *)
Lemma attempt_stages wasAnalyzing seg audioFile surplus upload_reply analyze_reply :
  attempt wasAnalyzing seg audioFile surplus upload_reply analyze_reply
  = SetIsAnalyzing true ::
    match usable_segment seg with
    | None => failed
    | Some n =>
        UploadRecording audioFile n surplus :: commit wasAnalyzing true ++
        match upload_reply with
        | Pends => []
        | Settles _ =>
            match recording_of upload_reply with
            | None => failed
            | Some recordingId =>
                AnalyzeRecording (Number_toString n) recordingId ::
                match analyze_reply with
                | Pends => []
                | Settles (Throw _) => failed
                | Settles (Normal _) =>
                    RemoveItem "currentSegment" :: ToastSuccess "Analysis complete!" ::
                    match destination analyze_reply with
                    | None => failed
                    | Some path => Navigate path :: at_last
                    end
                end
            end
        end
    end.
Proof.
  unfold attempt, usable_segment, recording_of, destination, failed,
    segmentIdNum_of, upload_and_analyze.
  f_equal.
  destruct (toString_method Number_toString (segmentId seg)) as [text | e];
    [ | reflexivity].
  cbn [lift mbind app]. destruct (PrimFloat.is_nan (parseInt text)); [reflexivity | ].
  cbn [ret lift emit emits await mbind app try_catch_finally].
  destruct upload_reply as [[data | e] | ];
    cbn [ret lift emit emits await mbind app try_catch_finally];
    [ | now rewrite ?app_nil_r | now rewrite ?app_nil_r].
  destruct (get data "id") as [id | e];
    cbn [ret lift emit emits await mbind app try_catch_finally];
    [ | now rewrite ?app_nil_r].
  destruct (toString_method Number_toString id) as [recordingId | e];
    cbn [ret lift emit emits await mbind app try_catch_finally];
    [ | now rewrite ?app_nil_r].
  destruct analyze_reply as [[result | e] | ];
    cbn [ret lift emit emits await mbind app try_catch_finally];
    [ | now rewrite <- ?app_assoc | now rewrite <- ?app_assoc, ?app_nil_r].
  destruct (get result "id") as [id' | e];
    cbn [ret lift emit emits await mbind app try_catch_finally];
    [ | now rewrite <- ?app_assoc].
  destruct (ToString_opt Number_toString id') as [text' | e];
    cbn [ret lift emit emits await mbind app try_catch_finally];
    now rewrite <- ?app_assoc.
Qed.

Lemma record_page_attempt user seg st blob upload_reply analyze_reply :
  truthy user = true ->
  RecordPage.recordedBlob st = Some blob ->
  snd (RecordPage.handleSubmitAnalysis Number_toString parseInt user seg st
         upload_reply analyze_reply)
  = attempt (RecordPage.isAnalyzing st) seg
      (File_of_blob blob "recording.webm" "audio/webm") [] upload_reply analyze_reply.
Proof.
  intros Huser Hblob. unfold RecordPage.handleSubmitAnalysis.
  now rewrite Huser, Hblob.
Qed.

Lemma submitted_cases user seg upload_reply analyze_reply effects :
  submitted user seg upload_reply analyze_reply effects ->
  effects = []
  \/ effects = [ToastError "Please record your singing first"]
  \/ effects = [ToastError "Please upload an audio file first"]
  \/ exists wasAnalyzing audioFile surplus,
       effects = attempt wasAnalyzing seg audioFile surplus upload_reply analyze_reply.
Proof.
  intros [st | st].
  - unfold RecordPage.handleSubmitAnalysis.
    destruct (negb (truthy user)); [now left | ].
    destruct (RecordPage.recordedBlob st) as [blob | ]; [ | now right; left].
    right; right; right. now eexists _, _, _.
  - unfold RecordPageModes.handleSubmitAnalysis.
    destruct (negb (truthy user)); [now left | ].
    destruct (RecordPageModes.mode st).
    + destruct (RecordPageModes.recordedBlob st) as [blob | ]; [ | now right; left].
      right; right; right. now eexists _, _, _.
    + destruct (RecordPageModes.uploadedFile st) as [file | ];
        [ | now right; right; left].
      right; right; right. now eexists _, _, _.
Qed.

Lemma modes_page_cases user seg st upload_reply analyze_reply :
  let effects :=
    snd (RecordPageModes.handleSubmitAnalysis Number_toString parseInt user seg st
           upload_reply analyze_reply) in
  effects = []
  \/ effects = [ToastError "Please record your singing first"]
  \/ effects = [ToastError "Please upload an audio file first"]
  \/ exists audioFile surplus,
       effects = attempt (RecordPageModes.isAnalyzing st) seg audioFile surplus
                   upload_reply analyze_reply.
Proof.
  cbn zeta. unfold RecordPageModes.handleSubmitAnalysis.
  destruct (negb (truthy user)); [now left | ].
  destruct (RecordPageModes.mode st).
  - destruct (RecordPageModes.recordedBlob st) as [blob | ]; [ | now right; left].
    right; right; right. now eexists _, _.
  - destruct (RecordPageModes.uploadedFile st) as [file | ];
      [ | now right; right; left].
    right; right; right. now eexists _, _.
Qed.

Lemma record_page_cases user seg st upload_reply analyze_reply :
  let effects :=
    snd (RecordPage.handleSubmitAnalysis Number_toString parseInt user seg st
           upload_reply analyze_reply) in
  effects = []
  \/ effects = [ToastError "Please record your singing first"]
  \/ exists audioFile surplus,
       effects = attempt (RecordPage.isAnalyzing st) seg audioFile surplus
                   upload_reply analyze_reply.
Proof.
  cbn zeta. unfold RecordPage.handleSubmitAnalysis.
  destruct (negb (truthy user)); [now left | ].
  destruct (RecordPage.recordedBlob st) as [blob | ]; [ | now right; left].
  right; right. now eexists _, _.
Qed.

(** A submission ends when its calls settle, and only then. Once the page
    shows as busy: if every call the handler gets to wait for settles,
    the last thing the handler does is to clear the busy flag, and before
    that it does exactly one of two things, navigate to a result page or
    show "Failed to analyze recording"; if a call it waits for never
    settles, the flag is never cleared, and the handler neither navigates
    nor shows that message. *)
Theorem submission_ends_with_its_calls user seg upload_reply analyze_reply effects :
  submitted user seg upload_reply analyze_reply effects ->
  In (SetIsAnalyzing true) effects ->
  head effects = Some (SetIsAnalyzing true)
  /\ (stuck seg upload_reply analyze_reply = false ->
      last effects = Some (SetIsAnalyzing false)
      /\ length (List.filter is_navigation effects)
         + length (List.filter is_failure_toast effects) = 1)
  /\ (stuck seg upload_reply analyze_reply = true ->
      List.filter is_release effects = []
      /\ List.filter is_navigation effects = []
      /\ List.filter is_failure_toast effects = []).
Proof.
  intros Hsubmitted Hbusy.
  destruct (submitted_cases _ _ _ _ _ Hsubmitted)
    as [-> | [-> | [-> | (wasAnalyzing & audioFile & surplus & ->)] ] ].
  - destruct Hbusy.
  - destruct Hbusy as [H | [ ] ]; discriminate.
  - destruct Hbusy as [H | [ ] ]; discriminate.
  - clear. rewrite attempt_stages. unfold stuck, failed, on_failure, at_last, commit, cleanup.
    destruct (usable_segment seg) as [n | ]; [ | now repeat split].
    destruct upload_reply as [settled | ];
      [ | destruct wasAnalyzing; now repeat split].
    destruct (recording_of (Settles settled)) as [recordingId | ];
      [ | destruct wasAnalyzing; now repeat split].
    destruct analyze_reply as [[result | e'] | ];
      [ | destruct wasAnalyzing; now repeat split
        | destruct wasAnalyzing; now repeat split].
    destruct (destination (Settles (Normal result))) as [path | ];
      destruct wasAnalyzing; now repeat split.
Qed.


Lemma attempt_storage seg audioFile surplus upload_reply analyze_reply (ls : Storage) :
  let effects := attempt false seg audioFile surplus upload_reply analyze_reply in
  storage_after effects ls
  = if called effects then delete "currentSegment" ls else ls.
Proof.
  cbn zeta. rewrite attempt_stages.
  unfold called, failed, on_failure, at_last, commit, cleanup.
  destruct (usable_segment seg) as [n | ]; [ | reflexivity].
  destruct upload_reply as [settled | ]; [ | reflexivity].
  destruct (recording_of (Settles settled)) as [recordingId | ]; [ | reflexivity].
  destruct analyze_reply as [[result | e'] | ]; [ | reflexivity | reflexivity].
  destruct (destination (Settles (Normal result))) as [path | ];
    cbn [app storage_after List.filter is_network wrapper_of Bool.eqb];
    now rewrite delete_delete_eq.
Qed.

(** The stored segment goes with the upload. On either revision of the
    page, a submission made while the page is not analysing (the button
    is disabled while it is) removes the [currentSegment] entry as soon as
    it issues a request, whatever becomes of the two calls: the page's
    effect cleanup removes it when the busy flag is committed. A
    submission that issues no request leaves local storage as it was.
    Once the entry is gone, a render of the page that has no segment id
    in its location state reads an empty segment info. *)
Theorem stored_segment_goes_with_the_upload
    user seg upload_reply analyze_reply (ls : Storage) :
  (forall JSON_parse state,
      truthy_opt (prop state "segmentId") = false ->
      getSegmentInfo JSON_parse
        {| location_state := state; storage := delete "currentSegment" ls |}
      = JObj [])
  /\ (forall st : RecordPage.State,
      RecordPage.isAnalyzing st = false ->
      let effects :=
        snd (RecordPage.handleSubmitAnalysis Number_toString parseInt user seg st
               upload_reply analyze_reply) in
      storage_after effects ls
      = if called effects then delete "currentSegment" ls else ls)
  /\ (forall st : RecordPageModes.State,
        RecordPageModes.isAnalyzing st = false ->
        let effects :=
          snd (RecordPageModes.handleSubmitAnalysis Number_toString parseInt user seg st
                 upload_reply analyze_reply) in
        storage_after effects ls
        = if called effects then delete "currentSegment" ls else ls).
Proof.
  split.
  { intros JSON_parse state Hnone. unfold getSegmentInfo.
    cbn [location_state storage]. rewrite lookup_delete_eq.
    destruct state; cbn in Hnone |- *; try reflexivity; now rewrite Hnone. }
  split; intros st Hidle effects; subst effects.
  - destruct (record_page_cases user seg st upload_reply analyze_reply)
      as [-> | [-> | (audioFile & surplus & ->)] ]; try reflexivity.
    rewrite Hidle. apply attempt_storage.
  - destruct (modes_page_cases user seg st upload_reply analyze_reply)
      as [-> | [-> | [-> | (audioFile & surplus & ->)] ] ]; try reflexivity.
    rewrite Hidle. apply attempt_storage.
Qed.

End Facts.

(** *** Closed examples *)

Definition page_with_take : RecordPage.State :=
  RecordPage.handleRecordingComplete RecordPage.initial RecordFacts.take.

Lemma submission_ends_with_its_calls_witness :
  last (snd (RecordPage.handleSubmitAnalysis Number_toString_integral
               RecordFacts.parseInt_decimal RecordFacts.member RecordFacts.segment_12
               page_with_take
               (Settles (Normal (JObj [("id", JNum 5)]))) (Settles (Throw TypeError))))
  = Some (SetIsAnalyzing false)
  /\ List.filter is_release
       (snd (RecordPage.handleSubmitAnalysis Number_toString_integral
               RecordFacts.parseInt_decimal RecordFacts.member RecordFacts.segment_12
               page_with_take Pends Pends))
     = [].
Proof.
  split.
  - assert (Hbusy : submitted Number_toString_integral RecordFacts.parseInt_decimal
                      RecordFacts.member RecordFacts.segment_12
                      (Settles (Normal (JObj [("id", JNum 5)])))
                      (Settles (Throw TypeError)) _)
      by apply (on_record_page _ _ _ _ _ _ page_with_take).
    apply submission_ends_with_its_calls in Hbusy; [ | left; reflexivity].
    now apply (proj1 (proj2 Hbusy)).
  - assert (Hbusy : submitted Number_toString_integral RecordFacts.parseInt_decimal
                      RecordFacts.member RecordFacts.segment_12 Pends Pends _)
      by apply (on_record_page _ _ _ _ _ _ page_with_take).
    apply submission_ends_with_its_calls in Hbusy; [ | left; reflexivity].
    now apply (proj2 (proj2 Hbusy)).
Defined.


Lemma stored_segment_goes_with_the_upload_witness :
  storage_after
    (snd (RecordPage.handleSubmitAnalysis Number_toString_integral
            RecordFacts.parseInt_decimal RecordFacts.member RecordFacts.segment_12
            page_with_take (Settles (Throw TypeError)) Pends))
    (<["currentSegment" := "{}"]> ∅)
  !! "currentSegment" = None.
Proof.
  rewrite (proj1 (proj2 (stored_segment_goes_with_the_upload Number_toString_integral
                           RecordFacts.parseInt_decimal RecordFacts.member
                           RecordFacts.segment_12 (Settles (Throw TypeError)) Pends
                           (<["currentSegment" := "{}"]> ∅)))
             page_with_take eq_refl).
  reflexivity.
Defined.

End SubmissionMore.


(* ===================================================================== *)
(** ** More of components/FileUpload and its use on the home page         *)
(* ===================================================================== *)

Module FileUploadMore.

Import FileUpload.

(** The component answers: it calls back, or it alerts. *)
Definition is_reaction (e : effect) : bool :=
  match e with
  | OnFileSelect _ => true
  | Alert _ => true
  | PreventDefault => false
  end.

Lemma select_if_small_one props file :
  List.filter is_reaction (select_if_small props file) = select_if_small props file
  /\ length (select_if_small props file) = 1.
Proof. unfold select_if_small. now destruct (file_size file <=? maxSize props)%N. Qed.

Lemma select_if_small_alert props file text :
  In (Alert text) (select_if_small props file) ->
  text = too_large /\ (maxSize props < file_size file)%N.
Proof.
  unfold select_if_small.
  destruct (N.leb_spec (file_size file) (maxSize props)) as [Hle | Hlt];
    intros [H | [ ] ]; [discriminate | ].
  injection H as <-. now split.
Qed.

(** Whatever is offered, the component answers at most once, and only
    about the first file of the offer: the callback receives no other
    file, an alert is never combined with the callback, and the one alert
    there is speaks of 50MB whatever ceiling was configured. *)
Theorem one_reaction_per_offer props st o :
  let effects := snd (handle props st o) in
  length (List.filter is_reaction effects) <= 1
  /\ (forall file, selected file effects ->
      offered o = Some file /\ (file_size file <= maxSize props)%N)
  /\ (forall text, In (Alert text) effects ->
      text = "File is too large. Maximum size is 50MB."
      /\ exists file, offered o = Some file /\ (maxSize props < file_size file)%N)
  /\ (alerted effects -> forall file, ~ selected file effects).
Proof.
  intros effects. subst effects. unfold selected, alerted.
  assert (Hexclusive : forall file g,
    alerted (select_if_small props file) ->
    ~ In (OnFileSelect g) (select_if_small props file)).
  { intros file g Halert Hin. apply select_if_small_alerted in Halert.
    apply select_if_small_selected in Hin. lia. }
  destruct o as [ [ | first rest] | [ [ | first rest] | ] ];
    cbn [handle handleDrop handleFileInput snd offered head List.filter is_reaction length];
    try (split; [lia | split; [intros ? [H | [ ] ]; discriminate | ];
         split; [intros ? [H | [ ] ]; discriminate | ];
         intros _ ? [H | [ ] ]; discriminate]);
    try (split; [lia | split; [intros ? [ ] | ];
         split; [intros ? [ ] | intros _ ? [ ] ] ]).
  - (* dropped *)
    destruct (is_audio first).
    + destruct (select_if_small_one props first) as (Hfilter & Hlength).
      rewrite Hfilter, Hlength. split; [lia | ].
      split.
      { intros file [H | Hin]; [discriminate | ].
        apply select_if_small_selected in Hin as (-> & Hle). now split. }
      split.
      { intros text [H | Hin]; [discriminate | ].
        apply select_if_small_alert in Hin as (-> & Hlt).
        split; [reflexivity | now exists first]. }
      intros (text & [H | Hin]) file [H' | Hin']; try discriminate.
      apply (Hexclusive first file); [now exists text | exact Hin'].
    + cbn [List.filter length]. split; [lia | ].
      split; [intros ? [H | [ ] ]; discriminate | ].
      split; [intros ? [H | [ ] ]; discriminate | ].
      intros _ ? [H | [ ] ]; discriminate.
  - (* picked *)
    destruct (select_if_small_one props first) as (Hfilter & Hlength).
    rewrite Hfilter, Hlength. split; [lia | ].
    split.
    { intros file Hin.
      apply select_if_small_selected in Hin as (-> & Hle). now split. }
    split.
    { intros text Hin.
      apply select_if_small_alert in Hin as (-> & Hlt).
      split; [reflexivity | now exists first]. }
    intros Halert file. now apply Hexclusive.
Qed.

End FileUploadMore.


Module HomeFlow.

Import IndexPage.

(** The home page with the intake component it renders,
    [<FileUpload onFileSelect={handleFileSelect} />], which leaves
    [accept] and [maxSize] at their defaults. *)
Record Home : Type := mkHome {
  page : State;
  intake : FileUpload.State
}.

Definition start : Home :=
  {| page := initial; intake := {| FileUpload.isDragging := false |} |}.

(** What happens on the page before the button is pressed: something is
    offered to the intake component ([url] is what [URL.createObjectURL]
    would return for its file), something is dragged over it or away, a
    duration button is pressed, the waveform reports a region. *)
Inductive event : Type :=
| Offered (o : FileUpload.Offer) (url : string)
| DragOver
| DragLeave
| Chosen (duration : float)
| Region (start end_ : float).

(** The page's side of the intake component's effects: the callback is
    [handleFileSelect]. *)
Definition receive (url : string) (st : State) (e : FileUpload.effect) : State :=
  match e with
  | FileUpload.OnFileSelect file => fst (handleFileSelect st file url)
  | _ => st
  end.

Definition step (h : Home) (ev : event) : Home :=
  match ev with
  | Offered o url =>
      let '(intake1, effects) := FileUpload.handle FileUpload.default_props (intake h) o in
      {| page := fold_left (receive url) effects (page h); intake := intake1 |}
  | DragOver => {| page := page h; intake := {| FileUpload.isDragging := true |} |}
  | DragLeave => {| page := page h; intake := {| FileUpload.isDragging := false |} |}
  | Chosen duration => {| page := handleDurationSelect (page h) duration; intake := intake h |}
  | Region start end_ =>
      {| page := handleRegionUpdate (page h) start end_; intake := intake h |}
  end.

Definition run (h : Home) (events : list event) : Home := fold_left step events h.

(** The file passed the intake component. *)
Definition admitted (events : list event) (file : File) : Prop :=
  exists o url,
    In (Offered o url) events
    /\ FileUpload.offered o = Some file
    /\ (file_size file <= 50 * 1024 * 1024)%N
    /\ (forall files, o = FileUpload.Dropped files -> FileUpload.is_audio file = true).

Lemma receive_selected url effects : forall st file,
  selectedFile (fold_left (receive url) effects st) = Some file ->
  selectedFile st = Some file \/ In (FileUpload.OnFileSelect file) effects.
Proof.
  induction effects as [ | e effects IH]; intros st file Hfile; [now left | ].
  cbn [fold_left] in Hfile. destruct (IH _ _ Hfile) as [Hnow | Hlater].
  - destruct e as [ | g | text]; cbn [receive] in Hnow; try (now left).
    cbn [handleFileSelect fst selectedFile] in Hnow. injection Hnow as ->.
    right. now left.
  - right. now right.
Qed.

Lemma handle_admits st o file :
  In (FileUpload.OnFileSelect file)
     (snd (FileUpload.handle FileUpload.default_props st o)) ->
  FileUpload.offered o = Some file
  /\ (file_size file <= 50 * 1024 * 1024)%N
  /\ (forall files, o = FileUpload.Dropped files -> FileUpload.is_audio file = true).
Proof.
  destruct o as [ [ | first rest] | [ [ | first rest] | ] ];
    cbn [FileUpload.handle FileUpload.handleDrop FileUpload.handleFileInput snd];
    try (intros [H | [ ] ]; discriminate); try (intros Hnone; contradiction).
  - destruct (FileUpload.is_audio first) eqn:Haudio;
      [ | intros [H | [ ] ]; discriminate].
    intros [H | Hin]; [discriminate | ].
    apply FileUpload.select_if_small_selected in Hin as (-> & Hle).
    repeat split; [exact Hle | ]. intros files _. exact Haudio.
  - intros Hin.
    apply FileUpload.select_if_small_selected in Hin as (-> & Hle).
    repeat split; [exact Hle | ]. intros files H. discriminate.
Qed.

Lemma run_selected (R : File -> Prop) events : forall h,
  (forall file, selectedFile (page h) = Some file -> R file) ->
  (forall o url file,
      In (Offered o url) events ->
      In (FileUpload.OnFileSelect file)
         (snd (FileUpload.handle FileUpload.default_props
                 {| FileUpload.isDragging := false |} o)) ->
      R file) ->
  forall file, selectedFile (page (run h events)) = Some file -> R file.
Proof.
  induction events as [ | ev events IH]; intros h Hnow Hlater file Hfile;
    [now apply Hnow | ].
  cbn [run fold_left] in Hfile. apply (IH (step h ev)); [ | | exact Hfile].
  - clear Hfile file. intros file Hfile.
    destruct ev as [o url | | | duration | start end_]; cbn [step page] in Hfile;
      try (now apply Hnow).
    destruct (FileUpload.handle FileUpload.default_props (intake h) o)
      as [intake1 effects] eqn:Hhandle.
    cbn [page] in Hfile. apply receive_selected in Hfile as [Hbefore | Hin];
      [now apply Hnow | ].
    apply (Hlater o url file); [now left | ].
    assert (Heffects : snd (FileUpload.handle FileUpload.default_props
                              {| FileUpload.isDragging := false |} o) = effects).
    { apply (f_equal snd) in Hhandle. cbn [snd] in Hhandle. rewrite <- Hhandle.
      now destruct o as [files | files]. }
    now rewrite Heffects.
  - intros o url g Hin. apply (Hlater o url g). now right.
Qed.

Section Facts.

Variable Number_toString : float -> string.
Variable JSON_stringify : json -> string.

(** Whatever is offered, dragged, chosen and reported on the home page
    and in whatever order, a file that the page sends to the server went
    through the intake component: it was the first file of an offer, it
    is at most 50 MB large, and if it was dropped its declared type starts
    with "audio/". The call carries the selection as it stands. *)
Theorem uploaded_file_passed_intake events ls reply w :
  let home := run start events in
  In (NetworkCall w)
     (snd (handleUpload Number_toString JSON_stringify (page home) ls reply)) ->
  exists file,
    w = Api.uploadAPI_uploadAndProcess file
          (Some (startTime (page home))) (Some (endTime (page home)))
    /\ admitted events file.
Proof.
  intros home Hcall.
  assert (Hfile : forall file, selectedFile (page home) = Some file ->
                               admitted events file).
  { apply (run_selected (admitted events) events start).
    - intros file H. discriminate.
    - intros o url file Hin Hselected.
      exists o, url. split; [exact Hin | ]. now apply handle_admits in Hselected. }
  unfold handleUpload in Hcall.
  destruct (selectedFile (page home)) as [file | ]; [ | destruct Hcall].
  destruct (selectedDuration (page home)) as [target | ]; [ | destruct Hcall].
  destruct (truthy_num target); [ | destruct Hcall].
  destruct (isDurationValid (page home) target).
  - pose proof (after_upload_offline JSON_stringify (page home) ls file reply w) as Hoff.
    destruct (after_upload JSON_stringify (page home) ls file reply) as [ls1 effects].
    cbn [snd] in *. destruct Hcall as [Heq | Hin]; [ | contradiction].
    injection Heq as <-. exists file. split; [reflexivity | now apply Hfile].
  - cbn [snd] in Hcall. destruct Hcall as [H | [ ] ]. discriminate.
Qed.

End Facts.

(** *** Closed examples *)

Lemma uploaded_file_passed_intake_witness :
  exists file,
    FileUpload.offered (FileUpload.Dropped [song]) = Some file
    /\ (file_size file <= 50 * 1024 * 1024)%N.
Proof.
  destruct (uploaded_file_passed_intake Number_toString_integral stringify_any
              [Offered (FileUpload.Dropped [song]) "blob:song"; Chosen 30; Region 10 40]
              ∅ uploaded
              (Api.uploadAPI_uploadAndProcess song (Some 10%float) (Some 40%float)))
    as (file & Hcall & o & url & Hin & Hoffered & Hsize & _).
  - left. reflexivity.
  - exists file. split; [ | exact Hsize].
    destruct Hin as [Heq | [Heq | [Heq | [ ] ] ] ]; try discriminate.
    injection Heq as <- _. exact Hoffered.
Defined.

End HomeFlow.


(* ===================================================================== *)
(** ** pages/SelectSegment: cutting a practice segment                    *)
(* ===================================================================== *)

Module SelectSegment.

Import Num NumMore.

Record State : Type := mkState {
  audioUrl : string;
  startTime : float;
  endTime : float
}.

(** The [useState] initial values. *)
Definition initial : State := {| audioUrl := ""; startTime := 0; endTime := 60 |}.

(** The object passed to the Record page; [segmentId] and [fileName] are
    what came in as [fileId] and [fileName], possibly [undefined]. *)
Record Handed : Type := mkHanded {
  segmentId : option json;
  fileName : option json;
  handed_start : float;
  handed_end : float
}.

Inductive effect : Type :=
| ToastSuccess (text : string)
| ToastError (text : string)
| Navigate (path : string) (state : option Handed).

(** [const { fileId, fileName } = location.state || {}]; [location.state]
    is [JNull] when there is none. *)
Definition incoming (location_state : json) : option json * option json :=
  let source := if truthy location_state then location_state else JObj [] in
  (prop source "fileId", prop source "fileName").

Definition with_audioUrl (st : State) (url : string) : State :=
  {| audioUrl := url; startTime := startTime st; endTime := endTime st |}.

Section WithEngine.

Variable Number_toString : float -> string.

(** The mount effect: without a file id the page leaves for the home
    page; with one it points the player at the file. *)
Definition mount (st : State) (fileId : option json)
    : State * list effect * completion unit :=
  if negb (truthy_opt fileId) then (st, [Navigate "/" None], Normal tt)
  else
    match ToString_opt Number_toString fileId with
    | Throw e => (st, [], Throw e)
    | Normal text =>
        (with_audioUrl st (Api.API_BASE_URL +:+ "/files/" +:+ text), [], Normal tt)
    end.

End WithEngine.

(** [handleRegionUpdate(start, end)]. *)
Definition handleRegionUpdate (st : State) (start end_ : float) : State :=
  {| audioUrl := audioUrl st; startTime := start; endTime := end_ |}.

(** [handleProcessSegment]. *)
Definition handleProcessSegment (fileId fileName : option json) (st : State)
    : list effect :=
  let duration := (endTime st - startTime st)%float in
  if PrimFloat.ltb duration 30 then
    [ToastError "Segment must be at least 30 seconds long"]
  else if PrimFloat.ltb 120 duration then
    [ToastError "Segment must be no longer than 2 minutes"]
  else
    [ToastSuccess "Segment selected successfully!";
     Navigate "/record"
       (Some {| segmentId := fileId; fileName := fileName;
                handed_start := startTime st; handed_end := endTime st |})].

(** The player the page renders once it has a URL:
    [<WaveformPlayer audioUrl={audioUrl} onRegionUpdate={handleRegionUpdate}
    enableRegionSelect={true} />], without a fixed duration. *)
Definition player (st : State) : WaveformPlayer.Props :=
  {| WaveformPlayer.audioUrl := audioUrl st;
     WaveformPlayer.onRegionUpdate := true;
     WaveformPlayer.enableRegionSelect := true;
     WaveformPlayer.fixedDuration := None |}.

(** The page's side of the player's effects. *)
Definition deliver (st : State) (effects : list WaveformPlayer.effect) : State :=
  fold_left
    (fun s e =>
       match e with
       | WaveformPlayer.OnRegionUpdate start end_ => handleRegionUpdate s start end_
       | _ => s
       end)
    effects st.

(** The page after its player became ready on a track of [duration]
    seconds. *)
Definition when_ready (st : State) (ws : WaveformPlayer.State) (duration : float) : State :=
  deliver st (snd (WaveformPlayer.handle (player st) ws (WaveformPlayer.Ready duration))).

(** *** Facts *)

(** Two positive numbers with the same digits, the second with the larger
    exponent: what is below the first is below the second, and the second
    is not below it. *)
Lemma below_the_smaller (x lo hi : float) (m : positive) (e e' : Z) :
  (e < e')%Z ->
  Prim2SF lo = S754_finite false m e ->
  Prim2SF hi = S754_finite false m e' ->
  (PrimFloat.ltb x lo = true -> PrimFloat.ltb x hi = true)
  /\ (PrimFloat.leb x lo = true -> PrimFloat.ltb hi x = false).
Proof.
  intros Hlt Hlo Hhi. rewrite !ltb_spec, leb_spec, Hlo, Hhi.
  unfold SFltb, SFleb.
  destruct (Prim2SF x) as [s | s | | s mx ex]; cbn [SFcompare].
  - split; [reflexivity | reflexivity].
  - destruct s; split; try reflexivity; discriminate.
  - split; discriminate.
  - destruct s; [split; reflexivity | ].
    destruct (Z.compare_spec ex e) as [Heq | Hbelow | Habove].
    + subst ex.
      assert (H1 : (e ?= e')%Z = Lt) by now apply Z.compare_lt_iff.
      assert (H2 : (e' ?= e)%Z = Gt) by (apply Z.compare_gt_iff; lia).
      rewrite H1, H2. split; reflexivity.
    + assert (H1 : (ex ?= e')%Z = Lt) by (apply Z.compare_lt_iff; lia).
      assert (H2 : (e' ?= ex)%Z = Gt) by (apply Z.compare_gt_iff; lia).
      rewrite H1, H2. split; reflexivity.
    + split; discriminate.
Qed.

Lemma when_ready_region st ws duration :
  when_ready st ws duration
  = {| audioUrl := audioUrl st; startTime := 0; endTime := Math_min 60 duration |}.
Proof.
  unfold when_ready. cbn [WaveformPlayer.handle player WaveformPlayer.enableRegionSelect
                          WaveformPlayer.report WaveformPlayer.onRegionUpdate snd].
  cbn [deliver fold_left handleRegionUpdate audioUrl].
  now rewrite WaveformPlayer.defaultEnd_free.
Qed.

(** What the page makes of the region its player seeds, if the button is
    pressed before the region is touched. On a track of at least 30
    seconds the seeded region is accepted as it is: the page hands the
    file over to the Record page with the interval from 0 to
    [min(60, duration)]. On a track shorter than 30 seconds it is turned
    down as too short, and nothing is handed over. *)
Theorem seeded_segment_verdict st ws duration fileId fileName :
  let ready := when_ready st ws duration in
  startTime ready = 0%float
  /\ endTime ready = Math_min 60 duration
  /\ (PrimFloat.leb 30 duration = true ->
      handleProcessSegment fileId fileName ready
      = [ToastSuccess "Segment selected successfully!";
         Navigate "/record"
           (Some {| segmentId := fileId; fileName := fileName;
                    handed_start := 0; handed_end := Math_min 60 duration |})])
  /\ (PrimFloat.ltb duration 30 = true ->
      handleProcessSegment fileId fileName ready
      = [ToastError "Segment must be at least 30 seconds long"]).
Proof.
  intros ready. subst ready. rewrite when_ready_region.
  split; [reflexivity | split; [reflexivity | ] ].
  unfold handleProcessSegment. cbn [startTime endTime]. rewrite sub_zero.
  split.
  - intros Hlong.
    destruct (leb_not_nan _ _ Hlong) as (_ & Hnan).
    destruct (Math_min_bounds 60 duration eq_refl Hnan) as (Hcases & Hbelow & _).
    assert (Hnot_short : PrimFloat.ltb (Math_min 60 duration) 30 = false).
    { destruct Hcases as [-> | ->]; [reflexivity | now apply leb_not_ltb]. }
    assert (Hnot_long : PrimFloat.ltb 120 (Math_min 60 duration) = false).
    { apply (below_the_smaller _ 60 120 8444249301319680 (-47) (-46));
        [lia | reflexivity | reflexivity | exact Hbelow]. }
    now rewrite Hnot_short, Hnot_long.
  - intros Hshort.
    assert (Hbelow : PrimFloat.ltb duration 60 = true).
    { apply (below_the_smaller _ 30 60 8444249301319680 (-48) (-47));
        [lia | reflexivity | reflexivity | exact Hshort]. }
    destruct (leb_not_nan _ _ (ltb_leb _ _ Hshort)) as (Hnan & _).
    assert (Hmin : Math_min 60 duration = duration).
    { unfold Math_min. rewrite Hnan, Hbelow.
      now rewrite (leb_not_ltb _ _ (ltb_leb _ _ Hbelow)). }
    now rewrite Hmin, Hshort.
Qed.

(** *** Closed examples *)

Example three_minute_track :
  handleProcessSegment (Some (JNum 7)) (Some (JStr "song.mp3"))
    (when_ready initial WaveformPlayer.initial 180)
  = [ToastSuccess "Segment selected successfully!";
     Navigate "/record"
       (Some {| segmentId := Some (JNum 7); fileName := Some (JStr "song.mp3");
                handed_start := 0; handed_end := 60 |})].
Proof. reflexivity. Qed.

End SelectSegment.


(* ===================================================================== *)
(** ** pages/Results: listening to the segment and to the take            *)
(* ===================================================================== *)

Module ResultsPlayback.

(** Which of the two recordings an audio element plays. *)
Inductive Kind : Type := OfSegment | OfRecording.

(** The state variables the two toggles read and write, and the audio
    elements created so far: element [n] is the [n]th of [audios], and its
    [onended] listener clears the flag of its kind. [segment] and
    [recording] are what the page fetched ([JNull] when it has not). *)
Record State : Type := mkState {
  segment : json;
  recording : json;
  playingSegment : bool;
  playingRecording : bool;
  segmentAudio : option nat;
  recordingAudio : option nat;
  audios : list Kind
}.

Definition loaded (segment recording : json) : State :=
  {| segment := segment; recording := recording;
     playingSegment := false; playingRecording := false;
     segmentAudio := None; recordingAudio := None; audios := [] |}.

Inductive effect : Type :=
| NewAudio (aid : nat) (url : string)
| AudioPlay (aid : nat)
| AudioPause (aid : nat).

(** [audio?.pause()]. *)
Definition pause (audio : option nat) : list effect :=
  match audio with
  | Some aid => [AudioPause aid]
  | None => []
  end.

(** [s.replace(/^\.\/?storage\//, '')]. *)
Definition cleanPath (filePath : string) : string :=
  if String.prefix "./storage/" filePath
  then String.substring 10 (String.length filePath - 10) filePath
  else if String.prefix ".storage/" filePath
  then String.substring 9 (String.length filePath - 9) filePath
  else filePath.

Section WithEngine.

(** [encodeURIComponent] of the language; it throws on a malformed
    string. *)
Variable encodeURIComponent : string -> completion string.

(** [getAudioUrl(filePath)]: only a string has a [replace] to call. *)
Definition getAudioUrl (filePath : option json) : completion string :=
  match filePath with
  | Some (JStr path) =>
      bind (encodeURIComponent (cleanPath path))
           (fun encoded => Normal (Api.API_BASE_URL +:+ "/api/audio/" +:+ encoded))
  | _ => Throw TypeError
  end.

(** [info.vocal_file_path || info.file_path]. *)
Definition path_of (info : json) : option json :=
  if truthy_opt (prop info "vocal_file_path") then prop info "vocal_file_path"
  else prop info "file_path".

(** [toggleSegmentPlay]. When [getAudioUrl] throws, the handler ends
    there, after the state updates it has already requested. *)
Definition toggleSegmentPlay (st : State) : State * list effect :=
  if negb (truthy (segment st)) then (st, [])
  else if playingSegment st then
    ({| segment := segment st; recording := recording st;
        playingSegment := false; playingRecording := playingRecording st;
        segmentAudio := segmentAudio st; recordingAudio := recordingAudio st;
        audios := audios st |},
     pause (segmentAudio st))
  else
    (* if (playingRecording) { recordingAudio?.pause(); setPlayingRecording(false); } *)
    let stopped := if playingRecording st then pause (recordingAudio st) else [] in
    let recordingFlag := if playingRecording st then false else playingRecording st in
    match getAudioUrl (path_of (segment st)) with
    | Throw _ =>
        ({| segment := segment st; recording := recording st;
            playingSegment := playingSegment st; playingRecording := recordingFlag;
            segmentAudio := segmentAudio st; recordingAudio := recordingAudio st;
            audios := audios st |},
         stopped)
    | Normal url =>
        let aid := length (audios st) in
        ({| segment := segment st; recording := recording st;
            playingSegment := true; playingRecording := recordingFlag;
            segmentAudio := Some aid; recordingAudio := recordingAudio st;
            audios := audios st ++ [OfSegment] |},
         stopped ++ [NewAudio aid url; AudioPlay aid])
    end.

(** [toggleRecordingPlay]. *)
Definition toggleRecordingPlay (st : State) : State * list effect :=
  if negb (truthy (recording st)) then (st, [])
  else if playingRecording st then
    ({| segment := segment st; recording := recording st;
        playingSegment := playingSegment st; playingRecording := false;
        segmentAudio := segmentAudio st; recordingAudio := recordingAudio st;
        audios := audios st |},
     pause (recordingAudio st))
  else
    (* if (playingSegment) { segmentAudio?.pause(); setPlayingSegment(false); } *)
    let stopped := if playingSegment st then pause (segmentAudio st) else [] in
    let segmentFlag := if playingSegment st then false else playingSegment st in
    match getAudioUrl (path_of (recording st)) with
    | Throw _ =>
        ({| segment := segment st; recording := recording st;
            playingSegment := segmentFlag; playingRecording := playingRecording st;
            segmentAudio := segmentAudio st; recordingAudio := recordingAudio st;
            audios := audios st |},
         stopped)
    | Normal url =>
        let aid := length (audios st) in
        ({| segment := segment st; recording := recording st;
            playingSegment := segmentFlag; playingRecording := true;
            segmentAudio := segmentAudio st; recordingAudio := Some aid;
            audios := audios st ++ [OfRecording] |},
         stopped ++ [NewAudio aid url; AudioPlay aid])
    end.

(** [audio.onended] of element [aid]. *)
Definition onended (st : State) (aid : nat) : State :=
  match nth_error (audios st) aid with
  | Some OfSegment =>
      {| segment := segment st; recording := recording st;
         playingSegment := false; playingRecording := playingRecording st;
         segmentAudio := segmentAudio st; recordingAudio := recordingAudio st;
         audios := audios st |}
  | Some OfRecording =>
      {| segment := segment st; recording := recording st;
         playingSegment := playingSegment st; playingRecording := false;
         segmentAudio := segmentAudio st; recordingAudio := recordingAudio st;
         audios := audios st |}
  | None => st
  end.

(** The page together with the audio elements that are sounding. *)
Record World : Type := mkWorld {
  page : State;
  sounding : list nat
}.

Definition silence (aid : nat) (playing : list nat) : list nat :=
  List.filter (fun a => negb (Nat.eqb a aid)) playing.

(** What an effect does to the elements. [starts] says whether a call of
    [play()] gets the element to sound: it does not when the file cannot
    be loaded or the browser refuses. *)
Definition perform (starts : bool) (playing : list nat) (e : effect) : list nat :=
  match e with
  | NewAudio _ _ => playing
  | AudioPlay aid => if starts then aid :: silence aid playing else silence aid playing
  | AudioPause aid => silence aid playing
  end.

Inductive event : Type :=
| ClickSegment (starts : bool)
| ClickRecording (starts : bool)
| Ended (aid : nat).

(** A click runs its toggle; an element that is sounding may reach its end,
    which stops it and runs its listener. *)
Definition step (w : World) (ev : event) : World :=
  match ev with
  | ClickSegment starts =>
      let '(st, effects) := toggleSegmentPlay (page w) in
      {| page := st; sounding := fold_left (perform starts) effects (sounding w) |}
  | ClickRecording starts =>
      let '(st, effects) := toggleRecordingPlay (page w) in
      {| page := st; sounding := fold_left (perform starts) effects (sounding w) |}
  | Ended aid =>
      if existsb (Nat.eqb aid) (sounding w) then
        {| page := onended (page w) aid; sounding := silence aid (sounding w) |}
      else w
  end.

Definition run (w : World) (events : list event) : World := fold_left step events w.

(** Element [aid] is the one the page shows as playing. *)
Definition shown_playing (st : State) (aid : nat) : Prop :=
  (playingSegment st = true /\ segmentAudio st = Some aid
   /\ nth_error (audios st) aid = Some OfSegment)
  \/ (playingRecording st = true /\ recordingAudio st = Some aid
      /\ nth_error (audios st) aid = Some OfRecording).

(** What sounds is what the page shows as playing. *)
Definition in_tune (w : World) : Prop :=
  playingSegment (page w) && playingRecording (page w) = false
  /\ (sounding w = [] \/ exists aid, sounding w = [aid] /\ shown_playing (page w) aid).

Lemma silence_one aid : silence aid [aid] = [].
Proof. unfold silence. cbn [List.filter]. now rewrite Nat.eqb_refl. Qed.

Lemma nth_error_last {A} (l : list A) (x : A) : nth_error (l ++ [x]) (length l) = Some x.
Proof. induction l as [ | y l IH]; simpl; auto. Qed.

Lemma in_tune_step w ev : in_tune w -> in_tune (step w ev).
Proof.
  destruct w as [st playing]. unfold in_tune, shown_playing. cbn [page sounding].
  intros (Hboth & Hsound).
  destruct ev as [starts | starts | aid]; cbn [step page sounding].
  - unfold toggleSegmentPlay.
    destruct (negb (truthy (segment st))); [now split | ].
    destruct (playingSegment st) eqn:Hs.
    + (* pause the segment *)
      cbn [andb] in Hboth. cbn [page sounding playingSegment playingRecording andb].
      split; [reflexivity | left].
      destruct Hsound as [-> | (aid & -> & [(_ & Haudio & _) | (Habs & _)])];
        [now destruct (segmentAudio st) | | congruence].
      rewrite Haudio. cbn [pause fold_left perform]. apply silence_one.
    + (* stop the take, play the segment *)
      assert (Hquiet : fold_left (perform starts)
                         (if playingRecording st then pause (recordingAudio st) else [])
                         playing = []).
      { destruct Hsound as [-> | (aid & -> & [(Habs & _) | (Hr & Haudio & _)])];
          [ | congruence | ].
        - destruct (playingRecording st); [ | reflexivity].
          now destruct (recordingAudio st).
        - rewrite Hr, Haudio. cbn [pause fold_left perform]. apply silence_one. }
      destruct (getAudioUrl (path_of (segment st))) as [url | e];
        cbn [page sounding playingSegment playingRecording segmentAudio recordingAudio
             audios].
      * rewrite fold_left_app, Hquiet. cbn [fold_left perform silence List.filter].
        split; [now destruct (playingRecording st) | ].
        destruct starts; [right | now left].
        exists (length (audios st)). split; [reflexivity | left].
        now rewrite nth_error_last.
      * rewrite Hquiet, ?Hs. split; [now destruct (playingRecording st) | now left].
  - unfold toggleRecordingPlay.
    destruct (negb (truthy (recording st))); [now split | ].
    destruct (playingRecording st) eqn:Hr.
    + (* pause the take *)
      cbn [page sounding playingSegment playingRecording].
      split; [apply andb_false_r | left].
      destruct Hsound as [-> | (aid & -> & [(Habs & _) | (_ & Haudio & _)])];
        [now destruct (recordingAudio st) | | ].
      * rewrite Habs in Hboth. discriminate.
      * rewrite Haudio. cbn [pause fold_left perform]. apply silence_one.
    + (* stop the segment, play the take *)
      assert (Hquiet : fold_left (perform starts)
                         (if playingSegment st then pause (segmentAudio st) else [])
                         playing = []).
      { destruct Hsound as [-> | (aid & -> & [(Hs & Haudio & _) | (Habs & _)])];
          [ | | congruence].
        - destruct (playingSegment st); [ | reflexivity].
          now destruct (segmentAudio st).
        - rewrite Hs, Haudio. cbn [pause fold_left perform]. apply silence_one. }
      destruct (getAudioUrl (path_of (recording st))) as [url | e];
        cbn [page sounding playingSegment playingRecording segmentAudio recordingAudio
             audios].
      * rewrite fold_left_app, Hquiet. cbn [fold_left perform silence List.filter].
        split; [now destruct (playingSegment st) | ].
        destruct starts; [right | now left].
        exists (length (audios st)). split; [reflexivity | right].
        now rewrite nth_error_last.
      * rewrite Hquiet, ?Hr.
        split; [now destruct (playingSegment st) | now left].
  - destruct (existsb (Nat.eqb aid) playing) eqn:Hsounding;
      [ | now split; [ | exact Hsound] ].
    cbn [page sounding]. unfold onended.
    destruct Hsound as [-> | (a & -> & Hshown)]; [discriminate | ].
    cbn [existsb] in Hsounding. rewrite orb_false_r in Hsounding.
    apply Nat.eqb_eq in Hsounding as ->. rewrite silence_one.
    destruct Hshown as [(Hs & _ & Hkind) | (Hr & _ & Hkind)]; rewrite Hkind;
      cbn [playingSegment playingRecording].
    + split; [reflexivity | now left].
    + split; [apply andb_false_r | now left].
Qed.

(** The two recordings are never heard together. From the loaded page,
    after any clicks on the two play buttons (whether or not the browser
    gets the new element to sound) and any endings of sounding elements,
    at most one audio element sounds, the page never shows both as
    playing, and an element that sounds is the one the page shows as
    playing. *)
Theorem one_voice_at_a_time seg rec events :
  let w := run {| page := loaded seg rec; sounding := [] |} events in
  length (sounding w) <= 1
  /\ playingSegment (page w) && playingRecording (page w) = false
  /\ (forall aid, In aid (sounding w) ->
      (playingSegment (page w) = true /\ segmentAudio (page w) = Some aid)
      \/ (playingRecording (page w) = true /\ recordingAudio (page w) = Some aid)).
Proof.
  intros w.
  assert (Htune : in_tune w).
  { subst w.
    assert (Hstart : in_tune {| page := loaded seg rec; sounding := [] |}).
    { split; [reflexivity | now left]. }
    revert Hstart. generalize {| page := loaded seg rec; sounding := [] |}.
    induction events as [ | ev events IH]; intros w0 Hw0; [exact Hw0 | ].
    cbn [run fold_left]. apply IH. now apply in_tune_step. }
  destruct Htune as (Hboth & [Hnone | (a & Hone & Hshown)]).
  - rewrite Hnone. split; [cbn; lia | ]. split; [exact Hboth | ]. intros aid [ ].
  - rewrite Hone. split; [cbn; lia | ]. split; [exact Hboth | ].
    intros aid [<- | [ ] ].
    destruct Hshown as [(Hs & Haudio & _) | (Hr & Haudio & _)]; [now left | now right].
Qed.

End WithEngine.

(** *** Closed examples *)

Definition encode_plain (s : string) : completion string := Normal s.

Example listening_session :
  let song := JObj [("vocal_file_path", JStr "./storage/vocals/song.wav")] in
  let take := JObj [("file_path", JStr "take.webm")] in
  let w := run encode_plain {| page := loaded song take; sounding := [] |}
             [ClickSegment true; ClickRecording true; Ended 0; Ended 1;
              ClickSegment true] in
  sounding w = [2]
  /\ playingSegment (page w) = true
  /\ playingRecording (page w) = false.
Proof. repeat split. Qed.

End ResultsPlayback.


(* ===================================================================== *)
(** ** What leaves the browser besides [apiRequest]                       *)
(* ===================================================================== *)

Module MediaLoads.

Import Api.

(** A request of the client: one that services/api hands to [fetch], or
    the load of a URL given to an audio element ([new Audio(url)]) or to
    the waveform ([ws.load(url)]), which the browser sends with no header
    of the application's. *)
Inductive call : Type :=
| Fetched (request : Request)
| Loaded (url : string).

Definition Authorization_of (c : call) : option string :=
  match c with
  | Fetched request => req_headers request !! "Authorization"
  | Loaded _ => None
  end.

(** The loads behind the effects of the Results page. *)
Definition audio_loads (effects : list ResultsPlayback.effect) : list call :=
  omap (fun e =>
          match e with
          | ResultsPlayback.NewAudio _ url => Some (Loaded url)
          | _ => None
          end)
       effects.

(** The mount effect of the waveform player ends in [ws.load(audioUrl)]. *)
Definition waveform_load (props : WaveformPlayer.Props) : call :=
  Loaded (WaveformPlayer.audioUrl props).

Section Calls.

Variable Number_toString : float -> string.
Variable encodeURIComponent : string -> completion string.

(** The network calls of the client, as far as the sources show them:
    what goes through [apiRequest], what the two toggles of the Results
    page load, and what the player of the segment page loads once the
    page has a URL ([{audioUrl && <WaveformPlayer .../>}]). *)
Inductive client_call (ls : Storage) : call -> Prop :=
| through_apiRequest net endpoint options :
    client_call ls (Fetched (fst (apiRequest Number_toString ls net endpoint options)))
| by_segment_audio st c :
    In c (audio_loads (snd (ResultsPlayback.toggleSegmentPlay encodeURIComponent st))) ->
    client_call ls c
| by_recording_audio st c :
    In c (audio_loads (snd (ResultsPlayback.toggleRecordingPlay encodeURIComponent st))) ->
    client_call ls c
| by_waveform st fileId st' :
    SelectSegment.mount Number_toString st fileId = (st', [], Normal tt) ->
    SelectSegment.audioUrl st' <> "" ->
    client_call ls (waveform_load (SelectSegment.player st')).

(** The claim as worded: every network call of the client carries an
    [Authorization] header. *)
Definition claimed_every_call_authorized : Prop :=
  forall ls c, client_call ls c -> is_Some (Authorization_of c).

End Calls.

(** The Results page with a segment fetched. *)
Definition results_page : ResultsPlayback.State :=
  ResultsPlayback.loaded (JObj [("file_path", JStr "./storage/song.wav")]) JNull.

(** Listening to the segment loads its file with no [Authorization]
    header, and so does the waveform of the segment page; not every
    network call of the client goes through [apiRequest]. *)
Lemma media_loads_carry_no_header :
  snd (ResultsPlayback.toggleSegmentPlay ResultsPlayback.encode_plain results_page)
  = [ResultsPlayback.NewAudio 0 (API_BASE_URL +:+ "/api/audio/song.wav");
     ResultsPlayback.AudioPlay 0]
  /\ Authorization_of (Loaded (API_BASE_URL +:+ "/api/audio/song.wav")) = None
  /\ fst (fst (SelectSegment.mount Number_toString_integral SelectSegment.initial
                 (Some (JNum 7))))
     = SelectSegment.with_audioUrl SelectSegment.initial (API_BASE_URL +:+ "/files/7")
  /\ Authorization_of
       (waveform_load
          (SelectSegment.player
             (SelectSegment.with_audioUrl SelectSegment.initial
                (API_BASE_URL +:+ "/files/7"))))
     = None
  /\ ~ claimed_every_call_authorized Number_toString_integral ResultsPlayback.encode_plain.
Proof.
  split; [vm_compute; reflexivity | ].
  split; [reflexivity | ].
  split; [vm_compute; reflexivity | ].
  split; [reflexivity | ].
  intros Hclaim.
  destruct (Hclaim ∅ (Loaded (API_BASE_URL +:+ "/api/audio/song.wav"))) as [value Habs];
    [ | discriminate Habs].
  apply (by_segment_audio _ _ _ results_page). vm_compute. now left.
Qed.

End MediaLoads.


(* ===================================================================== *)
(** ** pages/Record with its recorder: which take is submitted            *)
(* ===================================================================== *)

Module RecordFlow.

Import Submission.

(** The page's side of the recorder's effects: the callback is
    [handleRecordingComplete]. *)
Definition receive (st : RecordPage.State) (effects : list AudioRecorder.effect)
    : RecordPage.State :=
  fold_left
    (fun s e =>
       match e with
       | AudioRecorder.OnRecordingComplete blob => RecordPage.handleRecordingComplete s blob
       | _ => s
       end)
    effects st.

(** No recorder reports that it has stopped. *)
Definition no_stop (ev : AudioRecorder.event) : bool :=
  match ev with
  | AudioRecorder.Stopped _ => false
  | _ => true
  end.

(** The blob a take ends with. *)
Definition blob_of_take (acts : list AudioRecorder.activity) (final : Blob) : Blob :=
  AudioRecorder.Blob_of
    (List.filter AudioRecorder.nonempty (AudioRecorder.chunks_of acts ++ [final]))
    "audio/webm".

Lemma receive_completions effects : forall st,
  RecordPage.recordedBlob (receive st effects)
  = match last (AudioRecorder.completions effects) with
    | Some blob => Some blob
    | None => RecordPage.recordedBlob st
    end.
Proof.
  induction effects as [ | e effects IH]; intros st; [reflexivity | ].
  unfold receive in *. cbn [fold_left].
  destruct e; cbn [AudioRecorder.completions]; try apply IH.
  rewrite IH. cbn [RecordPage.handleRecordingComplete RecordPage.recordedBlob].
  now destruct (AudioRecorder.completions effects) as [ | b rest] using rev_ind;
    [ | rewrite app_comm_cons, !last_snoc].
Qed.

Lemma quiet_completions events : forall st,
  forallb no_stop events = true ->
  AudioRecorder.completions (snd (AudioRecorder.run st events)) = [].
Proof.
  induction events as [ | ev events IH]; intros st Hquiet; [reflexivity | ].
  cbn [forallb] in Hquiet. apply andb_true_iff in Hquiet as (Hev & Hrest).
  rewrite RecorderMore.run_cons. cbn [snd].
  rewrite RecorderMore.completions_app, (IH _ Hrest), app_nil_r.
  destruct ev as [answer | | | rid data | rid | | | ]; cbn [AudioRecorder.handle];
    try discriminate.
  - now destruct answer.
  - unfold AudioRecorder.stopRecording.
    destruct (AudioRecorder.mediaRecorderRef st); [ | reflexivity].
    destruct (AudioRecorder.isRecording st); [ | reflexivity].
    cbn [snd AudioRecorder.completions]. now destruct (AudioRecorder.timerRef st).
  - reflexivity.
  - now destruct (nth_error (AudioRecorder.recorders st) rid).
  - unfold AudioRecorder.playRecording.
    destruct (AudioRecorder.recordedBlob st), (AudioRecorder.isPlaying st),
      (AudioRecorder.audioRef st); reflexivity.
  - reflexivity.
  - cbn [AudioRecorder.resetRecording snd]. now destruct (AudioRecorder.audioRef st).
Qed.

(** A take reports its blob, once. *)
Lemma take_completions st tracks acts final :
  AudioRecorder.completions
    (snd (AudioRecorder.run st (AudioRecorder.take st tracks acts final)))
  = [blob_of_take acts final].
Proof.
  unfold AudioRecorder.take, blob_of_take.
  cbn [AudioRecorder.run AudioRecorder.handle AudioRecorder.startRecording].
  rewrite AudioRecorder.run_app.
  rewrite (AudioRecorder.run_during _ acts _ tracks)
    by apply AudioRecorder.nth_error_snoc.
  cbn [fst snd AudioRecorder.run AudioRecorder.handle AudioRecorder.stopRecording
       AudioRecorder.with_progress AudioRecorder.after_stop
       AudioRecorder.isRecording AudioRecorder.recordedBlob AudioRecorder.isPlaying
       AudioRecorder.recordingTime AudioRecorder.mediaRecorderRef
       AudioRecorder.chunksRef AudioRecorder.timerRef AudioRecorder.audioRef
       AudioRecorder.recorders AudioRecorder.timers AudioRecorder.audios app].
  rewrite AudioRecorder.nth_error_snoc.
  cbn [fst snd AudioRecorder.ondataavailable AudioRecorder.onstop app
       AudioRecorder.isRecording AudioRecorder.recordedBlob AudioRecorder.isPlaying
       AudioRecorder.recordingTime AudioRecorder.mediaRecorderRef
       AudioRecorder.chunksRef AudioRecorder.timerRef AudioRecorder.audioRef
       AudioRecorder.recorders AudioRecorder.timers AudioRecorder.audios].
  rewrite AudioRecorder.nth_error_snoc.
  cbn [fst snd AudioRecorder.onstop app AudioRecorder.completions
       AudioRecorder.isRecording AudioRecorder.recordedBlob AudioRecorder.isPlaying
       AudioRecorder.recordingTime AudioRecorder.mediaRecorderRef
       AudioRecorder.chunksRef AudioRecorder.timerRef AudioRecorder.audioRef
       AudioRecorder.recorders AudioRecorder.timers AudioRecorder.audios].
  rewrite app_nil_r, AudioRecorder.completions_track_stops, AudioRecorder.filter_snoc.
  reflexivity.
Qed.

Section Facts.

Variable Number_toString : float -> string.
Variable parseInt : string -> float.


(** Re-record does not reach the page. After a take and a click on
    Re-record the recorder is back at the start (no take, clock at zero,
    not playing), while the page still holds the take that was dropped. *)
Theorem re_record_keeps_page_take rst pst tracks acts final :
  let recorder :=
    AudioRecorder.run rst
      (AudioRecorder.take rst tracks acts final ++ [AudioRecorder.ClickReset]) in
  AudioRecorder.recordedBlob (fst recorder) = None
  /\ AudioRecorder.recordingTime (fst recorder) = 0%N
  /\ AudioRecorder.isPlaying (fst recorder) = false
  /\ RecordPage.recordedBlob (receive pst (snd recorder))
     = Some (blob_of_take acts final).
Proof.
  intros recorder. subst recorder.
  split; [ | split; [ | split] ].
  1-3: rewrite AudioRecorder.run_app;
    cbn [fst AudioRecorder.run AudioRecorder.handle AudioRecorder.resetRecording
         AudioRecorder.recordedBlob AudioRecorder.recordingTime
         AudioRecorder.isPlaying];
    reflexivity.
  rewrite receive_completions, AudioRecorder.run_app. cbn [snd].
  rewrite RecorderMore.completions_app, take_completions.
  now rewrite (quiet_completions [AudioRecorder.ClickReset] _ eq_refl).
Qed.

End Facts.

(** *** Closed examples *)


End RecordFlow.
